(** * A skip list with forward-pointer towers (skiplist.c)

    The C program keeps its nodes in malloc'ed blocks that point at each
    other.  The embedding keeps that shape: a heap of nodes indexed by
    address, node pointers that are NULL, the address of the static
    SENTINEL, or the address of a block, and every function of skiplist.c
    written as a function on that heap.  Loops whose trip count depends on
    the heap take fuel; running out of fuel, reading through a dangling
    pointer and indexing outside an array all yield [None].

    Conventions used for the parts declared in the headers that are not
    part of skiplist.c (skiplist_config.h, skiplist_macros_internal.h):
    - [T] is [struct skiplist], [N] is [struct skiplist_node], [R] is
      [return], [DO(n, x)] is [for (int i = 0; i < n; i++) { x; }];
    - [A(...)] (assert) and [LOG1]/[LOG2] have no effect on the state and
      are left out;
    - [SKIPLIST_MAX_HEIGHT], the comparator [SKIPLIST_CMP], the allocator
      [SKIPLIST_MALLOC] and the width of [skiplist_count_t] are parameters
      of the development;
    - [void *] keys and values are integers (the pointer value), with
      [vNULL = 0]. *)

From Stdlib Require Import ZArith Lia.
From Stdlib Require Import Sorting.Sorted Sorting.Permutation.
From stdpp Require Import gmap list.

Local Open Scope Z_scope.

Set Warnings "-clear-no-such-hyp".

(** ** Pointers and nodes *)

(** A value of type [N *]: [NULL], [&SENTINEL], or the address of an
    allocated node. *)
Inductive ptr : Type :=
  | NULL : ptr
  | SENTINEL : ptr
  | Ptr (a : nat) : ptr.

#[global] Instance ptr_eq_dec : EqDecision ptr.
Proof. solve_decision. Defined.

Definition IS_SENTINEL (n : ptr) : bool :=
  match n with SENTINEL => true | _ => false end.

(** A [void *] that is null. *)
Definition vNULL : Z := 0.

(** [struct skiplist_node]: fields [h], [k], [v] and the flexible array
    [next], of [h] slots. *)
Record skiplist_node : Type := mkN {
  node_h : nat;
  node_k : Z;
  node_v : Z;
  node_next : list ptr
}.

(** [struct skiplist]: [count] and [head]. *)
Record skiplist : Type := mkT {
  count : Z;
  head : ptr
}.

(** [static struct skiplist_node SENTINEL = { 0, NULL, NULL }]. *)
Definition SENTINEL_node : skiplist_node :=
  {| node_h := 0; node_k := vNULL; node_v := vNULL; node_next := [] |}.

(** ** Memory *)

Definition deref (m : gmap nat skiplist_node) (p : ptr) : option skiplist_node :=
  match p with
  | NULL => None
  | SENTINEL => Some SENTINEL_node
  | Ptr a => m !! a
  end.

(** [p->next[i]] *)
Definition get_next (m : gmap nat skiplist_node) (p : ptr) (i : nat) : option ptr :=
  n ← deref m p; node_next n !! i.

(** [p->next[i] = q] *)
Definition set_next (m : gmap nat skiplist_node) (p : ptr) (i : nat) (q : ptr)
  : option (gmap nat skiplist_node) :=
  match p with
  | Ptr a =>
      n ← m !! a;
      if decide (i < length (node_next n))%nat
      then Some (<[a := mkN (node_h n) (node_k n) (node_v n) (<[i := q]> (node_next n))]> m)
      else None
  | _ => None
  end.

(** [p->v = x] *)
Definition set_v (m : gmap nat skiplist_node) (p : ptr) (x : Z)
  : option (gmap nat skiplist_node) :=
  match p with
  | Ptr a =>
      n ← m !! a;
      Some (<[a := mkN (node_h n) (node_k n) x (node_next n)]> m)
  | _ => None
  end.

(** [arr[i] = x] on a local array of fixed size. *)
Definition array_set {A : Type} (arr : list A) (i : nat) (x : A) : option (list A) :=
  if decide (i < length arr)%nat then Some (<[i := x]> arr) else None.

(** [for (int i = from; i < from + n; i++) body], and the [DO] macro. *)
Fixpoint FOR {St : Type} (n : nat) (from : nat) (body : nat → St → option St) (s : St)
  : option St :=
  match n with
  | O => Some s
  | S n' => s' ← body from s; FOR n' (S from) body s'
  end.

Definition DO {St : Type} (n : nat) (body : nat → St → option St) (s : St) : option St :=
  FOR n 0%nat body s.

(** [N_free]: reads [n->h] for the size and releases the block. *)
Definition N_free (m : gmap nat skiplist_node) (n : ptr) : option (gmap nat skiplist_node) :=
  match n with
  | Ptr a => _ ← m !! a; Some (delete a m)
  | _ => None
  end.

(** ** Height generator *)

(** A C [int] holding [z]: 32 bits, two's complement. *)
Definition int_of_Z (z : Z) : Z := (z + 2 ^ 31) mod 2 ^ 32 - 2 ^ 31.

(** [for (int bit = 0; r & (2 << bit); bit++) h++;]  The mask is an
    [int]; from [bit = 31] on it is zero, so 32 rounds always suffice. *)
Fixpoint height_loop (rounds : nat) (r : Z) (bit : Z) (h : nat) : nat :=
  match rounds with
  | O => h
  | S rounds' =>
      if Z.eqb (Z.land r (int_of_Z (Z.shiftl 2 bit))) 0 then h
      else height_loop rounds' r (bit + 1) (S h)
  end.

(** ** Abstract view of a skiplist

    The nodes of a skiplist in level-0 order, each with its address, key,
    value and height.  The forward pointers of a well-formed skiplist are
    determined by that list: [next[j]] of a node is the first later node
    that is taller than [j], or the sentinel. *)

Record entry : Type := mkE {
  e_addr : nat;
  e_key : Z;
  e_val : Z;
  e_h : nat
}.

Fixpoint succ_at (j : nat) (L : list entry) : ptr :=
  match L with
  | [] => SENTINEL
  | e :: r => if decide (j < e_h e)%nat then Ptr (e_addr e) else succ_at j r
  end.

(** The address of the last node of [L] that is taller than [j]. *)
Fixpoint last_tall (j : nat) (L : list entry) : option nat :=
  match L with
  | [] => None
  | e :: r =>
      match last_tall j r with
      | Some a => Some a
      | None => if decide (j < e_h e)%nat then Some (e_addr e) else None
      end
  end.

(** What [set_next] never changes about a block: its [h], [k], [v] and
    the number of forward slots. *)
Definition hdr (m : gmap nat skiplist_node) (a : nat) : option (nat * Z * Z * nat) :=
  (λ n, (node_h n, node_k n, node_v n, length (node_next n))) <$> m !! a.

Definition node_at (m : gmap nat skiplist_node) (e : entry) : Prop :=
  hdr m (e_addr e) = Some (e_h e, e_key e, e_val e, e_h e).

Definition links (m : gmap nat skiplist_node) (e : entry) (rest : list entry) : Prop :=
  ∀ j, (j < e_h e)%nat → get_next m (Ptr (e_addr e)) j = Some (succ_at j rest).

(** The nodes of [L] are in the heap and linked as [L ++ tail] demands. *)
Fixpoint chain_to (m : gmap nat skiplist_node) (L tail : list entry) : Prop :=
  match L with
  | [] => True
  | e :: r => node_at m e ∧ links m e (r ++ tail) ∧ chain_to m r tail
  end.

(** ** Concrete collaborators, for running the code

    An integer comparator, an allocator that hands out the address after
    the largest one in use, and a generator that replays a list of draws. *)

Definition cmp_int (a b : Z) : Z :=
  match Z.compare a b with Lt => -1 | Eq => 0 | Gt => 1 end.

Definition bump_malloc (m : gmap nat skiplist_node) (slots : nat) : option nat :=
  Some (S (map_fold (λ a _ acc, Nat.max a acc) 0%nat m)).

(** Like [bump_malloc], but out of memory once [limit] blocks are live. *)
Definition bounded_malloc (limit : nat) (m : gmap nat skiplist_node) (slots : nat)
  : option nat :=
  if decide (size m < limit)%nat then bump_malloc m slots else None.

Definition replay_seed (draws : Z → list Z) (seed : Z) : list Z := draws seed.

Definition replay_random (g : list Z) : Z * list Z :=
  match g with
  | [] => (0, [])
  | r :: g' => (r, g')
  end.

Section Skiplist.

(** [SKIPLIST_MAX_HEIGHT] (skiplist_config.h). *)
Variable SKIPLIST_MAX_HEIGHT : nat.

(** [skiplist_count_t] is an unsigned integer type; [count_modulus] is
    two to the power of its width. *)
Variable count_modulus : Z.

(** The comparator: negative, zero or positive. *)
Variable SKIPLIST_CMP : Z → Z → Z.

(** The allocator: given the live heap and the number of forward slots
    asked for, the address of the new block, or [None] for NULL. *)
Variable SKIPLIST_MALLOC : gmap nat skiplist_node → nat → option nat.

(** libc's generator: [srandom] and [random]. *)
Variable rng_state : Type.
Variable srandom : Z → rng_state.
Variable random : rng_state → Z * rng_state.

(** [&SENTINEL] seen as a [void *] (the key and value of a head). *)
Variable vSENTINEL : Z.

(** The process: node heap, the skiplist object, generator state. *)
Record world : Type := mkW {
  mem : gmap nat skiplist_node;
  sl : skiplist;
  rng : rng_state
}.

Definition N_alloc (m : gmap nat skiplist_node) (height : nat) (key value : Z)
  : ptr * gmap nat skiplist_node :=
  match SKIPLIST_MALLOC m height with
  | None => (NULL, m)
  | Some a => (Ptr a, <[a := mkN height key value (replicate height SENTINEL)]> m)
  end.

Definition skiplist_new (m : gmap nat skiplist_node) (g : rng_state) : option world :=
  match N_alloc m 1 vSENTINEL vSENTINEL with
  | (NULL, _) => None
  | (hd, m') => Some (mkW m' (mkT 0 hd) g)
  end.

Definition skiplist_set_seed (w : world) (seed : Z) : world :=
  mkW (mem w) (sl w) (srandom seed).

(** The height computed from one draw [r]. *)
Definition height_of_draw (r : Z) : nat :=
  let h := height_loop 32 r 0 1 in
  if decide (SKIPLIST_MAX_HEIGHT < h)%nat then SKIPLIST_MAX_HEIGHT else h.

Definition SKIPLIST_GEN_HEIGHT (g : rng_state) : nat * rng_state :=
  let '(r, g') := random g in (height_of_draw r, g').

(** ** Search *)

Fixpoint init_prevs_loop (fuel : nat) (m : gmap nat skiplist_node) (key : Z)
    (cur : ptr) (lvl : nat) (prevs : list ptr) : option (list ptr) :=
  match fuel with
  | O => None
  | S fuel' =>
      next ← get_next m cur lvl;
      res ← (if IS_SENTINEL next then Some 1
             else n ← deref m next; Some (SKIPLIST_CMP (node_k n) key));
      if decide (res < 0) then init_prevs_loop fuel' m key next lvl prevs
      else
        prevs' ← array_set prevs lvl cur;
        match lvl with
        | O => Some prevs'
        | S lvl' => init_prevs_loop fuel' m key cur lvl' prevs'
        end
  end.

Definition init_prevs (fuel : nat) (m : gmap nat skiplist_node) (key : Z)
    (head : ptr) (height : nat) (prevs : list ptr) : option (list ptr) :=
  init_prevs_loop fuel m key head (height - 1) prevs.

(** ** Insertion *)

Definition count_inc (c : Z) : Z := (c + 1) mod count_modulus.
Definition count_dec (c : Z) : Z := (c - 1) mod count_modulus.

(** Returns the code ([0] or [-1]), the skiplist object and the heap. *)
Definition grow_head (m : gmap nat skiplist_node) (s : skiplist) (nn : ptr)
  : option (Z * skiplist * gmap nat skiplist_node) :=
  let old_head := head s in
  oh ← deref m old_head;
  nd ← deref m nn;
  match N_alloc m (node_h nd) vSENTINEL vSENTINEL with
  | (NULL, _) => Some (-1, s, m)
  | (new_head, m1) =>
      m2 ← DO (node_h oh)
              (λ i m, q ← get_next m old_head i; set_next m new_head i q) m1;
      nh ← deref m2 new_head;
      m3 ← FOR (node_h nh - node_h oh) (node_h oh)
               (λ i m, set_next m new_head i nn) m2;
      m4 ← N_free m3 old_head;
      Some (0, mkT (count s) new_head, m4)
  end.

(** [if (slot) *slot = x] for an out-parameter: [None] is a null
    [slot], [Some y] a slot that holds [y]. *)
Definition out_write (slot : option Z) (x : Z) : option Z :=
  match slot with
  | Some _ => Some x
  | None => None
  end.

(** The second half of [add_or_set], from the call of the height
    generator on: a new node is allocated, the head grown if the node is
    taller, and the node spliced in after [prevs]. *)
Definition add_or_set_new_node (w : world) (head0 : ptr) (cur_height : nat)
    (prevs : list ptr) (key value : Z) (old' : option Z)
  : option (Z * option Z * world) :=
  let '(new_height, g') := SKIPLIST_GEN_HEIGHT (rng w) in
  match N_alloc (mem w) new_height key value with
  | (NULL, _) => Some (-1, old', mkW (mem w) (sl w) g')
  | (nn, m1) =>
      grown ←
        (if decide (cur_height < new_height)%nat then
           '(rc, s2, m2) ← grow_head m1 (sl w) nn;
           if decide (rc < 0) then Some (inl m2)
           else
             prevs2 ← DO cur_height
               (λ i pv, p ← pv !! i;
                        if decide (p = head0) then array_set pv i (head s2)
                        else Some pv) prevs;
             Some (inr (s2, m2, prevs2))
         else Some (inr (sl w, m1, prevs)));
      match grown with
      | inl m2 => Some (-1, old', mkW m2 (sl w) g')
      | inr (s2, m2, prevs2) =>
          nd ← deref m2 nn;
          let minH := if decide (node_h nd < cur_height)%nat
                      then node_h nd else cur_height in
          m3 ← DO minH
                  (λ i m, p ← prevs2 !! i;
                          q ← get_next m p i;
                          m' ← set_next m nn i q;
                          set_next m' p i nn) m2;
          Some (0, old', mkW m3 (mkT (count_inc (count s2)) (head s2)) g')
      end
  end.

(** Returns the code, the content of [*old] afterwards, and the world. *)
Definition add_or_set (fuel : nat) (w : world) (try_replace : bool)
    (key value : Z) (old : option Z) : option (Z * option Z * world) :=
  let head0 := head (sl w) in
  hn ← deref (mem w) head0;
  let cur_height := node_h hn in
  prevs ← init_prevs fuel (mem w) key head0 cur_height (replicate cur_height NULL);
  replaced ←
    (if try_replace then
       p0 ← prevs !! 0%nat;
       next ← get_next (mem w) p0 0;
       if IS_SENTINEL next then Some (inr old)
       else
         n ← deref (mem w) next;
         if decide (SKIPLIST_CMP (node_k n) key = 0) then
           m' ← set_v (mem w) next value;
           Some (inl (out_write old (node_v n), m'))
         else Some (inr (out_write old vNULL))
     else Some (inr old));
  match replaced with
  | inl (old', m') => Some (0, old', mkW m' (sl w) (rng w))
  | inr old' => add_or_set_new_node w head0 cur_height prevs key value old'
  end.

Definition skiplist_add (fuel : nat) (w : world) (key value : Z) : option (Z * world) :=
  '(rc, _, w') ← add_or_set fuel w false key value None; Some (rc, w').

Definition skiplist_set (fuel : nat) (w : world) (key value : Z) (old : option Z)
  : option (Z * option Z * world) :=
  add_or_set fuel w true key value old.

(** ** Deletion *)

(** The [do ... while (res == 0)] loop of the delete-all branch.  The
    state is the heap, [sl->count], the user data of the callback,
    [tdh] and [nexts]. *)
Fixpoint delete_all_loop {U : Type} (fuel : nat) (key : Z) (cb : Z → Z → U → U)
    (doomed : ptr) (st : gmap nat skiplist_node * Z * U * nat * list ptr)
  : option (gmap nat skiplist_node * Z * U * nat * list ptr) :=
  match fuel with
  | O => None
  | S fuel' =>
      let '(m, ct, udata, tdh, nexts) := st in
      dn ← deref m doomed;
      next ← node_next dn !! 0%nat;
      let tdh' := if decide (node_h dn < tdh)%nat then tdh else node_h dn in
      nexts' ← DO (node_h dn)
                  (λ i nx, q ← get_next m doomed i; array_set nx i q) nexts;
      let udata' := cb key (node_v dn) udata in
      let ct' := count_dec ct in
      m' ← N_free m doomed;
      res ← (if IS_SENTINEL next then Some (-1)
             else n ← deref m' next; Some (SKIPLIST_CMP (node_k n) key));
      if decide (res = 0)
      then delete_all_loop fuel' key cb next (m', ct', udata', tdh', nexts')
      else Some (m', ct', udata', tdh', nexts')
  end.

(** [cb = None] is a null callback.  Returns the [void *] result, the
    user data and the world. *)
Definition delete_one_or_all {U : Type} (fuel : nat) (w : world) (key : Z)
    (udata : U) (cb : option (Z → Z → U → U)) : option (Z * U * world) :=
  let head0 := head (sl w) in
  hn ← deref (mem w) head0;
  let cur_height := node_h hn in
  prevs ← init_prevs fuel (mem w) key head0 cur_height (replicate cur_height NULL);
  p0 ← prevs !! 0%nat;
  doomed ← get_next (mem w) p0 0;
  found ← (if IS_SENTINEL doomed then Some false
           else dn ← deref (mem w) doomed;
                Some (bool_decide (SKIPLIST_CMP (node_k dn) key = 0)));
  if negb found then Some (vNULL, udata, w)
  else
    match cb with
    | None =>
        dn ← deref (mem w) doomed;
        m1 ← DO (node_h dn)
                (λ i m, p ← prevs !! i; q ← get_next m doomed i; set_next m p i q)
                (mem w);
        dn' ← deref m1 doomed;
        let res := node_v dn' in
        m2 ← N_free m1 doomed;
        Some (res, udata, mkW m2 (mkT (count_dec (count (sl w))) head0) (rng w))
    | Some f =>
        '(m1, ct, udata', tdh, nexts) ←
          delete_all_loop fuel key f doomed
            (mem w, count (sl w), udata, 0%nat, replicate cur_height SENTINEL);
        m2 ← DO tdh
                (λ i m, p ← prevs !! i; q ← nexts !! i; set_next m p i q) m1;
        Some (vNULL, udata', mkW m2 (mkT ct head0) (rng w))
    end.

Definition skiplist_delete (fuel : nat) (w : world) (key : Z) : option (Z * world) :=
  '(res, _, w') ← delete_one_or_all fuel w key tt None; Some (res, w').

Definition skiplist_delete_all {U : Type} (fuel : nat) (w : world) (key : Z)
    (udata : U) (cb : Z → Z → U → U) : option (U * world) :=
  '(_, udata', w') ← delete_one_or_all fuel w key udata (Some cb); Some (udata', w').

(** ** Lookup *)

Fixpoint get_first_eq_node_loop (fuel : nat) (m : gmap nat skiplist_node) (key : Z)
    (cur : ptr) (lvl : nat) : option ptr :=
  match fuel with
  | O => None
  | S fuel' =>
      next ← get_next m cur lvl;
      res ← (if IS_SENTINEL next then Some 1
             else n ← deref m next; Some (SKIPLIST_CMP (node_k n) key));
      if decide (res < 0) then get_first_eq_node_loop fuel' m key next lvl
      else
        match lvl with
        | O => if decide (res = 0) then Some next else Some NULL
        | S lvl' => get_first_eq_node_loop fuel' m key cur lvl'
        end
  end.

Definition get_first_eq_node (fuel : nat) (w : world) (key : Z) : option ptr :=
  let head0 := head (sl w) in
  hn ← deref (mem w) head0;
  get_first_eq_node_loop fuel (mem w) key head0 (node_h hn - 1).

Definition skiplist_get (fuel : nat) (w : world) (key : Z) : option Z :=
  n ← get_first_eq_node fuel w key;
  match n with
  | NULL => Some vNULL
  | _ => nd ← deref (mem w) n; Some (node_v nd)
  end.

(** The result is the C truth value of [v != NULL]. *)
Definition skiplist_member (fuel : nat) (w : world) (key : Z) : option Z :=
  v ← skiplist_get fuel w key;
  Some (if decide (v ≠ vNULL) then 1 else 0).

(** ** Boundary operations

    [key] and [value] are out-parameters, as in [out_write]; the result
    carries their contents after the call. *)

Definition skiplist_first (w : world) (key value : option Z)
  : option (Z * option Z * option Z) :=
  first ← get_next (mem w) (head (sl w)) 0;
  if IS_SENTINEL first then Some (-1, key, value)
  else
    fn ← deref (mem w) first;
    Some (0, out_write key (node_k fn), out_write value (node_v fn)).

Fixpoint skiplist_last_loop (fuel : nat) (m : gmap nat skiplist_node)
    (cur : ptr) (lvl : nat) : option ptr :=
  match fuel with
  | O => None
  | S fuel' =>
      next ← get_next m cur lvl;
      if IS_SENTINEL next then
        match lvl with
        | O => Some cur
        | S lvl' => skiplist_last_loop fuel' m cur lvl'
        end
      else skiplist_last_loop fuel' m next lvl
  end.

Definition skiplist_last (fuel : nat) (w : world) (key value : option Z)
  : option (Z * option Z * option Z) :=
  let head0 := head (sl w) in
  hn ← deref (mem w) head0;
  let lvl := (node_h hn - 1)%nat in
  cur ← get_next (mem w) head0 lvl;
  if IS_SENTINEL cur then Some (-1, key, value)
  else
    cur' ← skiplist_last_loop fuel (mem w) cur lvl;
    cn ← deref (mem w) cur';
    Some (0, out_write key (node_k cn), out_write value (node_v cn)).

Definition skiplist_pop_first (w : world) (key value : option Z)
  : option (Z * option Z * option Z * world) :=
  let head0 := head (sl w) in
  first ← get_next (mem w) head0 0;
  fn ← deref (mem w) first;
  let height := node_h fn in
  if IS_SENTINEL first then Some (-1, key, value, w)
  else
    let key' := out_write key (node_k fn) in
    let value' := out_write value (node_v fn) in
    let ct := count_dec (count (sl w)) in
    m1 ← DO height
            (λ i m, q ← get_next m first i; set_next m head0 i q) (mem w);
    m2 ← N_free m1 first;
    Some (0, key', value', mkW m2 (mkT ct head0) (rng w)).

Fixpoint skiplist_pop_last_loop (fuel : nat) (m : gmap nat skiplist_node)
    (cur : ptr) (lvl : nat) (prevs : list ptr) : option (ptr * list ptr) :=
  match fuel with
  | O => None
  | S fuel' =>
      n1 ← get_next m cur lvl;
      advance ←
        (if IS_SENTINEL n1 then Some false
         else next ← get_next m n1 lvl; Some (negb (IS_SENTINEL next)));
      if (advance : bool) then skiplist_pop_last_loop fuel' m n1 lvl prevs
      else
        prevs' ← array_set prevs lvl cur;
        match lvl with
        | O => Some (cur, prevs')
        | S lvl' => skiplist_pop_last_loop fuel' m cur lvl' prevs'
        end
  end.

Definition skiplist_pop_last (fuel : nat) (w : world) (key value : option Z)
  : option (Z * option Z * option Z * world) :=
  let head0 := head (sl w) in
  hn ← deref (mem w) head0;
  let lvl := (node_h hn - 1)%nat in
  if decide (count (sl w) = 0) then Some (-1, key, value, w)
  else
    '(cur0, prevs) ← skiplist_pop_last_loop fuel (mem w) head0 lvl
                        (replicate (node_h hn) NULL);
    cur ← get_next (mem w) cur0 0;
    cn ← deref (mem w) cur;
    m1 ← DO (node_h cn)
            (λ i m, p ← prevs !! i; set_next m p i SENTINEL) (mem w);
    cn' ← deref m1 cur;
    let key' := out_write key (node_k cn') in
    let value' := out_write value (node_v cn') in
    let ct := count_dec (count (sl w)) in
    m2 ← N_free m1 cur;
    Some (0, key', value', mkW m2 (mkT ct head0) (rng w)).

Definition skiplist_count (w : world) : Z := count (sl w).

Definition skiplist_empty (w : world) : bool := bool_decide (skiplist_count w = 0).

(** ** Iteration

    A callback gets the key, the value and the user data, and returns
    its [int] result with the user data afterwards. *)

Fixpoint walk_and_apply {U : Type} (fuel : nat) (m : gmap nat skiplist_node)
    (cur : ptr) (udata : U) (cb : Z → Z → U → Z * U) : option U :=
  match fuel with
  | O => None
  | S fuel' =>
      if IS_SENTINEL cur then Some udata
      else
        n ← deref m cur;
        let '(r, udata') := cb (node_k n) (node_v n) udata in
        if decide (r ≠ 0) then Some udata'
        else next ← node_next n !! 0%nat; walk_and_apply fuel' m next udata' cb
  end.

Definition skiplist_iter {U : Type} (fuel : nat) (w : world) (udata : U)
    (cb : Z → Z → U → Z * U) : option U :=
  first ← get_next (mem w) (head (sl w)) 0;
  walk_and_apply fuel (mem w) first udata cb.

Definition skiplist_iter_from {U : Type} (fuel : nat) (w : world) (key : Z)
    (udata : U) (cb : Z → Z → U → Z * U) : option (Z * U) :=
  cur ← get_first_eq_node fuel w key;
  match cur with
  | NULL => Some (-1, udata)
  | _ => udata' ← walk_and_apply fuel (mem w) cur udata cb; Some (0, udata')
  end.

(** ** Clearing *)

Fixpoint skiplist_clear_loop {U : Type} (fuel : nat) (cb : option (Z → Z → U → U))
    (cur : ptr) (st : gmap nat skiplist_node * U * Z)
  : option (gmap nat skiplist_node * U * Z) :=
  match fuel with
  | O => None
  | S fuel' =>
      let '(m, udata, ct) := st in
      if IS_SENTINEL cur then Some st
      else
        dn ← deref m cur;
        let udata' := match cb with
                      | Some f => f (node_k dn) (node_v dn) udata
                      | None => udata
                      end in
        next ← node_next dn !! 0%nat;
        m' ← N_free m cur;
        skiplist_clear_loop fuel' cb next (m', udata', count_inc ct)
  end.

(** Returns the number cleared, the user data and the world. *)
Definition skiplist_clear {U : Type} (fuel : nat) (w : world) (udata : U)
    (cb : option (Z → Z → U → U)) : option (Z * U * world) :=
  let head0 := head (sl w) in
  cur ← get_next (mem w) head0 0;
  '(m1, udata', ct) ← skiplist_clear_loop fuel cb cur (mem w, udata, 0);
  hn ← deref m1 head0;
  m2 ← DO (node_h hn) (λ i m, set_next m head0 i SENTINEL) m1;
  Some (ct, udata', mkW m2 (sl w) (rng w)).

(** ** Disposal *)

(** [skiplist_free]: clears the skiplist and releases the head.  The
    [struct skiplist] itself is not a block of the heap here, so what is
    left after the call is the heap. *)
Definition skiplist_free {U : Type} (fuel : nat) (w : world) (udata : U)
    (cb : option (Z → Z → U → U)) : option (Z * U * gmap nat skiplist_node) :=
  '(ct, udata', w') ← skiplist_clear fuel w udata cb;
  m ← N_free (mem w') (head (sl w'));
  Some (ct, udata', m).

(** The visitor that records every pair it is shown and never stops. *)
Definition collect (key value : Z) (seen : list (Z * Z)) : Z * list (Z * Z) :=
  (0, seen ++ [(key, value)]).

(** The free-callback that records the values it is shown. *)
Definition record_value (key value : Z) (seen : list Z) : list Z :=
  seen ++ [value].


(** * Well-formed skiplists *)

(** The head seen as an entry: it carries no user key. *)
Definition head_entry (hd H : nat) : entry := mkE hd vSENTINEL vSENTINEL H.

(** The heap [m] holds a skiplist whose head is at [hd] with height [H]
    and whose nodes, in level-0 order, are [L]: every forward pointer of
    level [j] leads to the next node taller than [j] (I1, I4), no node
    is taller than the head (I3), and no two nodes share a block. *)
Record Rep (m : gmap nat skiplist_node) (hd H : nat) (L : list entry) : Prop := mkRep {
  rep_chain : chain_to m (head_entry hd H :: L) [];
  rep_nodup : NoDup (hd :: map e_addr L);
  rep_heights : Forall (λ e, (1 ≤ e_h e ≤ H)%nat) L;
  rep_H : (1 ≤ H)%nat
}.

(** Keys never decrease along the list. *)
Definition key_sorted (L : list entry) : Prop :=
  StronglySorted (λ a b, SKIPLIST_CMP (e_key a) (e_key b) ≤ 0) L.

(** The invariant of a world between two public calls that are not
    [skiplist_clear]: a well-formed sorted skiplist whose [count] is the
    number of nodes (as far as [skiplist_count_t] can tell) and whose
    head is no taller than [SKIPLIST_MAX_HEIGHT] (I5). *)
Definition Inv (w : world) (L : list entry) : Prop :=
  ∃ hd H, head (sl w) = Ptr hd
          ∧ Rep (mem w) hd H L
          ∧ key_sorted L
          ∧ count (sl w) = Z.of_nat (length L) mod count_modulus
          ∧ (H ≤ SKIPLIST_MAX_HEIGHT)%nat.

(** What [init_prevs] computes when the nodes before the position of
    the key are [L1]. *)
Definition prevs_of (hd H : nat) (L1 : list entry) : list ptr :=
  (λ i, Ptr (default hd (last_tall i L1))) <$> seq 0 H.

(** The pairs a full iteration shows to its visitor. *)
Definition pairs_of (L : list entry) : list (Z * Z) :=
  (λ e, (e_key e, e_val e)) <$> L.

(** What [add_or_set] leaves in [*old] when the key is not found and
    the nodes from the position of the key on are [L2]. *)
Definition old_if_absent (try_replace : bool) (L2 : list entry) (old : option Z)
  : option Z :=
  if try_replace then
    match L2 with
    | [] => old
    | _ :: _ => out_write old vNULL
    end
  else old.

(** The height of the tallest node of a run. *)
Definition max_h (R : list entry) : nat :=
  foldr (λ e acc, Nat.max (e_h e) acc) 0%nat R.

(** The node [get_first_eq_node] returns when the nodes from the
    position of [key] on are [L2]. *)
Definition first_eq (key : Z) (L2 : list entry) : ptr :=
  match L2 with
  | [] => NULL
  | e :: _ => if decide (SKIPLIST_CMP (e_key e) key = 0) then Ptr (e_addr e) else NULL
  end.

(** * Sequences of public calls *)

(** A mutating call with its arguments; out-parameters are given by
    their content before the call, the visitor of [skiplist_delete_all]
    works on a list of integers. *)
Inductive op : Type :=
  | OpAdd (key value : Z)
  | OpSet (key value : Z) (old : option Z)
  | OpDelete (key : Z)
  | OpDeleteAll (key : Z) (udata : list Z) (cb : Z → Z → list Z → list Z)
  | OpPopFirst (key value : option Z)
  | OpPopLast (key value : option Z).

Definition apply_op (fuel : nat) (w : world) (o : op) : option world :=
  match o with
  | OpAdd key value => '(_, w') ← skiplist_add fuel w key value; Some w'
  | OpSet key value old => '(_, _, w') ← skiplist_set fuel w key value old; Some w'
  | OpDelete key => '(_, w') ← skiplist_delete fuel w key; Some w'
  | OpDeleteAll key udata cb =>
      '(_, w') ← skiplist_delete_all fuel w key udata cb; Some w'
  | OpPopFirst key value => '(_, _, _, w') ← skiplist_pop_first w key value; Some w'
  | OpPopLast key value => '(_, _, _, w') ← skiplist_pop_last fuel w key value; Some w'
  end.

Fixpoint run (fuel : nat) (w : world) (ops : list op) : option world :=
  match ops with
  | [] => Some w
  | o :: ops' => w' ← apply_op fuel w o; run fuel w' ops'
  end.

(** [skiplist_add] for each pair in turn; the result codes come back in
    order. *)
Fixpoint add_all (fuel : nat) (w : world) (kvs : list (Z * Z))
  : option (list Z * world) :=
  match kvs with
  | [] => Some ([], w)
  | (key, value) :: kvs' =>
      '(rc, w1) ← skiplist_add fuel w key value;
      '(rcs, w2) ← add_all fuel w1 kvs';
      Some (rc :: rcs, w2)
  end.

(** The heights the generator hands out in [n] successive calls. *)
Fixpoint draw_heights (g : rng_state) (n : nat) : list nat :=
  match n with
  | O => []
  | S n' => let '(h, g') := SKIPLIST_GEN_HEIGHT g in h :: draw_heights g' n'
  end.

(** Key, value and height of every node, in level-0 order. *)
Definition triples_of (L : list entry) : list (Z * Z * nat) :=
  (λ e, (e_key e, e_val e, e_h e)) <$> L.

(** [Inv] at a known head, without the order of the keys. *)
Definition Inv_at (w : world) (hd H : nat) (L : list entry) : Prop :=
  head (sl w) = Ptr hd
  ∧ Rep (mem w) hd H L
  ∧ count (sl w) = Z.of_nat (length L) mod count_modulus
  ∧ (H ≤ SKIPLIST_MAX_HEIGHT)%nat.

(** The head is exactly as tall as the tallest node (height 1 when there
    is none): what holds as long as nothing has been removed. *)
Definition top_used (H : nat) (L : list entry) : Prop :=
  match L with
  | [] => H = 1%nat
  | _ :: _ => ∃ e, e ∈ L ∧ e_h e = H
  end.

(** The pairs of [kvs] with the heights [hs], index by index. *)
Definition with_heights (kvs : list (Z * Z)) (hs : list nat) : list (Z * Z * nat) :=
  zip_with (λ kv h, (kv.1, kv.2, h)) kvs hs.

(** What a walk over the pairs [l] leaves in the user data of a visitor
    that may stop the walk by a non-zero result. *)
Fixpoint visit {U : Type} (cb : Z → Z → U → Z * U) (l : list (Z * Z)) (u : U) : U :=
  match l with
  | [] => u
  | (k, v) :: l' =>
      let '(r, u') := cb k v u in
      if decide (r ≠ 0) then u' else visit cb l' u'
  end.

(** Some stored key compares equal to [key]. *)
Definition stored (key : Z) (L : list entry) : Prop :=
  Exists (λ e, SKIPLIST_CMP (e_key e) key = 0) L.

(** ** The blocks a call touches *)

(** [m'] holds a block exactly where [m] does, and the blocks outside
    [S] are the same. *)
Definition frame (S : list nat) (m m' : gmap nat skiplist_node) : Prop :=
  (∀ x, x ∉ S → m' !! x = m !! x) ∧ (∀ x, m' !! x = None ↔ m !! x = None).

(** From a skiplist with blocks [S] in [m] to one with blocks [S'] in
    [m']: the blocks of neither are as before, the blocks given up are
    released, the blocks taken were free. *)
Definition moves (m m' : gmap nat skiplist_node) (S S' : list nat) : Prop :=
  (∀ x, x ∉ S → x ∉ S' → m' !! x = m !! x)
  ∧ (∀ x, x ∈ S → x ∉ S' → m' !! x = None)
  ∧ (∀ x, x ∉ S → x ∈ S' → m !! x = None).

(** [m] is the heap [m0] with the blocks [S] added where [m0] has none. *)
Definition owns (m0 m : gmap nat skiplist_node) (S : list nat) : Prop :=
  (∀ x, x ∈ S → m0 !! x = None) ∧ (∀ x, x ∉ S → m !! x = m0 !! x).

(** The addresses of the blocks of a skiplist. *)
Definition blocks (hd : nat) (L : list entry) : list nat := hd :: map e_addr L.

(** * Reasoning about the heap *)


Lemma hdr_Some m a h k v len :
  hdr m a = Some (h, k, v, len) →
  ∃ nx, m !! a = Some (mkN h k v nx) ∧ length nx = len.
Proof.
  unfold hdr. destruct (m !! a) as [[h' k' v' nx]|]; simpl; [|done].
  intros [= -> -> -> <-]. by exists nx.
Qed.

Lemma get_next_lt m a h k v len i :
  hdr m a = Some (h, k, v, len) → (i < len)%nat → is_Some (get_next m (Ptr a) i).
Proof.
  intros (nx & Hm & <-)%hdr_Some Hi. unfold get_next; simpl. rewrite Hm; simpl.
  by apply lookup_lt_is_Some.
Qed.

Lemma set_next_spec m a i q h k v len :
  hdr m a = Some (h, k, v, len) → (i < len)%nat →
  ∃ m', set_next m (Ptr a) i q = Some m'
        ∧ (∀ x, hdr m' x = hdr m x)
        ∧ (∀ x j, get_next m' (Ptr x) j =
                  if decide (x = a ∧ j = i) then Some q else get_next m (Ptr x) j).
Proof.
  intros (nx & Hm & <-)%hdr_Some Hi. unfold set_next. rewrite Hm; simpl.
  rewrite decide_True by done. eexists; split; [done|]. split.
  - intros x. unfold hdr. destruct (decide (x = a)) as [->|Hne].
    + rewrite lookup_insert_eq, Hm; simpl. by rewrite length_insert.
    + by rewrite lookup_insert_ne.
  - intros x j. unfold get_next; simpl. destruct (decide (x = a)) as [->|Hne].
    + rewrite lookup_insert_eq, Hm; simpl. case_decide as Hd.
      * destruct Hd as [_ ->]. by apply list_lookup_insert_eq.
      * apply list_lookup_insert_ne. naive_solver.
    + rewrite lookup_insert_ne by done. rewrite decide_False by naive_solver. done.
Qed.

Lemma set_v_spec m a x h k v len :
  hdr m a = Some (h, k, v, len) →
  ∃ nx, m !! a = Some (mkN h k v nx)
        ∧ set_v m (Ptr a) x = Some (<[a := mkN h k x nx]> m).
Proof.
  intros (nx & Hm & <-)%hdr_Some. exists nx. split; [done|].
  unfold set_v. by rewrite Hm.
Qed.

Lemma N_free_spec m a h k v len :
  hdr m a = Some (h, k, v, len) → N_free m (Ptr a) = Some (delete a m).
Proof. intros (nx & Hm & _)%hdr_Some. unfold N_free. by rewrite Hm. Qed.

Lemma hdr_delete m a x : hdr (delete a m) x = if decide (x = a) then None else hdr m x.
Proof.
  unfold hdr. case_decide as Hd.
  - subst. by rewrite lookup_delete_eq.
  - by rewrite lookup_delete_ne.
Qed.

Lemma get_next_delete m a x j :
  get_next (delete a m) (Ptr x) j = if decide (x = a) then None else get_next m (Ptr x) j.
Proof.
  unfold get_next; simpl. case_decide as Hd.
  - subst. by rewrite lookup_delete_eq.
  - by rewrite lookup_delete_ne.
Qed.

Lemma hdr_insert m a n x :
  hdr (<[a := n]> m) x =
  if decide (x = a) then Some (node_h n, node_k n, node_v n, length (node_next n))
  else hdr m x.
Proof.
  unfold hdr. case_decide as Hd.
  - subst. by rewrite lookup_insert_eq.
  - by rewrite lookup_insert_ne.
Qed.

Lemma get_next_insert m a n x j :
  get_next (<[a := n]> m) (Ptr x) j =
  if decide (x = a) then node_next n !! j else get_next m (Ptr x) j.
Proof.
  unfold get_next; simpl. case_decide as Hd.
  - subst. by rewrite lookup_insert_eq.
  - by rewrite lookup_insert_ne.
Qed.

(** Loops with an invariant. *)
Lemma FOR_inv {St : Type} (Inv : nat → St → Prop) (n from : nat)
    (body : nat → St → option St) (s : St) :
  Inv from s →
  (∀ i s0, (from ≤ i < from + n)%nat → Inv i s0 →
           ∃ s1, body i s0 = Some s1 ∧ Inv (S i) s1) →
  ∃ s', FOR n from body s = Some s' ∧ Inv (from + n)%nat s'.
Proof.
  revert from s. induction n as [|n IH]; intros from s H0 Hstep; simpl.
  - exists s. split; [done|]. by rewrite Nat.add_0_r.
  - destruct (Hstep from s) as (s1 & Hb & H1); [lia|done|].
    rewrite Hb; simpl.
    destruct (IH (S from) s1) as (s' & Hf & Hi); [done| |].
    + intros i s0 Hi. apply Hstep. lia.
    + exists s'. split; [done|].
      replace (from + S n)%nat with (S from + n)%nat by lia. done.
Qed.

Lemma DO_inv {St : Type} (Inv : nat → St → Prop) (n : nat)
    (body : nat → St → option St) (s : St) :
  Inv 0%nat s →
  (∀ i s0, (i < n)%nat → Inv i s0 → ∃ s1, body i s0 = Some s1 ∧ Inv (S i) s1) →
  ∃ s', DO n body s = Some s' ∧ Inv n s'.
Proof.
  intros H0 Hstep. unfold DO.
  destruct (FOR_inv Inv n 0 body s) as (s' & Hf & Hi); [done| |by exists s'].
  intros i s0 Hi. apply Hstep. lia.
Qed.

(** ** Lists of entries *)

Lemma last_tall_app j A B :
  last_tall j (A ++ B) =
  match last_tall j B with Some a => Some a | None => last_tall j A end.
Proof.
  induction A as [|e A IH]; simpl.
  - by destruct (last_tall j B).
  - rewrite IH. by destruct (last_tall j B).
Qed.

Lemma last_tall_None j A :
  last_tall j A = None ↔ Forall (λ e, (e_h e ≤ j)%nat) A.
Proof.
  induction A as [|e A IH]; simpl.
  - split; [constructor|done].
  - destruct (last_tall j A) as [a|] eqn:Ha.
    + split; [done|]. intros HF. inversion HF; subst.
      destruct IH as [_ IH]. by specialize (IH ltac:(done)).
    + destruct (decide (j < e_h e)%nat).
      * split; [done|]. intros HF. inversion HF; subst. lia.
      * split; [|done]. intros _. constructor; [lia|]. by apply IH.
Qed.

Lemma last_tall_Some j A a :
  last_tall j A = Some a → ∃ e, e ∈ A ∧ e_addr e = a ∧ (j < e_h e)%nat.
Proof.
  induction A as [|e A IH]; simpl; [done|].
  destruct (last_tall j A) as [b|] eqn:Hb.
  - intros [= <-]. destruct IH as (e' & ? & ? & ?); [done|].
    exists e'. split; [by right|done].
  - destruct (decide (j < e_h e)%nat); [|done].
    intros [= <-]. exists e. split; [by left|done].
Qed.

Lemma last_tall_Some_addr j A a : last_tall j A = Some a → a ∈ map e_addr A.
Proof.
  intros (e & He & <- & _)%last_tall_Some. apply list_elem_of_fmap. by exists e.
Qed.

Lemma succ_at_app j A B :
  succ_at j (A ++ B) =
  match last_tall j A with Some _ => succ_at j A | None => succ_at j B end.
Proof.
  induction A as [|e A IH]; simpl; [done|].
  destruct (decide (j < e_h e)%nat).
  - by destruct (last_tall j A).
  - rewrite IH. by destruct (last_tall j A).
Qed.

Lemma succ_at_None j A : last_tall j A = None → succ_at j A = SENTINEL.
Proof.
  induction A as [|e A IH]; simpl; [done|].
  destruct (last_tall j A); [done|].
  destruct (decide (j < e_h e)%nat); [done|]. auto.
Qed.

(** The first node of [A] taller than [j], when there is one. *)
Lemma succ_at_split j A a :
  last_tall j A = Some a →
  ∃ A1 e A2, A = A1 ++ e :: A2 ∧ last_tall j A1 = None ∧ (j < e_h e)%nat
             ∧ succ_at j A = Ptr (e_addr e).
Proof.
  revert a. induction A as [|e A IH]; simpl; [done|]. intros a Ha.
  destruct (decide (j < e_h e)%nat) as [Hlt|Hge].
  - by exists [], e, A.
  - destruct (last_tall j A) as [b|] eqn:Hb; [|done].
    destruct (IH b eq_refl) as (A1 & e' & A2 & -> & HA1 & Hlt & Hs).
    exists (e :: A1), e', A2. simpl. rewrite HA1.
    by rewrite ?decide_False by done.
Qed.

Lemma succ_at_cases j A :
  succ_at j A = SENTINEL ∨
  ∃ A1 e A2, A = A1 ++ e :: A2 ∧ (j < e_h e)%nat ∧ succ_at j A = Ptr (e_addr e).
Proof.
  destruct (last_tall j A) as [a|] eqn:Ha.
  - right. destruct (succ_at_split j A a Ha) as (A1 & e & A2 & ? & _ & ? & ?).
    by exists A1, e, A2.
  - left. by apply succ_at_None.
Qed.

Lemma chain_to_app m A B t :
  chain_to m (A ++ B) t ↔ chain_to m A (B ++ t) ∧ chain_to m B t.
Proof.
  induction A as [|e A IH]; simpl; [tauto|].
  rewrite IH, <- (assoc_L (++)). tauto.
Qed.

Lemma chain_to_node m L t e : chain_to m L t → e ∈ L → node_at m e.
Proof.
  induction L as [|e' L IH]; simpl; [by intros _ ?%elem_of_nil|].
  intros (Hn & _ & Hc) [->|Hin]%elem_of_cons; auto.
Qed.

Lemma node_at_deref m e :
  node_at m e →
  ∃ nx, deref m (Ptr (e_addr e)) = Some (mkN (e_h e) (e_key e) (e_val e) nx)
        ∧ length nx = e_h e.
Proof. intros Hn. by apply hdr_Some in Hn. Qed.

(** Nodes that an update left alone stay linked. *)
Lemma chain_to_frame m m' L t :
  (∀ e, e ∈ L → hdr m' (e_addr e) = hdr m (e_addr e)
               ∧ ∀ j, get_next m' (Ptr (e_addr e)) j = get_next m (Ptr (e_addr e)) j) →
  chain_to m L t → chain_to m' L t.
Proof.
  induction L as [|e L IH]; simpl; [done|].
  intros Hsame (Hn & Hl & Hc). destruct (Hsame e) as [Hh Hg]; [by left|].
  split; [|split].
  - unfold node_at. by rewrite Hh.
  - intros j Hj. rewrite Hg. by apply Hl.
  - apply IH; [|done]. intros e' He'. apply Hsame. by right.
Qed.

(** ** Search: [init_prevs] *)

Lemma res_node m key e :
  node_at m e →
  (if IS_SENTINEL (Ptr (e_addr e)) then Some 1
   else n ← deref m (Ptr (e_addr e)); Some (SKIPLIST_CMP (node_k n) key))
  = Some (SKIPLIST_CMP (e_key e) key).
Proof. intros (nx & Hd & _)%node_at_deref. simpl in *. by rewrite Hd. Qed.

Lemma res_succ_ge m key t j :
  chain_to m t [] →
  Forall (λ e, 0 ≤ SKIPLIST_CMP (e_key e) key) t →
  ∃ res, (if IS_SENTINEL (succ_at j t) then Some 1
          else n ← deref m (succ_at j t); Some (SKIPLIST_CMP (node_k n) key))
         = Some res ∧ 0 ≤ res.
Proof.
  intros Hc Hge. destruct (succ_at_cases j t) as [->|(A1 & e & A2 & Ht & _ & ->)].
  - exists 1. split; [done|lia].
  - assert (e ∈ t) as Hin by (rewrite Ht; set_solver).
    exists (SKIPLIST_CMP (e_key e) key). split.
    + apply res_node. by eapply chain_to_node.
    + by apply (proj1 (Forall_forall _ _) Hge).
Qed.

Lemma array_set_lt {A : Type} (arr : list A) i x :
  (i < length arr)%nat → array_set arr i x = Some (<[i := x]> arr).
Proof. intros. unfold array_set. by rewrite decide_True. Qed.

(** From a node [ce] that reaches level [lvl], with the nodes [Lb] before
    the position of [key] still ahead and none of them taller than
    [lvl + 1], the loop fills [prevs[0..lvl]] with the last node before
    the position at each level. *)
Lemma init_prevs_loop_spec m key t :
  chain_to m t [] →
  Forall (λ e, 0 ≤ SKIPLIST_CMP (e_key e) key) t →
  ∀ fuel ce Lb lvl prevs,
    chain_to m (ce :: Lb) t →
    (lvl < e_h ce)%nat →
    Forall (λ e, (e_h e ≤ S lvl)%nat) Lb →
    Forall (λ e, SKIPLIST_CMP (e_key e) key < 0) Lb →
    (lvl < length prevs)%nat →
    (length Lb + lvl < fuel)%nat →
    ∃ prevs',
      init_prevs_loop fuel m key (Ptr (e_addr ce)) lvl prevs = Some prevs'
      ∧ length prevs' = length prevs
      ∧ (∀ i, (i ≤ lvl)%nat →
              prevs' !! i = Some (Ptr (default (e_addr ce) (last_tall i Lb))))
      ∧ (∀ i, (lvl < i)%nat → prevs' !! i = prevs !! i).
Proof.
  intros Hct Hge. induction fuel as [|fuel IH]; intros ce Lb lvl prevs Hc Hlvl Hh Hlt Hlen Hfuel;
    [lia|].
  destruct Hc as (Hn & Hl & Hc). cbn [init_prevs_loop].
  rewrite (Hl lvl Hlvl); cbn [mbind option_bind]. rewrite succ_at_app.
  destruct (last_tall lvl Lb) as [a|] eqn:Hlast.
  - (* a node ahead reaches this level: advance *)
    destruct (succ_at_split lvl Lb a Hlast) as (La & e & Lb' & -> & HLa & He & ->).
    apply chain_to_app in Hc as [_ Hc].
    rewrite (res_node m key e) by apply Hc. cbn [mbind option_bind].
    apply Forall_app in Hlt as [_ Hlt]. apply Forall_app in Hh as [_ Hh].
    rewrite decide_True by (by inversion Hlt).
    rewrite length_app in Hfuel; simpl in Hfuel.
    destruct (IH e Lb' lvl prevs) as (prevs' & Hrun & Hlen' & Hlow & Hhigh);
      [done|done|by inversion Hh|by inversion Hlt|done|lia|].
    exists prevs'. repeat split; [done|done| |done].
    intros i Hi. rewrite (Hlow i Hi), last_tall_app. simpl.
    destruct (last_tall i Lb'); [done|]. by rewrite decide_True by lia.
  - (* nothing ahead reaches this level: record and descend *)
    destruct (res_succ_ge m key t lvl Hct Hge) as (res & -> & Hres).
    cbn [mbind option_bind]. rewrite decide_False by lia.
    rewrite array_set_lt by done. cbn [mbind option_bind].
    apply last_tall_None in Hlast as Hshort.
    destruct lvl as [|lvl'].
    + exists (<[0%nat := Ptr (e_addr ce)]> prevs). split; [done|].
      split; [by rewrite length_insert|]. split.
      * intros i Hi. assert (i = 0%nat) as -> by lia.
        rewrite Hlast. by apply list_lookup_insert_eq.
      * intros i Hi. apply list_lookup_insert_ne. lia.
    + destruct (IH ce Lb lvl' (<[S lvl' := Ptr (e_addr ce)]> prevs))
        as (prevs' & Hrun & Hlen' & Hlow & Hhigh).
      * by repeat split.
      * lia.
      * done.
      * done.
      * rewrite length_insert. lia.
      * lia.
      * exists prevs'. split; [done|]. split; [by rewrite Hlen', length_insert|]. split.
        -- intros i Hi. destruct (decide (i = S lvl')) as [->|Hne].
           ++ rewrite Hhigh by lia. rewrite Hlast. by apply list_lookup_insert_eq.
           ++ apply Hlow. lia.
        -- intros i Hi. rewrite Hhigh by lia. apply list_lookup_insert_ne. lia.
Qed.

Lemma prevs_of_length hd H L1 : length (prevs_of hd H L1) = H.
Proof. unfold prevs_of. by rewrite length_fmap, length_seq. Qed.

Lemma prevs_of_lookup hd H L1 i :
  (i < H)%nat → prevs_of hd H L1 !! i = Some (Ptr (default hd (last_tall i L1))).
Proof.
  intros Hi. unfold prevs_of. rewrite list_lookup_fmap, lookup_seq_lt by done. done.
Qed.

Lemma prevs_of_head hd H L1 i x :
  (i < H)%nat →
  prevs_of hd H L1 !! i = Some (Ptr x) ↔ last_tall i (head_entry hd H :: L1) = Some x.
Proof.
  intros Hi. rewrite prevs_of_lookup by done. simpl.
  destruct (last_tall i L1); simpl; [naive_solver|].
  rewrite decide_True by done. naive_solver.
Qed.

Lemma init_prevs_spec m hd H L1 L2 key fuel :
  Rep m hd H (L1 ++ L2) →
  Forall (λ e, SKIPLIST_CMP (e_key e) key < 0) L1 →
  Forall (λ e, 0 ≤ SKIPLIST_CMP (e_key e) key) L2 →
  (length L1 + H ≤ fuel)%nat →
  init_prevs fuel m key (Ptr hd) H (replicate H NULL) = Some (prevs_of hd H L1).
Proof.
  intros [Hc Hnd Hh HH] Hlt Hge Hfuel.
  change (head_entry hd H :: L1 ++ L2) with ((head_entry hd H :: L1) ++ L2) in Hc.
  apply chain_to_app in Hc as [Hc1 Hc2]. rewrite app_nil_r in Hc1.
  apply Forall_app in Hh as [Hh1 _].
  destruct (init_prevs_loop_spec m key L2 Hc2 Hge fuel (head_entry hd H) L1 (H - 1)
              (replicate H NULL)) as (prevs' & Hrun & Hlen & Hlow & _).
  - done.
  - simpl. lia.
  - eapply Forall_impl; [exact Hh1|]. simpl. intros. lia.
  - done.
  - rewrite length_replicate. lia.
  - lia.
  - unfold init_prevs. simpl in Hrun. rewrite Hrun. f_equal.
    rewrite length_replicate in Hlen.
    apply list_eq. intros i. destruct (decide (i < H)%nat) as [Hi|Hi].
    + rewrite Hlow by lia. by rewrite prevs_of_lookup.
    + rewrite !lookup_ge_None_2; [done| |lia]. rewrite prevs_of_length. lia.
Qed.

(** ** Re-linking the nodes before a position

    [m'] differs from [m] on the nodes of [A] only where, at a level
    [j < n], the last node of [A] taller than [j] now points to [q j].
    If that is what the new tail [t'] demands, [A] is linked to [t']. *)
Lemma chain_to_retarget m m' t t' (n Hmax : nat) (q : nat → ptr) A :
  NoDup (map e_addr A) →
  Forall (λ e, (e_h e ≤ Hmax)%nat) A →
  chain_to m A t →
  (∀ e, e ∈ A → hdr m' (e_addr e) = hdr m (e_addr e)) →
  (∀ x j, x ∈ map e_addr A →
          get_next m' (Ptr x) j =
          if decide ((j < n)%nat ∧ last_tall j A = Some x) then Some (q j)
          else get_next m (Ptr x) j) →
  (∀ j, (j < Hmax)%nat → (j < n)%nat → succ_at j t' = q j) →
  (∀ j, (j < Hmax)%nat → ¬ (j < n)%nat → succ_at j t' = succ_at j t) →
  chain_to m' A t'.
Proof.
  intros Hnd Hh Hc Hhdr Hget Hin Hout. induction A as [|e A IH]; simpl; [done|].
  destruct Hc as (Hn & Hl & Hc). inversion Hnd as [|? ? Hnotin Hnd']; subst.
  inversion Hh as [|? ? He Hh']; subst.
  split; [|split].
  - unfold node_at. rewrite Hhdr by (by left). done.
  - intros j Hj. rewrite Hget by (simpl; by left). rewrite succ_at_app. simpl.
    specialize (Hl j Hj). rewrite succ_at_app in Hl.
    destruct (last_tall j A) as [b|] eqn:Hb.
    + apply last_tall_Some_addr in Hb. rewrite decide_False; [done|].
      intros [_ [= ->]]. exact (Hnotin Hb).
    + destruct (decide (j < e_h e)%nat); [|lia].
      destruct (decide (j < n)%nat) as [Hjn|Hjn].
      * rewrite decide_True by done. rewrite Hin by lia. done.
      * rewrite decide_False by tauto. rewrite Hl. f_equal. symmetry. apply Hout; [lia|done].
  - apply IH; [done|done|done| |].
    + intros e' He'. apply Hhdr. by right.
    + intros x j Hx. rewrite Hget by (simpl; by right). simpl.
      destruct (last_tall j A) as [b|] eqn:Hb; [done|].
      destruct (decide (j < e_h e)%nat).
      * rewrite !decide_False; [done|by intros [_ [=]]|].
        intros [_ [= Heq]]. apply Hnotin. by rewrite Heq.
      * done.
Qed.

(** A loop whose round [i] stores [Q i] in slot [i] of node [P i]. *)
Lemma FOR_set_next (n from : nat) (P : nat → nat) (Q : nat → ptr)
    (body : nat → gmap nat skiplist_node → option (gmap nat skiplist_node)) m :
  (∀ i, (from ≤ i < from + n)%nat →
        ∃ h k v len, hdr m (P i) = Some (h, k, v, len) ∧ (i < len)%nat) →
  (∀ i m', (from ≤ i < from + n)%nat →
           (∀ x, hdr m' x = hdr m x) →
           (∀ x j, (i ≤ j)%nat → get_next m' (Ptr x) j = get_next m (Ptr x) j) →
           body i m' = set_next m' (Ptr (P i)) i (Q i)) →
  ∃ m', FOR n from body m = Some m'
        ∧ (∀ x, hdr m' x = hdr m x)
        ∧ (∀ x j, get_next m' (Ptr x) j =
                  if decide ((from ≤ j < from + n)%nat ∧ x = P j) then Some (Q j)
                  else get_next m (Ptr x) j).
Proof.
  intros Hok Hbody.
  destruct (FOR_inv
    (λ i m', (∀ x, hdr m' x = hdr m x)
             ∧ (∀ x j, get_next m' (Ptr x) j =
                       if decide ((from ≤ j < i)%nat ∧ x = P j) then Some (Q j)
                       else get_next m (Ptr x) j)) n from body m) as (m' & Hrun & Hh & Hg).
  - split; [done|]. intros x j. rewrite decide_False; [done|lia].
  - intros i m0 Hi [Hh Hg]. rewrite Hbody; [|done|done|].
    + destruct (Hok i Hi) as (h & k & v & len & Hhd & Hlen).
      destruct (set_next_spec m0 (P i) i (Q i) h k v len) as (m1 & Hset & Hh1 & Hg1);
        [by rewrite Hh|done|].
      exists m1. split; [done|]. split.
      * intros x. by rewrite Hh1.
      * intros x j. rewrite Hg1, Hg.
        destruct (decide (x = P i ∧ j = i)) as [[-> ->]|Hne].
        -- rewrite decide_True; [done|]. split; [lia|done].
        -- destruct (decide ((from ≤ j < i)%nat ∧ x = P j)) as [[? ->]|Hne'].
           ++ rewrite decide_True; [done|]. split; [lia|done].
           ++ rewrite decide_False; [done|]. intros [Hj ->].
              destruct (decide (j = i)) as [->|]; [tauto|]. apply Hne'. split; [lia|done].
    + intros x j Hj. rewrite Hg. rewrite decide_False; [done|lia].
  - by exists m'.
Qed.

Lemma DO_set_next (n : nat) (P : nat → nat) (Q : nat → ptr)
    (body : nat → gmap nat skiplist_node → option (gmap nat skiplist_node)) m :
  (∀ i, (i < n)%nat → ∃ h k v len, hdr m (P i) = Some (h, k, v, len) ∧ (i < len)%nat) →
  (∀ i m', (i < n)%nat →
           (∀ x, hdr m' x = hdr m x) →
           (∀ x j, (i ≤ j)%nat → get_next m' (Ptr x) j = get_next m (Ptr x) j) →
           body i m' = set_next m' (Ptr (P i)) i (Q i)) →
  ∃ m', DO n body m = Some m'
        ∧ (∀ x, hdr m' x = hdr m x)
        ∧ (∀ x j, get_next m' (Ptr x) j =
                  if decide ((j < n)%nat ∧ x = P j) then Some (Q j)
                  else get_next m (Ptr x) j).
Proof.
  intros Hok Hbody.
  destruct (FOR_set_next n 0 P Q body m) as (m' & Hrun & Hh & Hg).
  - intros i Hi. apply Hok. lia.
  - intros i m' Hi. apply Hbody. lia.
  - exists m'. split; [done|]. split; [done|]. intros x j. rewrite Hg.
    destruct (decide ((j < n)%nat ∧ x = P j)) as [[? ?]|Hne].
    + rewrite decide_True; [done|]. split; [lia|done].
    + rewrite decide_False; [done|]. intros [? ?]. apply Hne. split; [lia|done].
Qed.

Lemma get_next_prev m A t j x :
  chain_to m A t → last_tall j A = Some x → get_next m (Ptr x) j = Some (succ_at j t).
Proof.
  induction A as [|e A IH]; simpl; [done|]. intros (_ & Hl & Hc).
  destruct (last_tall j A) as [b|] eqn:Hb.
  - intros [= <-]. by apply IH.
  - destruct (decide (j < e_h e)%nat) as [Hj|]; [|done]. intros [= <-].
    rewrite (Hl j Hj), succ_at_app. by rewrite Hb.
Qed.

Lemma last_tall_node m A t j x :
  chain_to m A t → last_tall j A = Some x →
  ∃ h k v len, hdr m x = Some (h, k, v, len) ∧ (j < len)%nat.
Proof.
  intros Hc (e & He & <- & Hj)%last_tall_Some.
  exists (e_h e), (e_key e), (e_val e), (e_h e). split; [|done].
  by eapply chain_to_node.
Qed.

Lemma last_tall_head hd H L1 j :
  (j < H)%nat →
  last_tall j (head_entry hd H :: L1) = Some (default hd (last_tall j L1)).
Proof.
  intros Hj. simpl. destruct (last_tall j L1); [done|]. by rewrite decide_True.
Qed.

(** [chain_to_retarget] for the head followed by [L1], with the nodes
    that change given as [init_prevs] finds them. *)
Lemma retarget_prevs m m' hd H L1 t t' (n : nat) (q : nat → ptr) :
  NoDup (hd :: map e_addr L1) →
  Forall (λ e, (e_h e ≤ H)%nat) L1 →
  (n ≤ H)%nat →
  chain_to m (head_entry hd H :: L1) t →
  (∀ x, x ∈ hd :: map e_addr L1 → hdr m' x = hdr m x) →
  (∀ x j, x ∈ hd :: map e_addr L1 →
          get_next m' (Ptr x) j =
          if decide ((j < n)%nat ∧ x = default hd (last_tall j L1)) then Some (q j)
          else get_next m (Ptr x) j) →
  (∀ j, (j < n)%nat → succ_at j t' = q j) →
  (∀ j, (j < H)%nat → ¬ (j < n)%nat → succ_at j t' = succ_at j t) →
  chain_to m' (head_entry hd H :: L1) t'.
Proof.
  intros Hnd Hh Hn Hc Hhdr Hget Hin Hout.
  apply (chain_to_retarget m m' t t' n H q); try done.
  - by constructor.
  - intros e He. apply Hhdr. change (e_addr e ∈ map e_addr (head_entry hd H :: L1)).
    apply list_elem_of_fmap. by exists e.
  - intros x j Hx. rewrite Hget by done.
    destruct (decide (j < n)%nat) as [Hj|Hj].
    + rewrite last_tall_head by lia.
      destruct (decide (x = default hd (last_tall j L1))) as [->|Hne].
      * by rewrite !decide_True.
      * rewrite !decide_False; [done| |]; naive_solver.
    + rewrite !decide_False; [done| |]; tauto.
  - auto.
Qed.

Lemma chain_to_delete m L t a :
  a ∉ map e_addr L → chain_to m L t → chain_to (delete a m) L t.
Proof.
  intros Ha. apply chain_to_frame. intros e He.
  assert (e_addr e ≠ a) as Hne.
  { intros <-. apply Ha. apply list_elem_of_fmap. by exists e. }
  split.
  - rewrite hdr_delete. by rewrite decide_False.
  - intros j. rewrite get_next_delete. by rewrite decide_False.
Qed.

Lemma Rep_head_deref m hd H L :
  Rep m hd H L →
  ∃ nx, deref m (Ptr hd) = Some (mkN H vSENTINEL vSENTINEL nx) ∧ length nx = H.
Proof. intros [(Hn & _) _ _ _]. by apply node_at_deref in Hn. Qed.

(** ** Deleting one node *)

Lemma NoDup_app_remove {A : Type} (l1 l2 l3 : list A) :
  NoDup (l1 ++ l2 ++ l3) → NoDup (l1 ++ l3).
Proof.
  rewrite !NoDup_app. intros (H1 & H12 & H2 & H23 & H3).
  split; [done|]. split; [|done]. intros x Hx Hx3. apply (H12 x Hx). set_solver.
Qed.

Lemma Rep_split_addrs m hd H L1 R L2 :
  Rep m hd H (L1 ++ R ++ L2) →
  NoDup (hd :: map e_addr L1)
  ∧ NoDup (hd :: map e_addr (L1 ++ L2))
  ∧ (∀ e, e ∈ R → e_addr e ∉ hd :: map e_addr (L1 ++ L2)).
Proof.
  intros [_ Hnd _ _]. rewrite !map_app in Hnd.
  change (hd :: map e_addr L1 ++ map e_addr R ++ map e_addr L2)
    with ((hd :: map e_addr L1) ++ map e_addr R ++ map e_addr L2) in Hnd.
  split; [|split].
  - by apply NoDup_app in Hnd as [? _].
  - rewrite map_app. by apply NoDup_app_remove in Hnd.
  - intros e He Hin. rewrite map_app in Hin.
    apply NoDup_app in Hnd as (_ & Hd1 & Hnd). apply NoDup_app in Hnd as (_ & Hd2 & _).
    assert (e_addr e ∈ map e_addr R) as HeR by (apply list_elem_of_fmap; by exists e).
    change (e_addr e ∈ (hd :: map e_addr L1) ++ map e_addr L2) in Hin.
    apply elem_of_app in Hin as [Hin|Hin].
    + apply (Hd1 _ Hin). apply elem_of_app. by left.
    + by apply (Hd2 _ HeR).
Qed.

Lemma delete_one_spec {U : Type} fuel w hd H L1 d L2 key (udata : U) :
  head (sl w) = Ptr hd →
  Rep (mem w) hd H (L1 ++ d :: L2) →
  Forall (λ e, SKIPLIST_CMP (e_key e) key < 0) L1 →
  SKIPLIST_CMP (e_key d) key = 0 →
  Forall (λ e, 0 ≤ SKIPLIST_CMP (e_key e) key) L2 →
  (length L1 + H ≤ fuel)%nat →
  ∃ m', delete_one_or_all fuel w key udata None
        = Some (e_val d, udata, mkW m' (mkT (count_dec (count (sl w))) (Ptr hd)) (rng w))
        ∧ Rep m' hd H (L1 ++ L2).
Proof.
  intros Hhd HRep Hlt Heq Hge Hfuel.
  assert (Forall (λ e, 0 ≤ SKIPLIST_CMP (e_key e) key) (d :: L2)) as Hge'
    by (constructor; [lia|done]).
  destruct (Rep_head_deref _ _ _ _ HRep) as (hnx & Hdh & Hlenh).
  pose proof (init_prevs_spec _ _ _ _ _ key fuel HRep Hlt Hge' Hfuel) as Hprevs.
  destruct (Rep_split_addrs _ _ _ L1 [d] L2 HRep) as (Hnd1 & Hnd & Hfresh).
  destruct HRep as [Hc _ Hh HH].
  change (head_entry hd H :: L1 ++ d :: L2)
    with ((head_entry hd H :: L1) ++ [d] ++ L2) in Hc.
  apply chain_to_app in Hc as [Hc1 Hc2]. rewrite app_nil_r in Hc1.
  destruct Hc2 as (Hnd_d & Hl_d & Hc2). simpl in Hl_d. rewrite app_nil_r in Hl_d.
  apply Forall_app in Hh as [Hh1 Hh2]. apply Forall_cons in Hh2 as [Hhd_d Hh2'].
  unfold delete_one_or_all. rewrite Hhd, Hdh. cbn [mbind option_bind node_h].
  rewrite Hprevs. cbn [mbind option_bind].
  rewrite prevs_of_lookup by lia. cbn [mbind option_bind].
  rewrite (get_next_prev (mem w) (head_entry hd H :: L1) ([d] ++ L2) 0
             (default hd (last_tall 0 L1)) Hc1) by (apply last_tall_head; lia).
  cbn [mbind option_bind app succ_at]. rewrite decide_True by lia.
  destruct (node_at_deref _ _ Hnd_d) as (dnx & Hdd & Hlend).
  cbn [IS_SENTINEL]. rewrite Hdd. cbn [mbind option_bind node_k node_h].
  rewrite bool_decide_eq_true_2 by done. cbn [negb].
  destruct (DO_set_next (e_h d) (λ i, default hd (last_tall i L1)) (λ i, succ_at i L2)
              (λ i m, p ← prevs_of hd H L1 !! i;
                      q ← get_next m (Ptr (e_addr d)) i; set_next m p i q) (mem w))
    as (m1 & Hrun & Hh1' & Hg1).
  { intros i Hi. apply (last_tall_node (mem w) (head_entry hd H :: L1) ([d] ++ L2)); [done|].
    apply last_tall_head. lia. }
  { intros i m' Hi _ Hsame. rewrite prevs_of_lookup by lia. cbn [mbind option_bind].
    rewrite Hsame by lia. rewrite (Hl_d i Hi). done. }
  rewrite Hrun. cbn [mbind option_bind].
  assert (hdr m1 (e_addr d) = Some (e_h d, e_key d, e_val d, e_h d)) as Hd1
    by (rewrite Hh1'; exact Hnd_d).
  destruct (hdr_Some _ _ _ _ _ _ Hd1) as (dnx1 & Hdd1 & _).
  cbn [deref]. rewrite Hdd1. cbn [mbind option_bind node_v].
  rewrite (N_free_spec _ _ _ _ _ _ Hd1). cbn [mbind option_bind].
  exists (delete (e_addr d) m1). split; [done|].
  assert (e_addr d ∉ hd :: map e_addr (L1 ++ L2)) as Hdfresh by (apply Hfresh; by left).
  split; [|done|by apply Forall_app|done].
  change (head_entry hd H :: L1 ++ L2) with ((head_entry hd H :: L1) ++ L2).
  apply chain_to_app. rewrite app_nil_r. split.
  - apply (retarget_prevs (mem w) _ hd H L1 ([d] ++ L2) L2 (e_h d) (λ i, succ_at i L2)).
    + done.
    + eapply Forall_impl; [exact Hh1|]. simpl; intros; lia.
    + lia.
    + done.
    + intros x Hx. rewrite hdr_delete, decide_False; [done|].
      intros ->. apply Hdfresh. rewrite map_app. set_solver.
    + intros x j Hx. rewrite get_next_delete, decide_False; [by rewrite Hg1|].
      intros ->. apply Hdfresh. rewrite map_app. set_solver.
    + done.
    + intros j _ Hj. simpl. by rewrite decide_False.
  - apply chain_to_delete; [rewrite map_app in Hdfresh; set_solver|].
    revert Hc2. apply chain_to_frame. intros e He. split; [done|].
    intros j. rewrite Hg1. rewrite decide_False; [done|].
    intros [Hj Hx].
    assert (e_addr e ∈ hd :: map e_addr L1) as Hin1.
    { rewrite Hx. destruct (last_tall j L1) as [b|] eqn:Hb; simpl.
      - right. by eapply last_tall_Some_addr.
      - by left. }
    assert (e_addr e ∈ map e_addr L2) as Hin2 by (apply list_elem_of_fmap; by exists e).
    rewrite map_app in Hnd.
    change (NoDup ((hd :: map e_addr L1) ++ map e_addr L2)) in Hnd.
    apply NoDup_app in Hnd as (_ & Hdisj & _). by apply (Hdisj _ Hin1).
Qed.

(** ** Insertion *)

(** The splice loop of [add_or_set]: at each level [i < n] the new node
    at [a] takes over the successor [Q i] of [P i], and [P i] points to
    the new node. *)
Lemma splice_spec (n : nat) (P : nat → nat) (Q : nat → ptr) a (prevs2 : list ptr)
    m h k v len :
  (∀ i, (i < n)%nat → prevs2 !! i = Some (Ptr (P i))) →
  (∀ i, (i < n)%nat → P i ≠ a) →
  (∀ i, (i < n)%nat → get_next m (Ptr (P i)) i = Some (Q i)) →
  hdr m a = Some (h, k, v, len) → (n ≤ len)%nat →
  (∀ i, (i < n)%nat → ∃ h k v len, hdr m (P i) = Some (h, k, v, len) ∧ (i < len)%nat) →
  ∃ m', DO n (λ i m, p ← prevs2 !! i;
                     q ← get_next m p i;
                     m' ← set_next m (Ptr a) i q;
                     set_next m' p i (Ptr a)) m = Some m'
        ∧ (∀ x, hdr m' x = hdr m x)
        ∧ (∀ x j, get_next m' (Ptr x) j =
                  if decide ((j < n)%nat ∧ x = a) then Some (Q j)
                  else if decide ((j < n)%nat ∧ x = P j) then Some (Ptr a)
                  else get_next m (Ptr x) j).
Proof.
  intros Hprevs Hne Hq Ha Hlen Hok.
  destruct (DO_inv
    (λ i m', (∀ x, hdr m' x = hdr m x)
             ∧ (∀ x j, get_next m' (Ptr x) j =
                       if decide ((j < i)%nat ∧ x = a) then Some (Q j)
                       else if decide ((j < i)%nat ∧ x = P j) then Some (Ptr a)
                       else get_next m (Ptr x) j)) n
    (λ i m, p ← prevs2 !! i; q ← get_next m p i;
            m' ← set_next m (Ptr a) i q; set_next m' p i (Ptr a)) m)
    as (m' & Hrun & Hh & Hg).
  - split; [done|]. intros x j. rewrite !decide_False; [done|lia|lia].
  - intros i m0 Hi [Hh Hg]. rewrite (Hprevs i Hi). cbn [mbind option_bind].
    rewrite Hg, !decide_False by lia. rewrite (Hq i Hi). cbn [mbind option_bind].
    destruct (set_next_spec m0 a i (Q i) h k v len) as (m1 & -> & Hh1 & Hg1);
      [by rewrite Hh|lia|].
    cbn [mbind option_bind].
    destruct (Hok i Hi) as (h2 & k2 & v2 & len2 & Hhd & Hlen2).
    destruct (set_next_spec m1 (P i) i (Ptr a) h2 k2 v2 len2) as (m2 & -> & Hh2 & Hg2);
      [by rewrite Hh1, Hh|done|].
    exists m2. split; [done|]. split.
    + intros x. by rewrite Hh2, Hh1.
    + intros x j. rewrite Hg2, Hg1, Hg. specialize (Hne i Hi).
      repeat case_decide; destruct_and?; simplify_eq; try done;
        try (exfalso; lia);
        try (assert (j = i) as -> by lia);
        match goal with
        | H : ¬ (_ ∧ _) |- _ => exfalso; apply H; split; first [lia | congruence]
        end.
  - by exists m'.
Qed.

(** [malloc] returns a block that is not in use. *)
Hypothesis malloc_fresh :
  ∀ m n a, SKIPLIST_MALLOC m n = Some a → m !! a = None.

Lemma hdr_None m a : m !! a = None → hdr m a = None.
Proof. unfold hdr. by intros ->. Qed.

Lemma N_alloc_Some m height key value a :
  SKIPLIST_MALLOC m height = Some a →
  N_alloc m height key value
  = (Ptr a, <[a := mkN height key value (replicate height SENTINEL)]> m).
Proof. intros Ha. unfold N_alloc. by rewrite Ha. Qed.

Lemma N_alloc_None m height key value :
  SKIPLIST_MALLOC m height = None → N_alloc m height key value = (NULL, m).
Proof. intros Ha. unfold N_alloc. by rewrite Ha. Qed.

Lemma grow_head_fail m s nn hd H hk hv a h' k v :
  head s = Ptr hd → nn = Ptr a →
  hdr m hd = Some (H, hk, hv, H) →
  hdr m a = Some (h', k, v, h') →
  SKIPLIST_MALLOC m h' = None →
  grow_head m s nn = Some (-1, s, m).
Proof.
  intros Hs -> (hnx & Hhd & _)%hdr_Some (anx & Ha & _)%hdr_Some Hm.
  unfold grow_head. rewrite Hs. cbn [deref]. rewrite Hhd, Ha. cbn [mbind option_bind node_h].
  by rewrite N_alloc_None.
Qed.

Lemma grow_head_spec m s hd H hk hv a h' k v b :
  head s = Ptr hd →
  hdr m hd = Some (H, hk, hv, H) →
  hdr m a = Some (h', k, v, h') →
  (H ≤ h')%nat →
  SKIPLIST_MALLOC m h' = Some b →
  ∃ m', grow_head m s (Ptr a) = Some (0, mkT (count s) (Ptr b), m')
        ∧ b ≠ hd ∧ b ≠ a
        ∧ hdr m' b = Some (h', vSENTINEL, vSENTINEL, h')
        ∧ (∀ x, x ≠ b → x ≠ hd → hdr m' x = hdr m x)
        ∧ (∀ j, (j < h')%nat →
                get_next m' (Ptr b) j =
                if decide (j < H)%nat then get_next m (Ptr hd) j else Some (Ptr a))
        ∧ (∀ x j, x ≠ b → x ≠ hd → get_next m' (Ptr x) j = get_next m (Ptr x) j).
Proof.
  intros Hs Hhd Ha HH Hb. pose proof (malloc_fresh _ _ _ Hb) as Hfresh.
  assert (b ≠ hd) as Hbhd by (intros ->; apply hdr_None in Hfresh; congruence).
  assert (b ≠ a) as Hba by (intros ->; apply hdr_None in Hfresh; congruence).
  destruct (hdr_Some _ _ _ _ _ _ Hhd) as (hnx & Hmhd & Hlenh).
  destruct (hdr_Some _ _ _ _ _ _ Ha) as (anx & Hma & _).
  unfold grow_head. rewrite Hs. cbn [deref]. rewrite Hmhd, Hma.
  cbn [mbind option_bind node_h]. rewrite (N_alloc_Some _ _ _ _ _ Hb).
  set (m1 := <[b := mkN h' vSENTINEL vSENTINEL (replicate h' SENTINEL)]> m).
  assert (∀ x, hdr m1 x = if decide (x = b) then Some (h', vSENTINEL, vSENTINEL, h')
                          else hdr m x) as Hh1.
  { intros x. unfold m1. rewrite hdr_insert. simpl. by rewrite length_replicate. }
  assert (∀ x j, x ≠ b → get_next m1 (Ptr x) j = get_next m (Ptr x) j) as Hg1.
  { intros x j Hx. unfold m1. rewrite get_next_insert. by rewrite decide_False. }
  destruct (DO_set_next H (λ _, b) (λ i, default SENTINEL (get_next m (Ptr hd) i))
              (λ i m0, q ← get_next m0 (Ptr hd) i; set_next m0 (Ptr b) i q) m1)
    as (m2 & Hrun2 & Hh2 & Hg2).
  { intros i Hi. exists h', vSENTINEL, vSENTINEL, h'. rewrite Hh1, decide_True by done.
    split; [done|lia]. }
  { intros i m0 Hi _ Hsame. rewrite Hsame, Hg1 by done.
    destruct (get_next_lt m hd _ _ _ _ i Hhd Hi) as [q ->]. done. }
  rewrite Hrun2. cbn [mbind option_bind].
  assert (hdr m2 b = Some (h', vSENTINEL, vSENTINEL, h')) as Hb2
    by (rewrite Hh2, Hh1; by rewrite decide_True).
  destruct (hdr_Some _ _ _ _ _ _ Hb2) as (bnx & Hmb2 & _).
  cbn [deref]. rewrite Hmb2. cbn [mbind option_bind node_h].
  destruct (FOR_set_next (h' - H) H (λ _, b) (λ _, Ptr a)
              (λ i m0, set_next m0 (Ptr b) i (Ptr a)) m2)
    as (m3 & Hrun3 & Hh3 & Hg3).
  { intros i Hi. exists h', vSENTINEL, vSENTINEL, h'. split; [done|lia]. }
  { done. }
  rewrite Hrun3. cbn [mbind option_bind].
  assert (hdr m3 hd = Some (H, hk, hv, H)) as Hhd3.
  { rewrite Hh3, Hh2, Hh1. by rewrite decide_False. }
  rewrite (N_free_spec _ _ _ _ _ _ Hhd3). cbn [mbind option_bind].
  exists (delete hd m3). split; [done|]. split; [done|]. split; [done|].
  split; [|split; [|split]].
  - rewrite hdr_delete, decide_False by done. by rewrite Hh3.
  - intros x Hxb Hxhd. rewrite hdr_delete, decide_False by done.
    rewrite Hh3, Hh2, Hh1. by rewrite decide_False.
  - intros j Hj. rewrite get_next_delete, decide_False by done. rewrite Hg3, Hg2.
    destruct (decide (j < H)%nat) as [HjH|HjH].
    + rewrite decide_False by lia. rewrite decide_True by done.
      destruct (get_next_lt m hd _ _ _ _ j Hhd HjH) as [q ->]. done.
    + rewrite decide_True; [done|]. split; [lia|done].
  - intros x j Hxb Hxhd. rewrite get_next_delete, decide_False by done.
    rewrite Hg3, Hg2. rewrite !decide_False by naive_solver. by apply Hg1.
Qed.

(** After the head has moved to [b], the predecessors that were the old
    head are the new one. *)
Lemma repoint_prevs hd b H L1 :
  hd ∉ map e_addr L1 →
  DO H (λ i pv, p ← pv !! i;
                if decide (p = Ptr hd) then array_set pv i (Ptr b) else Some pv)
     (prevs_of hd H L1)
  = Some (prevs_of b H L1).
Proof.
  intros Hhd.
  destruct (DO_inv
    (λ i (pv : list ptr),
       length pv = H
       ∧ ∀ j, pv !! j = if decide (j < i)%nat then prevs_of b H L1 !! j
                        else prevs_of hd H L1 !! j) H
    (λ i pv, p ← pv !! i;
             if decide (p = Ptr hd) then array_set pv i (Ptr b) else Some pv)
    (prevs_of hd H L1)) as (pv & Hrun & Hlen & Hpv).
  - split; [apply prevs_of_length|]. intros j. by rewrite decide_False by lia.
  - intros i pv Hi [Hlen Hpv]. rewrite Hpv, decide_False by lia.
    rewrite prevs_of_lookup by done. cbn [mbind option_bind].
    destruct (last_tall i L1) as [x|] eqn:Hx; cbn [default from_option id].
    + assert (x ≠ hd) as Hne by (intros ->; by apply last_tall_Some_addr in Hx).
      rewrite decide_False by congruence.
      exists pv. split; [done|]. split; [done|]. intros j. rewrite Hpv.
      destruct (decide (j = i)) as [->|Hji].
      * rewrite decide_False by lia. rewrite decide_True by lia.
        rewrite !prevs_of_lookup by done. by rewrite Hx.
      * destruct (decide (j < i)%nat).
        -- by rewrite decide_True by lia.
        -- by rewrite decide_False by lia.
    + rewrite decide_True by done. rewrite array_set_lt by lia.
      eexists. split; [done|]. split; [by rewrite length_insert|]. intros j.
      destruct (decide (j = i)) as [->|Hji].
      * rewrite list_lookup_insert_eq by lia. rewrite decide_True by lia.
        rewrite prevs_of_lookup by done. by rewrite Hx.
      * rewrite list_lookup_insert_ne by done. rewrite Hpv.
        destruct (decide (j < i)%nat).
        -- by rewrite decide_True by lia.
        -- by rewrite decide_False by lia.
  - rewrite Hrun. f_equal. apply list_eq. intros j. rewrite Hpv.
    destruct (decide (j < H)%nat); [done|].
    rewrite !lookup_ge_None_2; [done| |]; rewrite prevs_of_length; lia.
Qed.

Lemma Rep_live m hd H L x :
  Rep m hd H L → x ∈ hd :: map e_addr L → is_Some (hdr m x).
Proof.
  intros [Hc _ _ _] Hx.
  change (x ∈ map e_addr (head_entry hd H :: L)) in Hx.
  apply list_elem_of_fmap in Hx as (e & -> & He).
  eexists. by eapply chain_to_node.
Qed.

Lemma Rep_fresh m hd H L a :
  Rep m hd H L → m !! a = None → a ∉ hd :: map e_addr L.
Proof.
  intros HRep Ha Hin. destruct (Rep_live _ _ _ _ _ HRep Hin) as [? Hs].
  apply hdr_None in Ha. congruence.
Qed.

Lemma last_tall_default_iff c L1 j x :
  c ∉ map e_addr L1 → x ≠ c →
  x = default c (last_tall j L1) ↔ last_tall j L1 = Some x.
Proof.
  intros Hc Hx. destruct (last_tall j L1) as [y|] eqn:Hy; simpl; naive_solver.
Qed.

Lemma last_tall_lt j L H x :
  Forall (λ e, (e_h e ≤ H)%nat) L → last_tall j L = Some x → (j < H)%nat.
Proof.
  intros HF (e & He & _ & Hj)%last_tall_Some.
  pose proof (proj1 (Forall_forall _ _) HF e He) as Hle. simpl in Hle. lia.
Qed.

Lemma NoDup_insert_middle {A : Type} (l1 l2 : list A) x :
  NoDup (l1 ++ l2) → x ∉ l1 ++ l2 → NoDup (l1 ++ x :: l2).
Proof.
  rewrite !NoDup_app. intros (H1 & H12 & H2) Hx. split; [done|]. split.
  - intros y Hy [->|Hy2]%elem_of_cons; [|by apply (H12 y)].
    apply Hx. apply elem_of_app. by left.
  - constructor; [|done]. intros Hx2. apply Hx. apply elem_of_app. by right.
Qed.

(** The nodes [L1 ++ L2] with the new node [nn] linked in between. *)
Lemma chain_link m m1 L1 L2 nn (H n : nat) :
  chain_to m L1 L2 → chain_to m L2 [] →
  NoDup (map e_addr (L1 ++ L2)) →
  Forall (λ e, (e_h e ≤ H)%nat) L1 →
  n = (e_h nn `min` H)%nat →
  node_at m1 nn → links m1 nn L2 →
  (∀ x, x ∈ map e_addr (L1 ++ L2) → hdr m1 x = hdr m x) →
  (∀ x j, x ∈ map e_addr (L1 ++ L2) →
          get_next m1 (Ptr x) j =
          if decide ((j < n)%nat ∧ last_tall j L1 = Some x) then Some (Ptr (e_addr nn))
          else get_next m (Ptr x) j) →
  chain_to m1 (L1 ++ nn :: L2) [].
Proof.
  intros Hc1 Hc2 Hnd Hh -> Hnn Hlnn Hhdr Hget.
  rewrite map_app in Hnd. apply NoDup_app in Hnd as (Hnd1 & Hdisj & Hnd2).
  apply chain_to_app. rewrite app_nil_r. split; [|split; [done|split]].
  - apply (chain_to_retarget m m1 L2 (nn :: L2) (e_h nn `min` H) H
             (λ _, Ptr (e_addr nn))); try done.
    + intros e He. apply Hhdr. rewrite map_app. apply elem_of_app. left.
      apply list_elem_of_fmap. by exists e.
    + intros x j Hx. apply Hget. rewrite map_app. apply elem_of_app. by left.
    + intros j _ Hj. simpl. rewrite decide_True; [done|lia].
    + intros j Hj1 Hj2. simpl. rewrite decide_False; [done|lia].
  - by rewrite app_nil_r.
  - revert Hc2. apply chain_to_frame. intros e He.
    assert (e_addr e ∈ map e_addr L2) as Hin2 by (apply list_elem_of_fmap; by exists e).
    split.
    + apply Hhdr. rewrite map_app. apply elem_of_app. by right.
    + intros j. rewrite Hget by (rewrite map_app; apply elem_of_app; by right).
      rewrite decide_False; [done|]. intros [_ Hx%last_tall_Some_addr].
      by apply (Hdisj _ Hx).
Qed.

(** A new node no taller than the head. *)
Lemma add_new_node_low w hd H L1 L2 key value old' h' g' a :
  head (sl w) = Ptr hd →
  Rep (mem w) hd H (L1 ++ L2) →
  SKIPLIST_GEN_HEIGHT (rng w) = (h', g') →
  (1 ≤ h' ≤ H)%nat →
  SKIPLIST_MALLOC (mem w) h' = Some a →
  ∃ m', add_or_set_new_node w (Ptr hd) H (prevs_of hd H L1) key value old'
        = Some (0, old', mkW m' (mkT (count_inc (count (sl w))) (Ptr hd)) g')
        ∧ Rep m' hd H (L1 ++ mkE a key value h' :: L2).
Proof.
  intros Hhd HRep Hgen Hh' Ha.
  pose proof (malloc_fresh _ _ _ Ha) as Hfresh.
  pose proof (Rep_fresh _ _ _ _ _ HRep Hfresh) as Hafresh.
  pose proof HRep as [Hc Hnd Hh HH].
  change (head_entry hd H :: L1 ++ L2) with ((head_entry hd H :: L1) ++ L2) in Hc.
  apply chain_to_app in Hc as [Hc1 Hc2]. rewrite app_nil_r in Hc1.
  pose proof Hc1 as (Hnhd & Hlhd & Hc1').
  apply Forall_app in Hh as [Hh1 Hh2].
  assert (Forall (λ e, (e_h e ≤ H)%nat) L1) as Hh1'
    by (eapply Forall_impl; [exact Hh1|]; simpl; intros; lia).
  set (nn := mkE a key value h').
  set (m0 := <[a := mkN h' key value (replicate h' SENTINEL)]> (mem w)).
  assert (∀ x, x ≠ a → hdr m0 x = hdr (mem w) x) as Hh0.
  { intros x Hx. unfold m0. rewrite hdr_insert. by rewrite decide_False. }
  assert (∀ x j, x ≠ a → get_next m0 (Ptr x) j = get_next (mem w) (Ptr x) j) as Hg0.
  { intros x j Hx. unfold m0. rewrite get_next_insert. by rewrite decide_False. }
  assert (hdr m0 a = Some (h', key, value, h')) as Ha0.
  { unfold m0. rewrite hdr_insert, decide_True by done. simpl.
    by rewrite length_replicate. }
  assert (∀ i, (i < H)%nat → default hd (last_tall i L1) ≠ a) as HPa.
  { intros i Hi Heq. apply Hafresh. rewrite <- Heq, map_app.
    destruct (last_tall i L1) as [x|] eqn:Hx; simpl; [|by left].
    right. apply elem_of_app. left. by eapply last_tall_Some_addr. }
  unfold add_or_set_new_node. rewrite Hgen, (N_alloc_Some _ _ _ _ _ Ha).
  fold m0. rewrite decide_False by lia. cbn [mbind option_bind deref].
  destruct (hdr_Some _ _ _ _ _ _ Ha0) as (anx & Hma0 & Hlena).
  rewrite Hma0. cbn [mbind option_bind node_h].
  replace (if decide (h' < H)%nat then h' else H) with h'
    by (destruct (decide (h' < H)%nat); lia).
  destruct (splice_spec h' (λ i, default hd (last_tall i L1)) (λ i, succ_at i L2) a
              (prevs_of hd H L1) m0 h' key value h') as (m1 & Hrun & Hh1m & Hg1m).
  { intros i Hi. apply prevs_of_lookup. lia. }
  { intros i Hi. apply HPa. lia. }
  { intros i Hi. rewrite Hg0 by (apply HPa; lia).
    apply (get_next_prev (mem w) (head_entry hd H :: L1)); [done|].
    apply last_tall_head. lia. }
  { done. }
  { done. }
  { intros i Hi. rewrite Hh0 by (apply HPa; lia).
    apply (last_tall_node (mem w) (head_entry hd H :: L1) L2); [done|].
    apply last_tall_head. lia. }
  rewrite Hrun. cbn [mbind option_bind]. rewrite Hhd. exists m1. split; [done|].
  assert (∀ x, x ∈ hd :: map e_addr (L1 ++ L2) → x ≠ a) as Hne.
  { intros x Hx ->. done. }
  assert (hd ∉ map e_addr (L1 ++ L2)) as Hhdnot by (by inversion Hnd).
  split.
  - change (head_entry hd H :: L1 ++ nn :: L2)
      with ([head_entry hd H] ++ (L1 ++ nn :: L2)).
    apply chain_to_app. split.
    + split; [|split; [|done]].
      * unfold node_at. simpl. rewrite Hh1m, Hh0; [exact Hnhd|]. apply Hne. by left.
      * intros j Hj. simpl in Hj. cbn [e_addr head_entry]. rewrite Hg1m.
        rewrite decide_False by (intros [_ ->]; apply Hafresh; by left).
        rewrite Hg0 by (apply Hne; by left). rewrite app_nil_r.
        specialize (Hlhd j Hj). cbn [e_addr head_entry] in Hlhd. rewrite Hlhd.
        rewrite !succ_at_app. simpl.
        destruct (last_tall j L1) as [x|] eqn:Hx; simpl.
        -- rewrite decide_False; [done|]. intros [_ ->].
           apply Hhdnot. rewrite map_app. apply elem_of_app. left.
           by eapply last_tall_Some_addr.
        -- destruct (decide (j < h')%nat).
           ++ by rewrite decide_True.
           ++ rewrite decide_False; [done|]. tauto.
    + apply (chain_link (mem w) m1 L1 L2 nn H h'); try done.
      * by inversion Hnd.
      * simpl. lia.
      * unfold node_at. by rewrite Hh1m.
      * intros j Hj. simpl in Hj. rewrite Hg1m. by rewrite decide_True.
      * intros x Hx. rewrite Hh1m. apply Hh0, Hne. by right.
      * intros x j Hx. rewrite Hg1m.
        assert (x ≠ a) as Hxa by (apply Hne; by right).
        rewrite decide_False by tauto. rewrite Hg0 by done.
        destruct (decide (j < h')%nat) as [Hj|Hj]; [|by rewrite !decide_False by tauto].
        destruct (decide (x = default hd (last_tall j L1))) as [Heq|Hneq].
        -- rewrite !decide_True; [done| |done]. split; [done|].
           apply (last_tall_default_iff hd); [|by intros ->|done].
           intros Hin. apply Hhdnot. rewrite map_app. apply elem_of_app. by left.
        -- rewrite !decide_False; [done| |tauto]. intros [_ Hs]. apply Hneq.
           by rewrite Hs.
  - rewrite map_app. simpl map.
    change (hd :: map e_addr L1 ++ a :: map e_addr L2)
      with ((hd :: map e_addr L1) ++ a :: map e_addr L2).
    apply NoDup_insert_middle.
    + rewrite map_app in Hnd. done.
    + rewrite map_app in Hafresh. done.
  - apply Forall_app. split; [done|]. constructor; [simpl; lia|done].
  - done.
Qed.

(** A new node taller than the head: the head is replaced. *)
Lemma add_new_node_grow w hd H L1 L2 key value old' h' g' a b :
  head (sl w) = Ptr hd →
  Rep (mem w) hd H (L1 ++ L2) →
  SKIPLIST_GEN_HEIGHT (rng w) = (h', g') →
  (H < h')%nat →
  SKIPLIST_MALLOC (mem w) h' = Some a →
  SKIPLIST_MALLOC (<[a := mkN h' key value (replicate h' SENTINEL)]> (mem w)) h'
  = Some b →
  ∃ m', add_or_set_new_node w (Ptr hd) H (prevs_of hd H L1) key value old'
        = Some (0, old', mkW m' (mkT (count_inc (count (sl w))) (Ptr b)) g')
        ∧ Rep m' b h' (L1 ++ mkE a key value h' :: L2).
Proof.
  intros Hhd HRep Hgen Hh' Ha Hb.
  pose proof (malloc_fresh _ _ _ Ha) as Hfresh.
  pose proof (Rep_fresh _ _ _ _ _ HRep Hfresh) as Hafresh.
  pose proof HRep as [Hc Hnd Hh HH].
  change (head_entry hd H :: L1 ++ L2) with ((head_entry hd H :: L1) ++ L2) in Hc.
  apply chain_to_app in Hc as [Hc1 Hc2]. rewrite app_nil_r in Hc1.
  pose proof Hc1 as (Hnhd & Hlhd & Hc1').
  apply Forall_app in Hh as [Hh1 Hh2].
  assert (Forall (λ e, (e_h e ≤ H)%nat) L1) as Hh1'
    by (eapply Forall_impl; [exact Hh1|]; simpl; intros; lia).
  assert (Forall (λ e, (e_h e ≤ H)%nat) L2) as Hh2'
    by (eapply Forall_impl; [exact Hh2|]; simpl; intros; lia).
  set (nn := mkE a key value h').
  set (m0 := <[a := mkN h' key value (replicate h' SENTINEL)]> (mem w)) in *.
  assert (∀ x, x ≠ a → hdr m0 x = hdr (mem w) x) as Hh0.
  { intros x Hx. unfold m0. rewrite hdr_insert. by rewrite decide_False. }
  assert (∀ x j, x ≠ a → get_next m0 (Ptr x) j = get_next (mem w) (Ptr x) j) as Hg0.
  { intros x j Hx. unfold m0. rewrite get_next_insert. by rewrite decide_False. }
  assert (hdr m0 a = Some (h', key, value, h')) as Ha0.
  { unfold m0. rewrite hdr_insert, decide_True by done. simpl.
    by rewrite length_replicate. }
  assert (∀ j, get_next m0 (Ptr a) j = replicate h' SENTINEL !! j) as Hga0.
  { intros j. unfold m0. rewrite get_next_insert. by rewrite decide_True. }
  assert (∀ x, x ∈ hd :: map e_addr (L1 ++ L2) → x ≠ a) as Hne.
  { intros x Hx ->. done. }
  assert (hd ∉ map e_addr (L1 ++ L2)) as Hhdnot by (by inversion Hnd).
  assert (hdr m0 hd = Some (H, vSENTINEL, vSENTINEL, H)) as Hhd0.
  { rewrite Hh0; [exact Hnhd|]. apply Hne. by left. }
  destruct (grow_head_spec m0 (sl w) hd H vSENTINEL vSENTINEL a h' key value b
              Hhd Hhd0 Ha0 ltac:(lia) Hb)
    as (m2 & Hgrow & Hbhd & Hba & Hhb2 & Hh2m & Hgb2 & Hg2m).
  assert (∀ x, x ∈ map e_addr (L1 ++ L2) → x ≠ b) as Hnb.
  { intros x Hx ->. pose proof (malloc_fresh _ _ _ Hb) as Hbf.
    destruct (Rep_live _ _ _ _ b HRep) as [? Hs]; [by right|].
    apply hdr_None in Hbf. rewrite Hh0 in Hbf by done. congruence. }
  assert (∀ i, default b (last_tall i L1) ≠ a) as HPa.
  { intros i Heq. destruct (last_tall i L1) as [x|] eqn:Hx; simpl in Heq; [|done].
    apply (Hne x); [|done]. right. rewrite map_app. apply elem_of_app. left.
    by eapply last_tall_Some_addr. }
  assert (∀ x, x ∈ map e_addr L1 → x ∈ map e_addr (L1 ++ L2)) as HinL1.
  { intros x Hx. rewrite map_app. apply elem_of_app. by left. }
  unfold add_or_set_new_node. rewrite Hgen, (N_alloc_Some _ _ _ _ _ Ha).
  fold m0. rewrite decide_True by lia.
  rewrite Hgrow. cbn [mbind option_bind]. rewrite decide_False by lia.
  cbn [head]. rewrite repoint_prevs by (intros Hin; apply Hhdnot; by apply HinL1).
  cbn [mbind option_bind deref].
  assert (hdr m2 a = Some (h', key, value, h')) as Ha2.
  { rewrite Hh2m; [done|done|]. intros ->. apply Hafresh. by left. }
  destruct (hdr_Some _ _ _ _ _ _ Ha2) as (anx & Hma2 & Hlena).
  rewrite Hma2. cbn [mbind option_bind node_h].
  rewrite decide_False by lia.
  assert (∀ i x, last_tall i L1 = Some x →
                 get_next m2 (Ptr x) i = Some (succ_at i L2)
                 ∧ ∃ h k v len, hdr m2 x = Some (h, k, v, len) ∧ (i < len)%nat) as HL1.
  { intros i x Hx. pose proof (last_tall_Some_addr _ _ _ Hx) as Hin.
    assert (x ≠ a) as Hxa by (apply Hne; right; by apply HinL1).
    assert (x ≠ b) as Hxb by (apply Hnb; by apply HinL1).
    assert (x ≠ hd) as Hxhd by (intros ->; apply Hhdnot; by apply HinL1).
    split.
    - rewrite Hg2m, Hg0 by done. by apply (get_next_prev (mem w) L1).
    - rewrite Hh2m, Hh0 by done. by apply (last_tall_node (mem w) L1 L2). }
  destruct (splice_spec H (λ i, default b (last_tall i L1)) (λ i, succ_at i L2) a
              (prevs_of b H L1) m2 h' key value h') as (m3 & Hrun & Hh3m & Hg3m).
  { intros i Hi. by apply prevs_of_lookup. }
  { intros i Hi. apply HPa. }
  { intros i Hi. destruct (last_tall i L1) as [x|] eqn:Hx; simpl.
    - by apply HL1.
    - rewrite Hgb2 by lia. rewrite decide_True by done.
      rewrite Hg0 by (apply Hne; by left).
      specialize (Hlhd i Hi). cbn [e_addr head_entry] in Hlhd.
      rewrite Hlhd, succ_at_app. by rewrite Hx. }
  { done. }
  { lia. }
  { intros i Hi. destruct (last_tall i L1) as [x|] eqn:Hx; simpl.
    - by apply HL1.
    - exists h', vSENTINEL, vSENTINEL, h'. split; [done|lia]. }
  rewrite Hrun. cbn [mbind option_bind]. exists m3. split; [done|].
  split.
  - change (head_entry b h' :: L1 ++ nn :: L2)
      with ([head_entry b h'] ++ (L1 ++ nn :: L2)).
    apply chain_to_app. split.
    + split; [|split; [|done]].
      * unfold node_at. simpl. by rewrite Hh3m.
      * intros j Hj. simpl in Hj. cbn [e_addr head_entry]. rewrite Hg3m.
        rewrite decide_False by (intros [_ ->]; done).
        rewrite app_nil_r. cbn [app]. rewrite succ_at_app. simpl.
        destruct (last_tall j L1) as [x|] eqn:Hx; simpl.
        -- pose proof (last_tall_lt _ _ _ _ Hh1' Hx) as HjH.
           rewrite decide_False.
           ++ rewrite Hgb2 by done. rewrite decide_True by done.
              rewrite Hg0 by (apply Hne; by left).
              specialize (Hlhd j HjH). cbn [e_addr head_entry] in Hlhd.
              rewrite Hlhd, succ_at_app. by rewrite Hx.
           ++ intros [_ ->]. apply (Hnb x); [|done]. apply HinL1.
              by eapply last_tall_Some_addr.
        -- rewrite (decide_True (P := (j < h')%nat)) by done.
           destruct (decide (j < H)%nat).
           ++ by rewrite decide_True.
           ++ rewrite decide_False by tauto. rewrite Hgb2 by done.
              by rewrite decide_False.
    + apply (chain_link (mem w) m3 L1 L2 nn H H); try done.
      * by inversion Hnd.
      * simpl. lia.
      * unfold node_at. by rewrite Hh3m.
      * intros j Hj. simpl in Hj. cbn [e_addr nn]. rewrite Hg3m.
        destruct (decide (j < H)%nat) as [HjH|HjH].
        -- by rewrite decide_True.
        -- rewrite !decide_False by tauto.
           rewrite Hg2m; [|done|intros ->; apply Hafresh; by left].
           rewrite Hga0, lookup_replicate_2 by done. f_equal. symmetry.
           apply succ_at_None, last_tall_None.
           eapply Forall_impl; [exact Hh2'|]. simpl. intros. lia.
      * intros x Hx. rewrite Hh3m, Hh2m, Hh0; [done| | |].
        -- apply Hne. by right.
        -- by apply Hnb.
        -- intros ->. done.
      * intros x j Hx. rewrite Hg3m.
        assert (x ≠ a) as Hxa by (apply Hne; by right).
        assert (x ≠ b) as Hxb by (by apply Hnb).
        assert (x ≠ hd) as Hxhd by (intros ->; done).
        rewrite decide_False by tauto. rewrite Hg2m, Hg0 by done.
        destruct (decide (j < H)%nat) as [Hj|Hj]; [|by rewrite !decide_False by tauto].
        destruct (decide (x = default b (last_tall j L1))) as [Heq|Hneq].
        -- rewrite !decide_True; [done| |done]. split; [done|].
           apply (last_tall_default_iff b); [|done|done].
           intros Hin. by apply (Hnb b); [apply HinL1|].
        -- rewrite !decide_False; [done| |tauto]. intros [_ Hs]. apply Hneq.
           by rewrite Hs.
  - constructor.
    + intros Hin. rewrite map_app in Hin. simpl in Hin.
      apply elem_of_app in Hin as [Hin|[Hin|Hin]%elem_of_cons].
      * by apply (Hnb b); [apply HinL1|].
      * done.
      * apply (Hnb b); [|done]. rewrite map_app. apply elem_of_app. by right.
    + rewrite map_app. simpl map. apply NoDup_insert_middle.
      * rewrite <- map_app. by inversion Hnd.
      * rewrite <- map_app. intros Hin. apply Hafresh. by right.
  - apply Forall_app. split; [|constructor].
    + eapply Forall_impl; [exact Hh1|]. simpl; intros; lia.
    + simpl. lia.
    + eapply Forall_impl; [exact Hh2|]. simpl; intros; lia.
  - lia.
Qed.

Lemma chain_to_tail_eq m L t t' :
  (∀ j, succ_at j t = succ_at j t') → chain_to m L t → chain_to m L t'.
Proof.
  intros Heq. induction L as [|e L IH]; simpl; [done|].
  intros (Hn & Hl & Hc). split; [done|]. split; [|by apply IH].
  intros j Hj. rewrite (Hl j Hj). f_equal. rewrite !succ_at_app.
  by destruct (last_tall j L).
Qed.

(** The first half of [add_or_set] when the key is not replaced. *)
Lemma add_or_set_not_found fuel w hd H L1 L2 tr key value old :
  head (sl w) = Ptr hd →
  Rep (mem w) hd H (L1 ++ L2) →
  Forall (λ e, SKIPLIST_CMP (e_key e) key < 0) L1 →
  Forall (λ e, 0 ≤ SKIPLIST_CMP (e_key e) key) L2 →
  (tr = true → match L2 with
               | [] => True
               | e :: _ => SKIPLIST_CMP (e_key e) key ≠ 0
               end) →
  (length L1 + H ≤ fuel)%nat →
  add_or_set fuel w tr key value old
  = add_or_set_new_node w (Ptr hd) H (prevs_of hd H L1) key value
      (old_if_absent tr L2 old).
Proof.
  intros Hhd HRep Hlt Hge Htr Hfuel.
  destruct (Rep_head_deref _ _ _ _ HRep) as (hnx & Hdh & Hlenh).
  pose proof (init_prevs_spec _ _ _ _ _ key fuel HRep Hlt Hge Hfuel) as Hprevs.
  destruct HRep as [Hc _ Hh HH].
  change (head_entry hd H :: L1 ++ L2) with ((head_entry hd H :: L1) ++ L2) in Hc.
  apply chain_to_app in Hc as [Hc1 Hc2]. rewrite app_nil_r in Hc1.
  unfold add_or_set. rewrite Hhd, Hdh. cbn [mbind option_bind node_h].
  rewrite Hprevs. cbn [mbind option_bind].
  destruct tr; [|done]. cbn [old_if_absent].
  rewrite prevs_of_lookup by lia. cbn [mbind option_bind].
  rewrite (get_next_prev (mem w) (head_entry hd H :: L1) L2 0
             (default hd (last_tall 0 L1)) Hc1) by (apply last_tall_head; lia).
  cbn [mbind option_bind]. destruct L2 as [|e L2]; [done|].
  apply Forall_app in Hh as [_ Hh2]. apply Forall_cons in Hh2 as [He _].
  cbn [succ_at]. rewrite decide_True by lia. cbn [IS_SENTINEL].
  destruct Hc2 as (Hne & _). destruct (node_at_deref _ _ Hne) as (enx & -> & _).
  cbn [mbind option_bind node_k]. rewrite decide_False by auto. done.
Qed.

(** [skiplist_set] on a key that is present: the value of the first node
    with that key is overwritten in place. *)
Lemma set_replace_spec fuel w hd H L1 e L2 key value old :
  head (sl w) = Ptr hd →
  Rep (mem w) hd H (L1 ++ e :: L2) →
  Forall (λ e, SKIPLIST_CMP (e_key e) key < 0) L1 →
  SKIPLIST_CMP (e_key e) key = 0 →
  Forall (λ e, 0 ≤ SKIPLIST_CMP (e_key e) key) L2 →
  (length L1 + H ≤ fuel)%nat →
  ∃ nx, mem w !! e_addr e = Some (mkN (e_h e) (e_key e) (e_val e) nx)
        ∧ add_or_set fuel w true key value old
          = Some (0, out_write old (e_val e),
                  mkW (<[e_addr e := mkN (e_h e) (e_key e) value nx]> (mem w))
                      (sl w) (rng w))
        ∧ Rep (<[e_addr e := mkN (e_h e) (e_key e) value nx]> (mem w)) hd H
              (L1 ++ mkE (e_addr e) (e_key e) value (e_h e) :: L2).
Proof.
  intros Hhd HRep Hlt Heq Hge Hfuel.
  assert (Forall (λ e, 0 ≤ SKIPLIST_CMP (e_key e) key) (e :: L2)) as Hge'
    by (constructor; [lia|done]).
  destruct (Rep_head_deref _ _ _ _ HRep) as (hnx & Hdh & Hlenh).
  pose proof (init_prevs_spec _ _ _ _ _ key fuel HRep Hlt Hge' Hfuel) as Hprevs.
  destruct (Rep_split_addrs _ _ _ L1 [e] L2 HRep) as (_ & _ & Hfresh).
  destruct HRep as [Hc Hnd Hh HH].
  change (head_entry hd H :: L1 ++ e :: L2)
    with ((head_entry hd H :: L1) ++ [e] ++ L2) in Hc.
  apply chain_to_app in Hc as [Hc1 Hc2]. rewrite app_nil_r in Hc1.
  destruct Hc2 as (Hne & Hle & Hc2). simpl in Hle. rewrite app_nil_r in Hle.
  pose proof Hh as Hh'. apply Forall_app in Hh' as [_ Hh2].
  apply Forall_cons in Hh2 as [Heh _].
  destruct (set_v_spec _ _ value _ _ _ _ Hne) as (nx & Hme & Hset).
  exists nx. split; [done|].
  set (m' := <[e_addr e := mkN (e_h e) (e_key e) value nx]> (mem w)).
  split.
  - unfold add_or_set. rewrite Hhd, Hdh. cbn [mbind option_bind node_h].
    rewrite Hprevs. cbn [mbind option_bind].
    rewrite prevs_of_lookup by lia. cbn [mbind option_bind].
    rewrite (get_next_prev (mem w) (head_entry hd H :: L1) ([e] ++ L2) 0
               (default hd (last_tall 0 L1)) Hc1) by (apply last_tall_head; lia).
    cbn [mbind option_bind app succ_at]. rewrite decide_True by lia.
    cbn [IS_SENTINEL deref]. rewrite Hme. cbn [mbind option_bind node_k node_v].
    rewrite decide_True by done. rewrite Hset. done.
  - assert (∀ x, x ≠ e_addr e → hdr m' x = hdr (mem w) x) as Hh0.
    { intros x Hx. unfold m'. rewrite hdr_insert. by rewrite decide_False. }
    assert (∀ x j, get_next m' (Ptr x) j = get_next (mem w) (Ptr x) j) as Hg0.
    { intros x j. unfold m'. rewrite get_next_insert.
      destruct (decide (x = e_addr e)) as [->|]; [|done].
      unfold get_next. cbn [deref]. by rewrite Hme. }
    assert (hdr (mem w) (e_addr e) = Some (e_h e, e_key e, e_val e, length nx)) as Hlen.
    { unfold hdr. by rewrite Hme. }
    unfold node_at in Hne. rewrite Hne in Hlen. injection Hlen as Hlen.
    assert (∀ L t, e_addr e ∉ map e_addr L → chain_to (mem w) L t → chain_to m' L t)
      as Hframe.
    { intros L t HL. apply chain_to_frame. intros x Hx. split; [|done].
      apply Hh0. intros Heq'. apply HL. rewrite <- Heq'.
      apply list_elem_of_fmap. by exists x. }
    assert (e_addr e ∉ hd :: map e_addr (L1 ++ L2)) as Hefresh
      by (apply Hfresh; by left).
    rewrite map_app in Hefresh.
    split; [|rewrite map_app; rewrite map_app in Hnd; exact Hnd| |done].
    + change (head_entry hd H :: L1 ++ mkE (e_addr e) (e_key e) value (e_h e) :: L2)
        with ((head_entry hd H :: L1)
              ++ [mkE (e_addr e) (e_key e) value (e_h e)] ++ L2).
      apply chain_to_app. rewrite app_nil_r. split.
      * apply (chain_to_tail_eq _ _ ([e] ++ L2)); [done|].
        apply Hframe; [|done]. intros Hin. apply Hefresh. set_solver.
      * split; [|split].
        -- unfold node_at, m'. cbn [e_addr e_h e_key e_val].
           rewrite hdr_insert, decide_True by done. simpl. by rewrite <- Hlen.
        -- intros j Hj. cbn [e_addr e_h] in *. rewrite Hg0. simpl.
           rewrite app_nil_r. by apply Hle.
        -- apply Hframe; [|done]. intros Hin. apply Hefresh. set_solver.
    + apply Forall_app in Hh as [Hh1 Hh2]. apply Forall_cons in Hh2 as [? Hh2].
      apply Forall_app. split; [done|]. by constructor.
Qed.

(** Allocation failures of the second half of [add_or_set]. *)
Lemma add_new_node_fail_node w head0 H prevs key value old' h' g' :
  SKIPLIST_GEN_HEIGHT (rng w) = (h', g') →
  SKIPLIST_MALLOC (mem w) h' = None →
  add_or_set_new_node w head0 H prevs key value old'
  = Some (-1, old', mkW (mem w) (sl w) g').
Proof.
  intros Hgen Ha. unfold add_or_set_new_node. by rewrite Hgen, N_alloc_None.
Qed.

Lemma add_new_node_fail_head w hd H hk hv prevs key value old' h' g' a :
  head (sl w) = Ptr hd →
  hdr (mem w) hd = Some (H, hk, hv, H) →
  SKIPLIST_GEN_HEIGHT (rng w) = (h', g') →
  (H < h')%nat →
  SKIPLIST_MALLOC (mem w) h' = Some a →
  SKIPLIST_MALLOC (<[a := mkN h' key value (replicate h' SENTINEL)]> (mem w)) h' = None →
  add_or_set_new_node w (Ptr hd) H prevs key value old'
  = Some (-1, old', mkW (<[a := mkN h' key value (replicate h' SENTINEL)]> (mem w))
                        (sl w) g').
Proof.
  intros Hhd Hhdr Hgen Hlt Ha Hb.
  pose proof (malloc_fresh _ _ _ Ha) as Hfresh.
  assert (hd ≠ a) as Hne by (intros ->; apply hdr_None in Hfresh; congruence).
  unfold add_or_set_new_node. rewrite Hgen, (N_alloc_Some _ _ _ _ _ Ha).
  rewrite decide_True by done.
  rewrite (grow_head_fail _ (sl w) (Ptr a) hd H hk hv a h' key value); try done.
  - rewrite hdr_insert. by rewrite decide_False.
  - rewrite hdr_insert, decide_True by done. simpl. by rewrite length_replicate.
Qed.

(** ** Unlinking a run of nodes

    The nodes [R] between [L1] and [L2] are gone from [m1], and at each
    level [j < n] the last node before them that reaches [j] points past
    them.  [n] is at least the height of every node of [R]. *)
Lemma Rep_unlink m m1 hd H L1 R L2 (n : nat) :
  Rep m hd H (L1 ++ R ++ L2) →
  (n ≤ H)%nat →
  Forall (λ e, (e_h e ≤ n)%nat) R →
  (∀ x, x ∈ hd :: map e_addr (L1 ++ L2) → hdr m1 x = hdr m x) →
  (∀ x j, x ∈ hd :: map e_addr (L1 ++ L2) →
          get_next m1 (Ptr x) j =
          if decide ((j < n)%nat ∧ x = default hd (last_tall j L1))
          then Some (succ_at j L2)
          else get_next m (Ptr x) j) →
  Rep m1 hd H (L1 ++ L2).
Proof.
  intros HRep Hn HR Hhdr Hget.
  destruct (Rep_split_addrs _ _ _ L1 R L2 HRep) as (Hnd1 & Hnd & Hfresh).
  destruct HRep as [Hc _ Hh HH].
  change (head_entry hd H :: L1 ++ R ++ L2)
    with ((head_entry hd H :: L1) ++ R ++ L2) in Hc.
  apply chain_to_app in Hc as [Hc1 Hc2]. rewrite app_nil_r in Hc1.
  apply chain_to_app in Hc2 as [_ Hc2].
  apply Forall_app in Hh as [Hh1 Hh2]. apply Forall_app in Hh2 as [_ Hh2].
  split; [|done|by apply Forall_app|done].
  change (head_entry hd H :: L1 ++ L2) with ((head_entry hd H :: L1) ++ L2).
  apply chain_to_app. rewrite app_nil_r. split.
  - apply (retarget_prevs m m1 hd H L1 (R ++ L2) L2 n (λ j, succ_at j L2)); try done.
    + eapply Forall_impl; [exact Hh1|]. simpl; intros; lia.
    + intros x Hx. apply Hhdr. rewrite map_app. set_solver.
    + intros x j Hx. apply Hget. rewrite map_app. set_solver.
    + intros j _ Hj. rewrite succ_at_app.
      replace (last_tall j R) with (@None nat); [done|]. symmetry.
      apply last_tall_None. eapply Forall_impl; [exact HR|]. simpl; intros; lia.
  - revert Hc2. apply chain_to_frame. intros e He.
    assert (e_addr e ∈ map e_addr L2) as Hin2 by (apply list_elem_of_fmap; by exists e).
    assert (e_addr e ∈ hd :: map e_addr (L1 ++ L2)) as Hin
      by (rewrite map_app; set_solver).
    split; [by apply Hhdr|]. intros j. rewrite Hget by done.
    rewrite decide_False; [done|]. intros [Hj Hx].
    assert (e_addr e ∈ hd :: map e_addr L1) as Hin1.
    { rewrite Hx. destruct (last_tall j L1) as [b|] eqn:Hb; simpl.
      - right. by eapply last_tall_Some_addr.
      - by left. }
    rewrite map_app in Hnd.
    change (NoDup ((hd :: map e_addr L1) ++ map e_addr L2)) in Hnd.
    apply NoDup_app in Hnd as (_ & Hdisj & _). by apply (Hdisj _ Hin1).
Qed.

(** ** First and pop-first *)

Lemma Rep_first m hd H L :
  Rep m hd H L →
  get_next m (Ptr hd) 0 =
  Some (match L with [] => SENTINEL | f :: _ => Ptr (e_addr f) end).
Proof.
  intros [(_ & Hl & _) _ Hh HH]. specialize (Hl 0%nat HH).
  cbn [e_addr head_entry] in Hl. rewrite Hl, app_nil_r. f_equal.
  destruct L as [|f L]; [done|]. apply Forall_cons in Hh as [Hf _].
  simpl. by rewrite decide_True by lia.
Qed.

Lemma skiplist_first_spec w hd H L key value :
  head (sl w) = Ptr hd →
  Rep (mem w) hd H L →
  skiplist_first w key value =
  Some (match L with
        | [] => (-1, key, value)
        | f :: _ => (0, out_write key (e_key f), out_write value (e_val f))
        end).
Proof.
  intros Hhd HRep. unfold skiplist_first. rewrite Hhd, (Rep_first _ _ _ _ HRep).
  cbn [mbind option_bind]. destruct L as [|f L]; [done|]. cbn [IS_SENTINEL].
  destruct HRep as [(_ & _ & Hf & _) _ _ _].
  destruct (node_at_deref _ _ Hf) as (nx & -> & _). done.
Qed.

Lemma pop_first_empty w hd H key value :
  head (sl w) = Ptr hd →
  Rep (mem w) hd H [] →
  skiplist_pop_first w key value = Some (-1, key, value, w).
Proof.
  intros Hhd HRep. unfold skiplist_pop_first. rewrite Hhd, (Rep_first _ _ _ _ HRep).
  done.
Qed.

Lemma pop_first_spec w hd H f L key value :
  head (sl w) = Ptr hd →
  Rep (mem w) hd H (f :: L) →
  ∃ m', skiplist_pop_first w key value
        = Some (0, out_write key (e_key f), out_write value (e_val f),
                mkW m' (mkT (count_dec (count (sl w))) (Ptr hd)) (rng w))
        ∧ Rep m' hd H L.
Proof.
  intros Hhd HRep. unfold skiplist_pop_first.
  rewrite Hhd, (Rep_first _ _ _ _ HRep). cbn [mbind option_bind].
  destruct (Rep_split_addrs _ _ _ [] [f] L HRep) as (_ & _ & Hfresh).
  pose proof HRep as [(Hnhd & _ & Hnf & Hlf & _) _ Hh HH].
  apply Forall_cons in Hh as [Hfh _]. rewrite app_nil_r in Hlf.
  destruct (node_at_deref _ _ Hnf) as (fnx & Hdf & _). rewrite Hdf.
  cbn [mbind option_bind node_h node_k node_v IS_SENTINEL].
  destruct (DO_set_next (e_h f) (λ _, hd) (λ i, succ_at i L)
              (λ i m, q ← get_next m (Ptr (e_addr f)) i; set_next m (Ptr hd) i q) (mem w))
    as (m1 & Hrun & Hh1 & Hg1).
  { intros i Hi. exists H, vSENTINEL, vSENTINEL, H. split; [exact Hnhd|lia]. }
  { intros i m' Hi _ Hsame. rewrite Hsame by lia. by rewrite (Hlf i Hi). }
  rewrite Hrun. cbn [mbind option_bind].
  assert (hdr m1 (e_addr f) = Some (e_h f, e_key f, e_val f, e_h f)) as Hf1
    by (rewrite Hh1; exact Hnf).
  rewrite (N_free_spec _ _ _ _ _ _ Hf1). cbn [mbind option_bind].
  exists (delete (e_addr f) m1). split; [done|].
  assert (e_addr f ∉ hd :: map e_addr ([] ++ L)) as Hffresh by (apply Hfresh; by left).
  apply (Rep_unlink (mem w) _ hd H [] [f] L (e_h f)); try done.
  - lia.
  - by constructor.
  - intros x Hx. rewrite hdr_delete, decide_False; [done|]. by intros ->.
  - intros x j Hx. rewrite get_next_delete, decide_False; [|by intros ->].
    by rewrite Hg1.
Qed.

(** ** Deleting a run of equal keys *)

Lemma max_h_ge R : Forall (λ e, (e_h e ≤ max_h R)%nat) R.
Proof.
  induction R as [|e R IH]; simpl; constructor; [lia|].
  eapply Forall_impl; [exact IH|]. simpl. intros. lia.
Qed.

Lemma max_h_le R n : Forall (λ e, (e_h e ≤ n)%nat) R → (max_h R ≤ n)%nat.
Proof. induction 1; simpl; lia. Qed.

Lemma DO_copy_nexts m p (n : nat) (Q : nat → ptr) (nexts : list ptr) :
  (∀ i, (i < n)%nat → get_next m p i = Some (Q i)) →
  (n ≤ length nexts)%nat →
  ∃ nx, DO n (λ i nx, q ← get_next m p i; array_set nx i q) nexts = Some nx
        ∧ length nx = length nexts
        ∧ ∀ i, nx !! i = if decide (i < n)%nat then Some (Q i) else nexts !! i.
Proof.
  intros HQ Hn.
  destruct (DO_inv
    (λ k (nx : list ptr),
       length nx = length nexts
       ∧ ∀ i, nx !! i = if decide (i < k)%nat then Some (Q i) else nexts !! i) n
    (λ i nx, q ← get_next m p i; array_set nx i q) nexts) as (nx & Hrun & Hlen & Hnx).
  - split; [done|]. intros i. by rewrite decide_False by lia.
  - intros i nx Hi [Hlen Hnx]. rewrite (HQ i Hi). cbn [mbind option_bind].
    rewrite array_set_lt by lia. eexists. split; [done|].
    split; [by rewrite length_insert|]. intros j.
    destruct (decide (j = i)) as [->|Hji].
    + rewrite list_lookup_insert_eq by lia. by rewrite decide_True by lia.
    + rewrite list_lookup_insert_ne by done. rewrite Hnx.
      destruct (decide (j < i)%nat).
      * by rewrite decide_True by lia.
      * by rewrite decide_False by lia.
  - by exists nx.
Qed.

(** One round of the delete-all loop, at the node [d] followed by [T]. *)
Lemma delete_all_step {U : Type} fuel key (cb : Z → Z → U → U) d T m ct udata tdh
    (nexts : list ptr) :
  node_at m d → links m d T →
  (1 ≤ e_h d ≤ length nexts)%nat →
  match T with
  | [] => True
  | e :: _ => node_at m e ∧ (1 ≤ e_h e)%nat ∧ e_addr e ≠ e_addr d
  end →
  ∃ nx',
    length nx' = length nexts
    ∧ (∀ i, nx' !! i = if decide (i < e_h d)%nat then Some (succ_at i T) else nexts !! i)
    ∧ delete_all_loop (S fuel) key cb (Ptr (e_addr d)) (m, ct, udata, tdh, nexts)
      = let st' := (delete (e_addr d) m, count_dec ct, cb key (e_val d) udata,
                    Nat.max tdh (e_h d), nx') in
        match T with
        | [] => Some st'
        | e :: _ =>
            if decide (SKIPLIST_CMP (e_key e) key = 0)
            then delete_all_loop fuel key cb (Ptr (e_addr e)) st'
            else Some st'
        end.
Proof.
  intros Hn Hl Hh HT.
  destruct (node_at_deref _ _ Hn) as (dnx & Hdd & Hlend).
  pose proof (Hl 0%nat ltac:(lia)) as Hnext0.
  unfold get_next in Hnext0. rewrite Hdd in Hnext0.
  cbn [mbind option_bind node_next] in Hnext0.
  destruct (DO_copy_nexts m (Ptr (e_addr d)) (e_h d) (λ i, succ_at i T) nexts)
    as (nx' & Hrun & Hlen & Hnx); [exact Hl|lia|].
  exists nx'. split; [done|]. split; [done|].
  cbn [delete_all_loop]. rewrite Hdd.
  cbn [mbind option_bind node_next node_h node_v]. rewrite Hnext0.
  cbn [mbind option_bind]. rewrite Hrun. cbn [mbind option_bind].
  rewrite (N_free_spec _ _ _ _ _ _ Hn). cbn [mbind option_bind].
  replace (if decide (e_h d < tdh)%nat then tdh else e_h d) with (Nat.max tdh (e_h d))
    by (destruct (decide (e_h d < tdh)%nat); lia).
  destruct T as [|e T].
  - cbn [succ_at IS_SENTINEL mbind option_bind]. rewrite decide_False by done. done.
  - destruct HT as (Hne & Hhe & Hned).
    cbn [succ_at]. rewrite decide_True by lia. cbn [IS_SENTINEL deref].
    destruct (node_at_deref _ _ Hne) as (enx & Hde & _). cbn [deref] in Hde.
    rewrite lookup_delete_ne by done. rewrite Hde. cbn [mbind option_bind node_k].
    done.
Qed.

Lemma delete_all_loop_spec {U : Type} key (cb : Z → Z → U → U) L3 :
  match L3 with
  | [] => True
  | e :: _ => SKIPLIST_CMP (e_key e) key ≠ 0
  end →
  Forall (λ e, (1 ≤ e_h e)%nat) L3 →
  ∀ R fuel d m ct udata tdh (nexts : list ptr),
    chain_to m (d :: R) L3 →
    chain_to m L3 [] →
    NoDup (map e_addr (d :: R ++ L3)) →
    Forall (λ e, SKIPLIST_CMP (e_key e) key = 0 ∧ (1 ≤ e_h e ≤ length nexts)%nat)
           (d :: R) →
    (length R < fuel)%nat →
    ∃ m' nexts',
      delete_all_loop fuel key cb (Ptr (e_addr d)) (m, ct, udata, tdh, nexts)
      = Some (m', Nat.iter (S (length R)) count_dec ct,
              foldl (λ u e, cb key (e_val e) u) udata (d :: R),
              Nat.max tdh (max_h (d :: R)), nexts')
      ∧ length nexts' = length nexts
      ∧ (∀ i, nexts' !! i =
              if decide (i < max_h (d :: R))%nat then Some (succ_at i L3)
              else nexts !! i)
      ∧ (∀ x, hdr m' x = if decide (x ∈ map e_addr (d :: R)) then None else hdr m x)
      ∧ (∀ x j, get_next m' (Ptr x) j =
                if decide (x ∈ map e_addr (d :: R)) then None
                else get_next m (Ptr x) j).
Proof.
  intros Hstop Hh3. induction R as [|d' R IH];
    intros fuel d m ct udata tdh nexts Hc Hc3 Hnd Heq Hfuel;
    (destruct fuel as [|fuel]; [simpl in Hfuel; lia|]);
    destruct Hc as (Hnd_d & Hl_d & Hc);
    apply Forall_cons in Heq as [[Hkd Hhd] Heq].
  - (* the run ends here *)
    cbn [app] in *.
    destruct (delete_all_step fuel key cb d L3 m ct udata tdh nexts Hnd_d Hl_d Hhd)
      as (nx' & Hlen & Hnx & Hstep).
    { destruct L3 as [|e L3]; [done|]. destruct Hc3 as (Hne & _).
      apply Forall_cons in Hh3 as [He _]. split; [done|]. split; [done|].
      intros Hee. simpl in Hnd. apply NoDup_cons in Hnd as [Hnotin _].
      apply Hnotin. rewrite Hee. by left. }
    exists (delete (e_addr d) m), nx'. split.
    + rewrite Hstep. cbn zeta. destruct L3 as [|e L3]; simpl.
      * by rewrite Nat.max_0_r.
      * rewrite decide_False by done. by rewrite Nat.max_0_r.
    + split; [done|]. split; [|split].
      * intros i. rewrite Hnx. simpl. by rewrite Nat.max_0_r.
      * intros x. rewrite hdr_delete. simpl.
        destruct (decide (x = e_addr d)) as [->|Hne].
        -- rewrite decide_True; [done|]. by left.
        -- rewrite decide_False; [done|]. by intros [?|?%elem_of_nil]%elem_of_cons.
      * intros x j. rewrite get_next_delete. simpl.
        destruct (decide (x = e_addr d)) as [->|Hne].
        -- rewrite decide_True; [done|]. by left.
        -- rewrite decide_False; [done|]. by intros [?|?%elem_of_nil]%elem_of_cons.
  - (* another node of the run follows *)
    apply Forall_cons in Heq as Heq'. destruct Heq' as [[Hkd' Hhd'] _].
    pose proof Hc as (Hnd_d' & _).
    change (NoDup (e_addr d :: map e_addr ((d' :: R) ++ L3))) in Hnd.
    apply NoDup_cons in Hnd as [Hnotin Hnd']. rewrite map_app in Hnotin.
    apply not_elem_of_app in Hnotin as [Hn1 Hn2].
    destruct (delete_all_step fuel key cb d ((d' :: R) ++ L3) m ct udata tdh nexts
                Hnd_d Hl_d Hhd)
      as (nx' & Hlen & Hnx & Hstep).
    { split; [done|]. split; [lia|]. intros Hee. apply Hn1. rewrite <- Hee. by left. }
    assert (∀ L t, e_addr d ∉ map e_addr L → chain_to m L t
                   → chain_to (delete (e_addr d) m) L t) as Hdel.
    { intros L t HL. by apply chain_to_delete. }
    destruct (IH fuel d' (delete (e_addr d) m) (count_dec ct) (cb key (e_val d) udata)
                (Nat.max tdh (e_h d)) nx') as (m' & nexts' & Hrun & Hlen' & Hnx' & Hh' & Hg').
    { by apply Hdel. }
    { by apply Hdel. }
    { done. }
    { rewrite Hlen. done. }
    { simpl in Hfuel. lia. }
    exists m', nexts'. split.
    + rewrite Hstep. cbn zeta. cbn [app]. rewrite decide_True by done. rewrite Hrun.
      rewrite <- Nat.iter_succ_r. cbn [foldl length].
      change (max_h (d :: d' :: R)) with (Nat.max (e_h d) (max_h (d' :: R))).
      assert (∀ a b c, Nat.max (Nat.max a b) c = Nat.max a (Nat.max b c)) as Hmax by lia.
      by rewrite Hmax.
    + split; [by rewrite Hlen'|]. split; [|split].
      * intros i. rewrite Hnx', Hnx. cbn [max_h foldr].
        fold (max_h R). change (foldr _ _ R) with (max_h R).
        destruct (decide (i < Nat.max (e_h d') (max_h R))%nat) as [Hi|Hi].
        -- rewrite decide_True; [done|lia].
        -- destruct (decide (i < e_h d)%nat) as [Hid|Hid].
           ++ rewrite decide_True by lia. f_equal. rewrite succ_at_app.
              replace (last_tall i (d' :: R)) with (@None nat); [done|]. symmetry.
              apply last_tall_None. pose proof (max_h_ge (d' :: R)) as Hge.
              eapply Forall_impl; [exact Hge|]. simpl. intros. lia.
           ++ rewrite decide_False; [done|lia].
      * intros x. rewrite Hh', hdr_delete.
        destruct (decide (x = e_addr d)) as [->|Hne].
        -- rewrite (decide_True (P := e_addr d ∈ map e_addr (d :: d' :: R)));
             [by destruct (decide _)|by left].
        -- destruct (decide (x ∈ map e_addr (d' :: R))) as [Hin|Hnin].
           ++ rewrite decide_True; [done|by right].
           ++ rewrite decide_False; [done|].
              by intros [?|?]%elem_of_cons.
      * intros x j. rewrite Hg', get_next_delete.
        destruct (decide (x = e_addr d)) as [->|Hne].
        -- rewrite (decide_True (P := e_addr d ∈ map e_addr (d :: d' :: R)));
             [by destruct (decide _)|by left].
        -- destruct (decide (x ∈ map e_addr (d' :: R))) as [Hin|Hnin].
           ++ rewrite decide_True; [done|by right].
           ++ rewrite decide_False; [done|].
              by intros [?|?]%elem_of_cons.
Qed.

Lemma delete_all_spec {U : Type} fuel w hd H L1 d R L3 key (udata : U)
    (cb : Z → Z → U → U) :
  head (sl w) = Ptr hd →
  Rep (mem w) hd H (L1 ++ (d :: R) ++ L3) →
  Forall (λ e, SKIPLIST_CMP (e_key e) key < 0) L1 →
  Forall (λ e, SKIPLIST_CMP (e_key e) key = 0) (d :: R) →
  Forall (λ e, 0 ≤ SKIPLIST_CMP (e_key e) key) L3 →
  match L3 with
  | [] => True
  | e :: _ => SKIPLIST_CMP (e_key e) key ≠ 0
  end →
  (length L1 + H ≤ fuel)%nat →
  (length R < fuel)%nat →
  ∃ m', delete_one_or_all fuel w key udata (Some cb)
        = Some (vNULL, foldl (λ u e, cb key (e_val e) u) udata (d :: R),
                mkW m' (mkT (Nat.iter (S (length R)) count_dec (count (sl w))) (Ptr hd))
                    (rng w))
        ∧ Rep m' hd H (L1 ++ L3).
Proof.
  intros Hhd HRep Hlt Heq Hge Hstop Hfuel HfuelR.
  assert (Forall (λ e, 0 ≤ SKIPLIST_CMP (e_key e) key) ((d :: R) ++ L3)) as Hge'.
  { apply Forall_app. split; [|done]. eapply Forall_impl; [exact Heq|].
    simpl. intros. lia. }
  destruct (Rep_head_deref _ _ _ _ HRep) as (hnx & Hdh & Hlenh).
  pose proof (init_prevs_spec _ _ _ _ _ key fuel HRep Hlt Hge' Hfuel) as Hprevs.
  destruct (Rep_split_addrs _ _ _ L1 (d :: R) L3 HRep) as (Hnd1 & Hnd & Hfresh).
  pose proof HRep as [Hc Hnd0 Hh HH].
  change (head_entry hd H :: L1 ++ (d :: R) ++ L3)
    with ((head_entry hd H :: L1) ++ (d :: R) ++ L3) in Hc.
  apply chain_to_app in Hc as [Hc1 Hc2]. rewrite app_nil_r in Hc1.
  apply chain_to_app in Hc2 as [HcR Hc3]. rewrite app_nil_r in HcR.
  pose proof HcR as (Hnd_d & _).
  apply Forall_app in Hh as [Hh1 Hh2]. apply Forall_app in Hh2 as [HhR Hh3].
  pose proof HhR as HhR'. apply Forall_cons in HhR' as [Hhd_d _].
  pose proof Heq as Heq'. apply Forall_cons in Heq' as [Hkd _].
  unfold delete_one_or_all. rewrite Hhd, Hdh. cbn [mbind option_bind node_h].
  rewrite Hprevs. cbn [mbind option_bind].
  rewrite prevs_of_lookup by lia. cbn [mbind option_bind].
  rewrite (get_next_prev (mem w) (head_entry hd H :: L1) ((d :: R) ++ L3) 0
             (default hd (last_tall 0 L1)) Hc1) by (apply last_tall_head; lia).
  cbn [mbind option_bind app succ_at]. rewrite decide_True by lia.
  destruct (node_at_deref _ _ Hnd_d) as (dnx & Hdd & Hlend).
  cbn [IS_SENTINEL]. rewrite Hdd. cbn [mbind option_bind node_k node_h].
  rewrite bool_decide_eq_true_2 by done. cbn [negb].
  destruct (delete_all_loop_spec key cb L3 Hstop
              ltac:(eapply Forall_impl; [exact Hh3|]; simpl; intros; lia)
              R fuel d (mem w) (count (sl w)) udata 0%nat (replicate H SENTINEL))
    as (m1 & nexts' & Hloop & Hlen' & Hnx' & Hh1m & Hg1m).
  { done. }
  { done. }
  { rewrite !map_app in Hnd0. apply NoDup_cons in Hnd0 as [_ Hnd0].
    apply NoDup_app in Hnd0 as (_ & _ & Hnd0).
    change (NoDup (map e_addr ((d :: R) ++ L3))). by rewrite map_app. }
  { rewrite length_replicate. apply Forall_forall. intros e He.
    split; [by apply (proj1 (Forall_forall _ _) Heq)|].
    by apply (proj1 (Forall_forall _ _) HhR). }
  { done. }
  rewrite Hloop. cbn [mbind option_bind]. rewrite Nat.max_0_l.
  assert (max_h (d :: R) ≤ H)%nat as Hmax.
  { apply max_h_le. eapply Forall_impl; [exact HhR|]. simpl; intros; lia. }
  assert (∀ x, x ∈ hd :: map e_addr (L1 ++ L3) → x ∉ map e_addr (d :: R)) as Hkeep.
  { intros x Hx (e & -> & He)%list_elem_of_fmap. by apply (Hfresh e He). }
  assert (∀ i, (i < H)%nat → default hd (last_tall i L1) ∈ hd :: map e_addr (L1 ++ L3))
    as HP.
  { intros i Hi. destruct (last_tall i L1) as [x|] eqn:Hx; simpl; [|by left].
    right. rewrite map_app. apply elem_of_app. left. by eapply last_tall_Some_addr. }
  destruct (DO_set_next (max_h (d :: R)) (λ i, default hd (last_tall i L1))
              (λ i, succ_at i L3)
              (λ i m, p ← prevs_of hd H L1 !! i; q ← nexts' !! i; set_next m p i q) m1)
    as (m2 & Hrun & Hh2m & Hg2m).
  { intros i Hi. rewrite Hh1m, decide_False by (apply Hkeep, HP; lia).
    apply (last_tall_node (mem w) (head_entry hd H :: L1) ((d :: R) ++ L3)); [done|].
    apply last_tall_head. lia. }
  { intros i m' Hi _ _. rewrite prevs_of_lookup by lia. cbn [mbind option_bind].
    rewrite Hnx', decide_True by done. done. }
  rewrite Hrun. cbn [mbind option_bind]. exists m2. split; [done|].
  apply (Rep_unlink (mem w) m2 hd H L1 (d :: R) L3 (max_h (d :: R))); try done.
  - apply max_h_ge.
  - intros x Hx. rewrite Hh2m, Hh1m. by rewrite decide_False by (by apply Hkeep).
  - intros x j Hx. rewrite Hg2m, Hg1m. by rewrite (decide_False (P := x ∈ _))
      by (by apply Hkeep).
Qed.

(** ** Last and pop-last *)

Lemma succ_at_last_SENTINEL j X l :
  succ_at j (X ++ [l]) = SENTINEL → (e_h l ≤ j)%nat ∧ last_tall j X = None.
Proof.
  rewrite succ_at_app. destruct (last_tall j X) as [x|] eqn:Hx.
  - destruct (succ_at_split j X x Hx) as (? & ? & ? & _ & _ & _ & ->). done.
  - simpl. destruct (decide (j < e_h l)%nat); [done|]. intros _. split; [lia|done].
Qed.

(** From [ce], with the nodes [Lb] and then the last node [l] ahead:
    the loop stops at the node before [l], and for every level that [l]
    reaches [prevs] holds the last node before [l] at that level. *)
Lemma pop_last_loop_spec m l :
  links m l [] → (1 ≤ e_h l)%nat →
  ∀ fuel ce Lb lvl (prevs : list ptr),
    chain_to m (ce :: Lb) [l] →
    (lvl < e_h ce)%nat →
    (lvl < length prevs)%nat →
    (length Lb + lvl < fuel)%nat →
    ∃ prevs',
      skiplist_pop_last_loop fuel m (Ptr (e_addr ce)) lvl prevs
      = Some (Ptr (default (e_addr ce) (last_tall 0 Lb)), prevs')
      ∧ length prevs' = length prevs
      ∧ (∀ i, (i ≤ lvl)%nat → (i < e_h l)%nat →
              prevs' !! i = Some (Ptr (default (e_addr ce) (last_tall i Lb))))
      ∧ (∀ i, (lvl < i)%nat → prevs' !! i = prevs !! i).
Proof.
  intros Hll Hhl. induction fuel as [|fuel IH];
    intros ce Lb lvl prevs Hc Hlvl Hlen Hfuel; [lia|].
  pose proof Hc as (Hn & Hl & Hc').
  assert ((lvl < e_h l → last_tall lvl Lb = None)%nat →
          (lvl = 0%nat → last_tall 0 Lb = None) →
          ∃ prevs',
            (prevs'' ← array_set prevs lvl (Ptr (e_addr ce));
             match lvl with
             | O => Some (Ptr (e_addr ce), prevs'')
             | S lvl' => skiplist_pop_last_loop fuel m (Ptr (e_addr ce)) lvl' prevs''
             end)
            = Some (Ptr (default (e_addr ce) (last_tall 0 Lb)), prevs')
            ∧ length prevs' = length prevs
            ∧ (∀ i, (i ≤ lvl)%nat → (i < e_h l)%nat →
                    prevs' !! i = Some (Ptr (default (e_addr ce) (last_tall i Lb))))
            ∧ (∀ i, (lvl < i)%nat → prevs' !! i = prevs !! i)) as Hrecord.
  { intros Hnone H0. rewrite array_set_lt by done. cbn [mbind option_bind].
    destruct lvl as [|lvl'].
    - exists (<[0%nat := Ptr (e_addr ce)]> prevs). rewrite H0 by done.
      split; [done|]. split; [by rewrite length_insert|]. split.
      + intros i Hi _. assert (i = 0%nat) as -> by lia. rewrite H0 by done.
        by apply list_lookup_insert_eq.
      + intros i Hi. apply list_lookup_insert_ne. lia.
    - destruct (IH ce Lb lvl' (<[S lvl' := Ptr (e_addr ce)]> prevs))
        as (prevs' & Hrun & Hlen' & Hlow & Hhigh);
        [done|lia|rewrite length_insert; lia|lia|].
      exists prevs'. split; [done|]. split; [by rewrite Hlen', length_insert|]. split.
      + intros i Hi Hil. destruct (decide (i = S lvl')) as [->|Hne].
        * rewrite Hhigh by lia. rewrite Hnone by done.
          by apply list_lookup_insert_eq.
        * apply Hlow; [lia|done].
      + intros i Hi. rewrite Hhigh by lia. apply list_lookup_insert_ne. lia. }
  cbn [skiplist_pop_last_loop]. rewrite (Hl lvl Hlvl). cbn [mbind option_bind].
  destruct (last_tall lvl Lb) as [x|] eqn:Hlast.
  - destruct (succ_at_split lvl Lb x Hlast) as (La & e & Lb' & -> & HLa & He & Hs).
    rewrite succ_at_app, Hlast, Hs. cbn [IS_SENTINEL].
    apply chain_to_app in Hc' as [_ Hce]. pose proof Hce as (_ & Hle & _).
    rewrite (Hle lvl He). cbn [mbind option_bind].
    destruct (succ_at lvl (Lb' ++ [l])) eqn:Hnext.
    + exfalso. destruct (succ_at_cases lvl (Lb' ++ [l])) as [Hsc|(? & ? & ? & _ & _ & Hsc)];
        congruence.
    + cbn [IS_SENTINEL negb]. apply succ_at_last_SENTINEL in Hnext as [Hhl' _].
      apply Hrecord; intros; lia.
    + cbn [IS_SENTINEL negb].
      rewrite length_app in Hfuel. simpl in Hfuel.
      destruct (IH e Lb' lvl prevs) as (prevs' & Hrun & Hlen' & Hlow & Hhigh);
        [done|done|done|lia|].
      exists prevs'. rewrite Hrun. split.
      * do 3 f_equal. rewrite last_tall_app. simpl.
        destruct (last_tall 0 Lb'); [done|]. by rewrite decide_True by lia.
      * split; [done|]. split; [|done]. intros i Hi Hil.
        rewrite (Hlow i Hi Hil), last_tall_app. simpl.
        destruct (last_tall i Lb'); [done|]. by rewrite decide_True by lia.
  - rewrite succ_at_app, Hlast. cbn [succ_at].
    destruct (decide (lvl < e_h l)%nat) as [Hlt|Hge].
    + cbn [IS_SENTINEL]. rewrite (Hll lvl Hlt). cbn [mbind option_bind succ_at].
      cbn [IS_SENTINEL negb]. apply Hrecord; [done|]. by intros ->.
    + cbn [IS_SENTINEL mbind option_bind]. apply Hrecord; intros; lia.
Qed.

Lemma pop_last_spec fuel w hd H L1 l key value :
  head (sl w) = Ptr hd →
  Rep (mem w) hd H (L1 ++ [l]) →
  count (sl w) ≠ 0 →
  (length L1 + H ≤ fuel)%nat →
  ∃ m', skiplist_pop_last fuel w key value
        = Some (0, out_write key (e_key l), out_write value (e_val l),
                mkW m' (mkT (count_dec (count (sl w))) (Ptr hd)) (rng w))
        ∧ Rep m' hd H L1.
Proof.
  intros Hhd HRep Hct Hfuel.
  destruct (Rep_head_deref _ _ _ _ HRep) as (hnx & Hdh & Hlenh).
  assert (Rep (mem w) hd H (L1 ++ [l] ++ [])) as HRep' by done.
  destruct (Rep_split_addrs _ _ _ L1 [l] [] HRep') as (Hnd1 & Hnd & Hfresh).
  pose proof HRep as [Hc _ Hh HH].
  change (head_entry hd H :: L1 ++ [l]) with ((head_entry hd H :: L1) ++ [l]) in Hc.
  apply chain_to_app in Hc as [Hc1 Hc2]. rewrite app_nil_r in Hc1.
  destruct Hc2 as (Hnl & Hll & _). simpl in Hll.
  apply Forall_app in Hh as [Hh1 Hh2]. apply Forall_cons in Hh2 as [Hhl _].
  unfold skiplist_pop_last. rewrite Hhd, Hdh. cbn [mbind option_bind node_h].
  rewrite decide_False by done.
  destruct (pop_last_loop_spec (mem w) l Hll ltac:(lia) fuel (head_entry hd H) L1
              (H - 1) (replicate H NULL)) as (prevs' & Hrun & Hlen' & Hlow & _).
  { done. }
  { simpl. lia. }
  { rewrite length_replicate. lia. }
  { lia. }
  cbn [e_addr head_entry] in Hrun, Hlow. rewrite Hrun. cbn [mbind option_bind].
  rewrite (get_next_prev (mem w) (head_entry hd H :: L1) [l] 0
             (default hd (last_tall 0 L1)) Hc1) by (apply last_tall_head; lia).
  cbn [mbind option_bind succ_at]. rewrite decide_True by lia.
  destruct (node_at_deref _ _ Hnl) as (lnx & Hdl & _). rewrite Hdl.
  cbn [mbind option_bind node_h].
  destruct (DO_set_next (e_h l) (λ i, default hd (last_tall i L1)) (λ _, SENTINEL)
              (λ i m, p ← prevs' !! i; set_next m p i SENTINEL) (mem w))
    as (m1 & Hrun1 & Hh1m & Hg1m).
  { intros i Hi. apply (last_tall_node (mem w) (head_entry hd H :: L1) [l]); [done|].
    apply last_tall_head. lia. }
  { intros i m' Hi _ _. rewrite Hlow by lia. done. }
  rewrite Hrun1. cbn [mbind option_bind deref].
  assert (hdr m1 (e_addr l) = Some (e_h l, e_key l, e_val l, e_h l)) as Hl1
    by (rewrite Hh1m; exact Hnl).
  destruct (hdr_Some _ _ _ _ _ _ Hl1) as (lnx1 & Hdl1 & _).
  rewrite Hdl1. cbn [mbind option_bind node_k node_v].
  rewrite (N_free_spec _ _ _ _ _ _ Hl1). cbn [mbind option_bind].
  exists (delete (e_addr l) m1). split; [done|].
  assert (e_addr l ∉ hd :: map e_addr (L1 ++ [])) as Hlfresh by (apply Hfresh; by left).
  rewrite <- (app_nil_r L1).
  apply (Rep_unlink (mem w) _ hd H L1 [l] [] (e_h l)); try done.
  - lia.
  - by constructor.
  - intros x Hx. rewrite hdr_delete, decide_False; [done|]. by intros ->.
  - intros x j Hx. rewrite get_next_delete, decide_False; [|by intros ->].
    by rewrite Hg1m.
Qed.

Lemma pop_last_count_zero fuel w hd H L key value :
  head (sl w) = Ptr hd →
  Rep (mem w) hd H L →
  count (sl w) = 0 →
  skiplist_pop_last fuel w key value = Some (-1, key, value, w).
Proof.
  intros Hhd HRep Hct.
  destruct (Rep_head_deref _ _ _ _ HRep) as (hnx & Hdh & Hlenh).
  unfold skiplist_pop_last. rewrite Hhd, Hdh. cbn [mbind option_bind].
  by rewrite decide_True.
Qed.

Lemma last_tall_zero_None L :
  Forall (λ e, (1 ≤ e_h e)%nat) L → last_tall 0 L = None → L = [].
Proof.
  intros Hh HN%last_tall_None. destruct L as [|e L]; [done|].
  apply Forall_cons in Hh as [? _]. apply Forall_cons in HN as [? _]. lia.
Qed.

Lemma last_loop_spec m l :
  ∀ fuel ce Lb lvl,
    chain_to m (ce :: Lb) [] →
    Forall (λ e, (1 ≤ e_h e)%nat) Lb →
    last (ce :: Lb) = Some l →
    (lvl < e_h ce)%nat →
    (length Lb + lvl < fuel)%nat →
    skiplist_last_loop fuel m (Ptr (e_addr ce)) lvl = Some (Ptr (e_addr l)).
Proof.
  induction fuel as [|fuel IH]; intros ce Lb lvl Hc Hh Hlast Hlvl Hfuel; [lia|].
  destruct Hc as (Hn & Hl & Hc). cbn [skiplist_last_loop].
  rewrite (Hl lvl Hlvl), app_nil_r. cbn [mbind option_bind].
  destruct (last_tall lvl Lb) as [x|] eqn:Hx.
  - destruct (succ_at_split lvl Lb x Hx) as (La & e & Lb' & -> & HLa & He & ->).
    cbn [IS_SENTINEL]. apply chain_to_app in Hc as [_ Hc].
    apply Forall_app in Hh as [_ Hh]. apply Forall_cons in Hh as [_ Hh].
    rewrite length_app in Hfuel. simpl in Hfuel.
    apply (IH e Lb' lvl); [done|done| |done|lia].
    change (ce :: La ++ e :: Lb') with ((ce :: La) ++ e :: Lb') in Hlast.
    by rewrite last_app_cons in Hlast.
  - rewrite (succ_at_None _ _ Hx). cbn [IS_SENTINEL]. destruct lvl as [|lvl'].
    + apply last_tall_zero_None in Hx as ->; [|done]. simpl in Hlast.
      by injection Hlast as ->.
    + apply (IH ce Lb lvl'); [done|done|done|lia|lia].
Qed.

(** [skiplist_last] when some node reaches the top level of the head. *)
Lemma skiplist_last_spec fuel w hd H L1 l key value :
  head (sl w) = Ptr hd →
  Rep (mem w) hd H (L1 ++ [l]) →
  last_tall (H - 1) (L1 ++ [l]) ≠ None →
  (length L1 + H ≤ fuel)%nat →
  skiplist_last fuel w key value
  = Some (0, out_write key (e_key l), out_write value (e_val l)).
Proof.
  intros Hhd HRep Htop Hfuel.
  destruct (Rep_head_deref _ _ _ _ HRep) as (hnx & Hdh & Hlenh).
  destruct HRep as [(_ & Hlh & Hc) _ Hh HH].
  assert (node_at (mem w) l) as Hnl.
  { apply (chain_to_node _ _ _ _ Hc). set_solver. }
  unfold skiplist_last. rewrite Hhd, Hdh. cbn [mbind option_bind node_h].
  specialize (Hlh (H - 1)%nat ltac:(simpl; lia)). cbn [e_addr head_entry] in Hlh.
  rewrite Hlh, app_nil_r. cbn [mbind option_bind].
  destruct (last_tall (H - 1) (L1 ++ [l])) as [x|] eqn:Hx; [|done].
  destruct (succ_at_split _ _ x Hx) as (La & e & Lb & HL & HLa & He & ->).
  cbn [IS_SENTINEL]. rewrite HL in Hc, Hh. apply chain_to_app in Hc as [_ Hc].
  apply Forall_app in Hh as [_ Hh]. apply Forall_cons in Hh as [_ Hh].
  assert (length L1 + 1 = length La + S (length Lb))%nat as Hlen.
  { pose proof (f_equal length HL) as HLlen. rewrite !length_app in HLlen.
    simpl in HLlen. lia. }
  rewrite (last_loop_spec (mem w) l fuel e Lb (H - 1)).
  - cbn [mbind option_bind]. destruct (node_at_deref _ _ Hnl) as (lnx & -> & _). done.
  - done.
  - eapply Forall_impl; [exact Hh|]. simpl; intros; lia.
  - rewrite <- (last_app_cons La), <- HL. apply last_snoc.
  - done.
  - lia.
Qed.

(** ** Lookup *)

Lemma get_first_eq_node_loop_spec m key t :
  chain_to m t [] →
  Forall (λ e, 0 ≤ SKIPLIST_CMP (e_key e) key) t →
  Forall (λ e, (1 ≤ e_h e)%nat) t →
  ∀ fuel ce Lb lvl,
    chain_to m (ce :: Lb) t →
    (lvl < e_h ce)%nat →
    Forall (λ e, SKIPLIST_CMP (e_key e) key < 0) Lb →
    (length Lb + lvl < fuel)%nat →
    get_first_eq_node_loop fuel m key (Ptr (e_addr ce)) lvl = Some (first_eq key t).
Proof.
  intros Hct Hge Hht. induction fuel as [|fuel IH];
    intros ce Lb lvl Hc Hlvl Hlt Hfuel; [lia|].
  destruct Hc as (Hn & Hl & Hc). cbn [get_first_eq_node_loop].
  rewrite (Hl lvl Hlvl); cbn [mbind option_bind]. rewrite succ_at_app.
  destruct (last_tall lvl Lb) as [a|] eqn:Hlast.
  - destruct (succ_at_split lvl Lb a Hlast) as (La & e & Lb' & -> & HLa & He & ->).
    apply chain_to_app in Hc as [_ Hc].
    rewrite (res_node m key e) by apply Hc. cbn [mbind option_bind].
    apply Forall_app in Hlt as [_ Hlt].
    rewrite decide_True by (by inversion Hlt).
    rewrite length_app in Hfuel; simpl in Hfuel.
    apply (IH e Lb' lvl); [done|done|by inversion Hlt|lia].
  - destruct lvl as [|lvl'].
    + destruct t as [|e t]; [done|]. apply Forall_cons in Hht as [He _].
      apply Forall_cons in Hge as [Hge _]. destruct Hct as (Hne & _).
      cbn [succ_at]. rewrite decide_True by lia.
      rewrite (res_node m key e Hne). cbn [mbind option_bind first_eq].
      rewrite decide_False by lia. by destruct (decide (SKIPLIST_CMP (e_key e) key = 0)).
    + destruct (res_succ_ge m key t (S lvl') Hct Hge) as (res & -> & Hres).
      cbn [mbind option_bind]. rewrite decide_False by lia.
      apply (IH ce Lb lvl'); [done|lia|done|lia].
Qed.

Lemma get_first_eq_node_spec fuel w hd H L1 L2 key :
  head (sl w) = Ptr hd →
  Rep (mem w) hd H (L1 ++ L2) →
  Forall (λ e, SKIPLIST_CMP (e_key e) key < 0) L1 →
  Forall (λ e, 0 ≤ SKIPLIST_CMP (e_key e) key) L2 →
  (length L1 + H ≤ fuel)%nat →
  get_first_eq_node fuel w key = Some (first_eq key L2).
Proof.
  intros Hhd HRep Hlt Hge Hfuel.
  destruct (Rep_head_deref _ _ _ _ HRep) as (hnx & Hdh & Hlenh).
  destruct HRep as [Hc _ Hh HH].
  change (head_entry hd H :: L1 ++ L2) with ((head_entry hd H :: L1) ++ L2) in Hc.
  apply chain_to_app in Hc as [Hc1 Hc2]. rewrite app_nil_r in Hc1.
  apply Forall_app in Hh as [_ Hh2].
  unfold get_first_eq_node. rewrite Hhd, Hdh. cbn [mbind option_bind node_h].
  apply (get_first_eq_node_loop_spec (mem w) key L2 Hc2 Hge
           ltac:(eapply Forall_impl; [exact Hh2|]; simpl; intros; lia)
           fuel (head_entry hd H) L1 (H - 1)); [done|simpl; lia|done|lia].
Qed.

Lemma skiplist_get_spec fuel w hd H L1 L2 key :
  head (sl w) = Ptr hd →
  Rep (mem w) hd H (L1 ++ L2) →
  Forall (λ e, SKIPLIST_CMP (e_key e) key < 0) L1 →
  Forall (λ e, 0 ≤ SKIPLIST_CMP (e_key e) key) L2 →
  (length L1 + H ≤ fuel)%nat →
  skiplist_get fuel w key
  = Some (match L2 with
          | [] => vNULL
          | e :: _ => if decide (SKIPLIST_CMP (e_key e) key = 0) then e_val e else vNULL
          end).
Proof.
  intros Hhd HRep Hlt Hge Hfuel. unfold skiplist_get.
  rewrite (get_first_eq_node_spec fuel w hd H L1 L2 key) by done.
  cbn [mbind option_bind]. destruct L2 as [|e L2]; [done|]. cbn [first_eq].
  destruct (decide (SKIPLIST_CMP (e_key e) key = 0)); [|done].
  destruct HRep as [Hc _ _ _].
  assert (node_at (mem w) e) as Hne by (apply (chain_to_node _ _ _ _ Hc); set_solver).
  destruct (node_at_deref _ _ Hne) as (nx & -> & _). done.
Qed.

(** ** Iteration *)

Lemma walk_and_apply_spec {U : Type} m (cb : Z → Z → U → Z * U) :
  (∀ key value u, (cb key value u).1 = 0) →
  ∀ L fuel udata,
    chain_to m L [] →
    Forall (λ e, (1 ≤ e_h e)%nat) L →
    (length L < fuel)%nat →
    walk_and_apply fuel m (succ_at 0 L) udata cb
    = Some (foldl (λ u e, (cb (e_key e) (e_val e) u).2) udata L).
Proof.
  intros Hcb. induction L as [|e L IH]; intros fuel udata Hc Hh Hfuel;
    (destruct fuel as [|fuel]; [simpl in Hfuel; lia|]); [done|].
  destruct Hc as (Hn & Hl & Hc). apply Forall_cons in Hh as [He Hh].
  cbn [succ_at]. rewrite decide_True by lia. cbn [walk_and_apply IS_SENTINEL].
  destruct (node_at_deref _ _ Hn) as (nx & Hd & _). rewrite Hd.
  cbn [mbind option_bind node_k node_v node_next].
  specialize (Hcb (e_key e) (e_val e) udata).
  destruct (cb (e_key e) (e_val e) udata) as [r u'] eqn:Hr. simpl in Hcb. subst r.
  rewrite decide_False by (intros ?; done).
  pose proof (Hl 0%nat ltac:(lia)) as Hnext. unfold get_next in Hnext.
  rewrite Hd in Hnext. cbn [mbind option_bind node_next] in Hnext.
  rewrite Hnext, app_nil_r. cbn [mbind option_bind foldl]. rewrite Hr.
  apply IH; [done|done|simpl in Hfuel; lia].
Qed.

Lemma foldl_collect L seen :
  foldl (λ u e, (collect (e_key e) (e_val e) u).2) seen L = seen ++ pairs_of L.
Proof.
  revert seen. induction L as [|e L IH]; intros seen; simpl.
  - by rewrite app_nil_r.
  - rewrite IH. by rewrite <- app_assoc.
Qed.

Lemma skiplist_iter_spec fuel w hd H L :
  head (sl w) = Ptr hd →
  Rep (mem w) hd H L →
  (length L < fuel)%nat →
  skiplist_iter fuel w [] collect = Some (pairs_of L).
Proof.
  intros Hhd HRep Hfuel. unfold skiplist_iter.
  destruct HRep as [(_ & Hlh & Hc) _ Hh HH].
  specialize (Hlh 0%nat ltac:(simpl; lia)). cbn [e_addr head_entry] in Hlh.
  rewrite Hhd, Hlh, app_nil_r. cbn [mbind option_bind].
  rewrite (walk_and_apply_spec (mem w) collect ltac:(done) L fuel []); try done.
  - by rewrite foldl_collect.
  - eapply Forall_impl; [exact Hh|]. simpl; intros; lia.
Qed.

(** * The comparator, the counter and the height generator *)

(** The comparator is a total preorder: swapping the arguments swaps the
    sign, and "not greater" is transitive. *)
Hypothesis cmp_flip : ∀ a b, SKIPLIST_CMP a b < 0 ↔ 0 < SKIPLIST_CMP b a.
Hypothesis cmp_trans :
  ∀ a b c, SKIPLIST_CMP a b ≤ 0 → SKIPLIST_CMP b c ≤ 0 → SKIPLIST_CMP a c ≤ 0.

Hypothesis max_height_pos : (1 ≤ SKIPLIST_MAX_HEIGHT)%nat.
Hypothesis count_modulus_pos : 0 < count_modulus.

Lemma cmp_ge_flip a b : 0 ≤ SKIPLIST_CMP a b → SKIPLIST_CMP b a ≤ 0.
Proof. intros Hab. destruct (cmp_flip a b) as [_ Hf]. lia. Qed.

Lemma cmp_eq_flip a b : SKIPLIST_CMP a b = 0 → SKIPLIST_CMP b a = 0.
Proof.
  intros Hab. destruct (cmp_flip a b) as [_ H1]. destruct (cmp_flip b a) as [H2 _]. lia.
Qed.

Lemma cmp_ge_le_trans a b key :
  0 ≤ SKIPLIST_CMP a key → SKIPLIST_CMP a b ≤ 0 → 0 ≤ SKIPLIST_CMP b key.
Proof.
  intros Ha Hab. destruct (decide (SKIPLIST_CMP b key < 0)) as [Hb|]; [|lia].
  pose proof (cmp_ge_flip _ _ Ha) as Hka.
  pose proof (cmp_trans _ _ _ Hka Hab) as Hkb.
  destruct (cmp_flip b key) as [Hf _]. specialize (Hf Hb). lia.
Qed.

(** Every key splits a sorted list into the nodes before it and the
    nodes not before it. *)
Lemma split_at_key key L :
  key_sorted L →
  ∃ L1 L2, L = L1 ++ L2
           ∧ Forall (λ e, SKIPLIST_CMP (e_key e) key < 0) L1
           ∧ Forall (λ e, 0 ≤ SKIPLIST_CMP (e_key e) key) L2.
Proof.
  induction 1 as [|e L Hs IH Hall].
  - by exists [], [].
  - destruct (decide (SKIPLIST_CMP (e_key e) key < 0)) as [Hlt|Hge].
    + destruct IH as (L1 & L2 & -> & H1 & H2). exists (e :: L1), L2.
      split; [done|]. split; [by constructor|done].
    + exists [], (e :: L). split; [done|]. split; [constructor|].
      constructor; [lia|]. eapply Forall_impl; [exact Hall|]. simpl.
      intros x Hx. apply (cmp_ge_le_trans (e_key e)); [lia|done].
Qed.

(** The run of nodes equal to the key at the front of a list. *)
Lemma split_run key L2 :
  ∃ R L3, L2 = R ++ L3
          ∧ Forall (λ e, SKIPLIST_CMP (e_key e) key = 0) R
          ∧ match L3 with
            | [] => True
            | e :: _ => SKIPLIST_CMP (e_key e) key ≠ 0
            end.
Proof.
  induction L2 as [|e L2 IH].
  - by exists [], [].
  - destruct (decide (SKIPLIST_CMP (e_key e) key = 0)) as [Heq|Hne].
    + destruct IH as (R & L3 & -> & HR & H3). exists (e :: R), L3.
      split; [done|]. split; [by constructor|done].
    + by exists [], (e :: L2).
Qed.

Lemma key_sorted_app L1 L2 :
  key_sorted (L1 ++ L2) ↔
  key_sorted L1 ∧ key_sorted L2
  ∧ Forall (λ a, Forall (λ b, SKIPLIST_CMP (e_key a) (e_key b) ≤ 0) L2) L1.
Proof.
  unfold key_sorted. induction L1 as [|e L1 IH]; simpl.
  - split; [intros; repeat split; [constructor|done|constructor]|tauto].
  - split.
    + intros Hs. apply StronglySorted_inv in Hs as [Hs Hall].
      apply IH in Hs as (H1 & H2 & H12). apply Forall_app in Hall as [Ha1 Ha2].
      split; [by constructor|]. split; [done|]. by constructor.
    + intros (H1 & H2 & H12). apply StronglySorted_inv in H1 as [H1 Ha1].
      apply Forall_cons in H12 as [Ha2 H12]. constructor.
      * apply IH. done.
      * apply Forall_app. done.
Qed.

Lemma key_sorted_insert L1 L2 a key value h :
  key_sorted (L1 ++ L2) →
  Forall (λ e, SKIPLIST_CMP (e_key e) key < 0) L1 →
  Forall (λ e, 0 ≤ SKIPLIST_CMP (e_key e) key) L2 →
  key_sorted (L1 ++ mkE a key value h :: L2).
Proof.
  intros (H1 & H2 & H12)%key_sorted_app Hlt Hge. apply key_sorted_app.
  split; [done|]. split.
  - constructor; [done|]. eapply Forall_impl; [exact Hge|]. simpl.
    intros x Hx. by apply cmp_ge_flip.
  - apply Forall_forall. intros x Hx. constructor.
    + simpl. pose proof (proj1 (Forall_forall _ _) Hlt x Hx) as Hxk. simpl in Hxk. lia.
    + by apply (proj1 (Forall_forall _ _) H12).
Qed.

Lemma key_sorted_remove L1 R L2 : key_sorted (L1 ++ R ++ L2) → key_sorted (L1 ++ L2).
Proof.
  intros (H1 & (_ & H2 & _)%key_sorted_app & H12)%key_sorted_app.
  apply key_sorted_app. split; [done|]. split; [done|].
  eapply Forall_impl; [exact H12|]. simpl. intros x Hx.
  by apply Forall_app in Hx as [_ ?].
Qed.

Lemma key_sorted_set_val L1 e L2 value :
  key_sorted (L1 ++ e :: L2) →
  key_sorted (L1 ++ mkE (e_addr e) (e_key e) value (e_h e) :: L2).
Proof.
  intros (H1 & H2 & H12)%key_sorted_app. apply key_sorted_app.
  apply StronglySorted_inv in H2 as [H2 Ha]. split; [done|]. split.
  - by constructor.
  - eapply Forall_impl; [exact H12|]. simpl. intros x Hx.
    apply Forall_cons in Hx as [? ?]. by constructor.
Qed.

(** The counter follows the length of the list. *)
Lemma count_inc_length (n : nat) :
  count_inc (Z.of_nat n mod count_modulus) = Z.of_nat (S n) mod count_modulus.
Proof.
  unfold count_inc. rewrite Zplus_mod_idemp_l. f_equal. lia.
Qed.

Lemma count_dec_length (n : nat) :
  count_dec (Z.of_nat (S n) mod count_modulus) = Z.of_nat n mod count_modulus.
Proof.
  unfold count_dec. rewrite Zminus_mod_idemp_l. f_equal. lia.
Qed.

Lemma count_dec_iter (k n : nat) :
  Nat.iter k count_dec (Z.of_nat (k + n) mod count_modulus)
  = Z.of_nat n mod count_modulus.
Proof.
  induction k as [|k IH]; [done|]. rewrite Nat.iter_succ_r.
  change (S k + n)%nat with (S (k + n)). by rewrite count_dec_length.
Qed.

(** The generator stays within [1, SKIPLIST_MAX_HEIGHT]. *)
Lemma height_loop_ge rounds r bit h : (h ≤ height_loop rounds r bit h)%nat.
Proof.
  revert bit h. induction rounds as [|rounds IH]; intros bit h; simpl; [lia|].
  destruct (_ =? _); [lia|]. specialize (IH (bit + 1) (S h)). lia.
Qed.

Lemma height_of_draw_range r : (1 ≤ height_of_draw r ≤ SKIPLIST_MAX_HEIGHT)%nat.
Proof.
  unfold height_of_draw. pose proof (height_loop_ge 32 r 0 1).
  destruct (decide _); lia.
Qed.

Lemma gen_height_range g h g' :
  SKIPLIST_GEN_HEIGHT g = (h, g') → (1 ≤ h ≤ SKIPLIST_MAX_HEIGHT)%nat.
Proof.
  unfold SKIPLIST_GEN_HEIGHT. destruct (random g) as [r g1]. intros [= <- <-].
  apply height_of_draw_range.
Qed.

(** * The invariant is kept by every mutating call *)

Lemma Rep_insert_fresh m hd H L a n :
  Rep m hd H L → m !! a = None → Rep (<[a := n]> m) hd H L.
Proof.
  intros HRep Ha. pose proof (Rep_fresh _ _ _ _ _ HRep Ha) as Hfresh.
  destruct HRep as [Hc Hnd Hh HH]. split; [|done|done|done].
  revert Hc. apply chain_to_frame. intros e He.
  assert (e_addr e ≠ a) as Hne.
  { intros <-. apply Hfresh.
    change (e_addr e ∈ map e_addr (head_entry hd H :: L)).
    apply list_elem_of_fmap. by exists e. }
  split.
  - rewrite hdr_insert. by rewrite decide_False.
  - intros j. rewrite get_next_insert. by rewrite decide_False.
Qed.

Lemma skiplist_new_Inv_at m0 g0 w0 :
  skiplist_new m0 g0 = Some w0 → ∃ hd, Inv_at w0 hd 1 [] ∧ rng w0 = g0.
Proof.
  unfold skiplist_new, N_alloc. destruct (SKIPLIST_MALLOC m0 1) as [a|]; [|done].
  intros [= <-]. exists a. split; [|done]. unfold Inv_at. cbn [sl mem head count].
  split; [done|]. split; [|split; [by rewrite Zmod_0_l|done]].
  split; [|repeat constructor; set_solver|constructor|done].
  split; [|split; [|done]].
  - unfold node_at. by rewrite hdr_insert, decide_True.
  - intros j Hj. simpl in Hj. cbn [e_addr head_entry].
    rewrite get_next_insert, decide_True by done. simpl.
    by assert (j = 0%nat) as -> by lia.
Qed.

Lemma skiplist_new_Inv m0 g0 w0 :
  skiplist_new m0 g0 = Some w0 → Inv w0 [] ∧ rng w0 = g0.
Proof.
  intros (hd & (Hhd & HRep & Hct & HH) & Hg)%skiplist_new_Inv_at. split; [|done].
  exists hd, 1%nat. split; [done|]. split; [done|]. split; [constructor|done].
Qed.

Lemma delete_not_found {U : Type} fuel w hd H L1 L2 key (udata : U) cb :
  head (sl w) = Ptr hd →
  Rep (mem w) hd H (L1 ++ L2) →
  Forall (λ e, SKIPLIST_CMP (e_key e) key < 0) L1 →
  Forall (λ e, 0 ≤ SKIPLIST_CMP (e_key e) key) L2 →
  match L2 with
  | [] => True
  | e :: _ => SKIPLIST_CMP (e_key e) key ≠ 0
  end →
  (length L1 + H ≤ fuel)%nat →
  delete_one_or_all fuel w key udata cb = Some (vNULL, udata, w).
Proof.
  intros Hhd HRep Hlt Hge Hne Hfuel.
  destruct (Rep_head_deref _ _ _ _ HRep) as (hnx & Hdh & Hlenh).
  pose proof (init_prevs_spec _ _ _ _ _ key fuel HRep Hlt Hge Hfuel) as Hprevs.
  destruct HRep as [Hc _ Hh HH].
  change (head_entry hd H :: L1 ++ L2) with ((head_entry hd H :: L1) ++ L2) in Hc.
  apply chain_to_app in Hc as [Hc1 Hc2]. rewrite app_nil_r in Hc1.
  unfold delete_one_or_all. rewrite Hhd, Hdh. cbn [mbind option_bind node_h].
  rewrite Hprevs. cbn [mbind option_bind].
  rewrite prevs_of_lookup by lia. cbn [mbind option_bind].
  rewrite (get_next_prev (mem w) (head_entry hd H :: L1) L2 0
             (default hd (last_tall 0 L1)) Hc1) by (apply last_tall_head; lia).
  cbn [mbind option_bind]. destruct L2 as [|e L2]; [done|].
  apply Forall_app in Hh as [_ Hh2]. apply Forall_cons in Hh2 as [He _].
  cbn [succ_at]. rewrite decide_True by lia. cbn [IS_SENTINEL].
  destruct Hc2 as (Hnde & _). destruct (node_at_deref _ _ Hnde) as (enx & -> & _).
  cbn [mbind option_bind node_k]. by rewrite bool_decide_eq_false_2.
Qed.

Lemma add_or_set_Inv fuel w L tr key value old :
  Inv w L →
  (length L + SKIPLIST_MAX_HEIGHT ≤ fuel)%nat →
  ∃ rc old' w' L',
    add_or_set fuel w tr key value old = Some (rc, old', w')
    ∧ Inv w' L' ∧ (length L' ≤ S (length L))%nat.
Proof.
  intros (hd & H & Hhd & HRep & Hs & Hct & HH) Hfuel.
  destruct (split_at_key key L Hs) as (L1 & L2 & -> & Hlt & Hge).
  rewrite length_app in Hfuel.
  assert ((∃ e L2', tr = true ∧ L2 = e :: L2' ∧ SKIPLIST_CMP (e_key e) key = 0)
          ∨ (tr = true → match L2 with
                         | [] => True
                         | e :: _ => SKIPLIST_CMP (e_key e) key ≠ 0
                         end)) as [(e & L2' & -> & -> & Heq)|Hnf].
  { destruct tr; [|by right]. destruct L2 as [|e L2']; [by right|].
    destruct (decide (SKIPLIST_CMP (e_key e) key = 0)); [left|by right].
    by exists e, L2'. }
  - (* the key is there: replaced in place *)
    apply Forall_cons in Hge as [_ Hge].
    destruct (set_replace_spec fuel w hd H L1 e L2' key value old Hhd HRep Hlt Heq Hge
                ltac:(lia)) as (nx & _ & Hrun & HRep').
    eexists _, _, _, _. split; [exact Hrun|]. split.
    + exists hd, H. cbn [sl mem]. split; [done|]. split; [done|].
      split; [by apply key_sorted_set_val|]. split; [|done].
      rewrite Hct, !length_app. done.
    + rewrite !length_app. simpl. lia.
  - (* a new node *)
    rewrite (add_or_set_not_found fuel w hd H L1 L2 tr key value old) by (done || lia).
    destruct (SKIPLIST_GEN_HEIGHT (rng w)) as [h' g'] eqn:Hgen.
    pose proof (gen_height_range _ _ _ Hgen) as Hh'.
    destruct (SKIPLIST_MALLOC (mem w) h') as [a|] eqn:Ha.
    + destruct (decide (h' ≤ H)%nat) as [Hlow|Hhigh].
      * destruct (add_new_node_low w hd H L1 L2 key value (old_if_absent tr L2 old)
                    h' g' a Hhd HRep Hgen ltac:(lia) Ha) as (m' & Hrun & HRep').
        eexists _, _, _, _. split; [exact Hrun|]. split.
        -- exists hd, H. cbn [sl mem head count]. split; [done|]. split; [done|].
           split; [by apply key_sorted_insert|]. split; [|done].
           rewrite Hct, count_inc_length. f_equal. rewrite !length_app. simpl. lia.
        -- rewrite !length_app. simpl. lia.
      * destruct (SKIPLIST_MALLOC
                    (<[a := mkN h' key value (replicate h' SENTINEL)]> (mem w)) h')
          as [b|] eqn:Hb.
        -- destruct (add_new_node_grow w hd H L1 L2 key value (old_if_absent tr L2 old)
                       h' g' a b Hhd HRep Hgen ltac:(lia) Ha Hb) as (m' & Hrun & HRep').
           eexists _, _, _, _. split; [exact Hrun|]. split.
           ++ exists b, h'. cbn [sl mem head count]. split; [done|]. split; [done|].
              split; [by apply key_sorted_insert|]. split; [|lia].
              rewrite Hct, count_inc_length. f_equal. rewrite !length_app. simpl. lia.
           ++ rewrite !length_app. simpl. lia.
        -- destruct (Rep_head_deref _ _ _ _ HRep) as (hnx & Hdh & Hlenh).
           rewrite (add_new_node_fail_head w hd H vSENTINEL vSENTINEL _ key value _
                      h' g' a Hhd) by (done || lia || apply HRep).
           eexists _, _, _, (L1 ++ L2). split; [done|]. split; [|lia].
           exists hd, H. cbn [sl mem]. split; [done|].
           split; [apply Rep_insert_fresh; [done|by eapply malloc_fresh]|done].
    + rewrite (add_new_node_fail_node w (Ptr hd) H _ key value _ h' g' Hgen Ha).
      eexists _, _, _, (L1 ++ L2). split; [done|]. split; [|lia].
      by exists hd, H.
Qed.

Lemma delete_Inv {U : Type} fuel w L key (udata : U) cb :
  Inv w L →
  (length L + SKIPLIST_MAX_HEIGHT < fuel)%nat →
  ∃ res udata' w' L',
    delete_one_or_all fuel w key udata cb = Some (res, udata', w')
    ∧ Inv w' L' ∧ (length L' ≤ length L)%nat.
Proof.
  intros (hd & H & Hhd & HRep & Hs & Hct & HH) Hfuel.
  destruct (split_at_key key L Hs) as (L1 & L2 & -> & Hlt & Hge).
  destruct (split_run key L2) as (R & L3 & -> & HR & H3).
  rewrite !length_app in Hfuel.
  destruct R as [|d R].
  - (* no node with that key *)
    rewrite (delete_not_found fuel w hd H L1 L3 key udata cb) by (done || lia).
    eexists _, _, _, (L1 ++ L3). split; [done|]. split; [|done].
    by exists hd, H.
  - destruct cb as [f|].
    + (* delete all *)
      apply Forall_app in Hge as [_ Hge3].
      destruct (delete_all_spec fuel w hd H L1 d R L3 key udata f Hhd HRep Hlt HR Hge3 H3)
        as (m' & Hrun & HRep'); [lia|simpl in Hfuel; lia|].
      eexists _, _, _, (L1 ++ L3). split; [exact Hrun|]. split.
      * exists hd, H. cbn [sl mem head count]. split; [done|]. split; [done|].
        split; [by eapply key_sorted_remove|]. split; [|done].
        rewrite Hct. rewrite <- (count_dec_iter (S (length R)) (length (L1 ++ L3))).
        do 2 f_equal. rewrite !length_app. cbn [length]. lia.
      * rewrite !length_app. simpl. lia.
    + (* delete one *)
      apply Forall_cons in HR as [Hd HR]. cbn [app] in *.
      destruct (delete_one_spec fuel w hd H L1 d (R ++ L3) key udata Hhd HRep Hlt Hd)
        as (m' & Hrun & HRep').
      { by apply Forall_cons in Hge as [_ ?]. }
      { lia. }
      eexists _, _, _, (L1 ++ R ++ L3). split; [exact Hrun|]. split.
      * exists hd, H. cbn [sl mem head count]. split; [done|]. split; [done|].
        split; [by apply (key_sorted_remove L1 [d])|]. split; [|done].
        rewrite Hct. rewrite <- (count_dec_length (length (L1 ++ R ++ L3))).
        do 2 f_equal. rewrite !length_app. cbn [length]. rewrite !length_app. lia.
      * rewrite !length_app. cbn [length]. rewrite !length_app. lia.
Qed.

Lemma pop_first_Inv w L key value :
  Inv w L →
  ∃ rc key' value' w' L',
    skiplist_pop_first w key value = Some (rc, key', value', w')
    ∧ Inv w' L' ∧ (length L' ≤ length L)%nat.
Proof.
  intros (hd & H & Hhd & HRep & Hs & Hct & HH). destruct L as [|f L].
  - rewrite (pop_first_empty w hd H key value Hhd HRep).
    eexists _, _, _, _, []. split; [done|]. split; [|done]. by exists hd, H.
  - destruct (pop_first_spec w hd H f L key value Hhd HRep) as (m' & Hrun & HRep').
    eexists _, _, _, _, L. split; [exact Hrun|]. split; [|simpl; lia].
    exists hd, H. cbn [sl mem head count]. split; [done|]. split; [done|].
    split; [by apply StronglySorted_inv in Hs as [? _]|]. split; [|done].
    rewrite Hct. apply count_dec_length.
Qed.

Lemma pop_last_Inv fuel w L key value :
  Inv w L →
  (length L + SKIPLIST_MAX_HEIGHT < fuel)%nat →
  ∃ rc key' value' w' L',
    skiplist_pop_last fuel w key value = Some (rc, key', value', w')
    ∧ Inv w' L' ∧ (length L' ≤ length L)%nat.
Proof.
  intros (hd & H & Hhd & HRep & Hs & Hct & HH) Hfuel.
  destruct (decide (count (sl w) = 0)) as [Hz|Hnz].
  - rewrite (pop_last_count_zero fuel w hd H L key value Hhd HRep Hz).
    eexists _, _, _, _, L. split; [done|]. split; [|done]. by exists hd, H.
  - destruct L as [|l L _] using rev_ind.
    { exfalso. apply Hnz. rewrite Hct. simpl. by apply Zmod_0_l. }
    rewrite length_app in Hfuel.
    destruct (pop_last_spec fuel w hd H L l key value Hhd HRep Hnz ltac:(lia))
      as (m' & Hrun & HRep').
    eexists _, _, _, _, L. split; [exact Hrun|]. split; [|rewrite length_app; lia].
    exists hd, H. cbn [sl mem head count]. split; [done|]. split; [done|].
    split; [by apply key_sorted_app in Hs as [? _]|]. split; [|done].
    rewrite Hct, length_app. simpl. rewrite Nat.add_1_r. apply count_dec_length.
Qed.

Lemma apply_op_Inv fuel w L o :
  Inv w L →
  (length L + SKIPLIST_MAX_HEIGHT < fuel)%nat →
  ∃ w' L', apply_op fuel w o = Some w' ∧ Inv w' L' ∧ (length L' ≤ S (length L))%nat.
Proof.
  intros HInv Hfuel. destruct o as [k v|k v old|k|k udata cb|k v|k v]; cbn [apply_op].
  - destruct (add_or_set_Inv fuel w L false k v None HInv ltac:(lia))
      as (rc & old' & w' & L' & Hrun & HInv' & Hlen).
    exists w', L'. unfold skiplist_add. rewrite Hrun. done.
  - destruct (add_or_set_Inv fuel w L true k v old HInv ltac:(lia))
      as (rc & old' & w' & L' & Hrun & HInv' & Hlen).
    exists w', L'. unfold skiplist_set. rewrite Hrun. done.
  - destruct (delete_Inv fuel w L k tt None HInv Hfuel)
      as (res & u' & w' & L' & Hrun & HInv' & Hlen).
    exists w', L'. unfold skiplist_delete. rewrite Hrun.
    split; [done|]. split; [done|lia].
  - destruct (delete_Inv fuel w L k udata (Some cb) HInv Hfuel)
      as (res & u' & w' & L' & Hrun & HInv' & Hlen).
    exists w', L'. unfold skiplist_delete_all. rewrite Hrun.
    split; [done|]. split; [done|lia].
  - destruct (pop_first_Inv w L k v HInv) as (rc & k' & v' & w' & L' & Hrun & HInv' & Hlen).
    exists w', L'. rewrite Hrun. split; [done|]. split; [done|lia].
  - destruct (pop_last_Inv fuel w L k v HInv Hfuel)
      as (rc & k' & v' & w' & L' & Hrun & HInv' & Hlen).
    exists w', L'. rewrite Hrun. split; [done|]. split; [done|lia].
Qed.

Lemma run_Inv fuel ops :
  ∀ w L,
    Inv w L →
    (length L + length ops + SKIPLIST_MAX_HEIGHT < fuel)%nat →
    ∃ w' L', run fuel w ops = Some w' ∧ Inv w' L'
             ∧ (length L' ≤ length L + length ops)%nat.
Proof.
  induction ops as [|o ops IH]; intros w L HInv Hfuel; cbn [run].
  - exists w, L. split; [done|]. split; [done|lia].
  - simpl in Hfuel.
    destruct (apply_op_Inv fuel w L o HInv ltac:(lia)) as (w1 & L1 & -> & HInv1 & Hlen1).
    cbn [mbind option_bind].
    destruct (IH w1 L1 HInv1 ltac:(lia)) as (w' & L' & Hrun & HInv' & Hlen').
    exists w', L'. split; [done|]. split; [done|]. simpl. lia.
Qed.

Lemma key_sorted_pairs L :
  key_sorted L →
  StronglySorted (λ a b, SKIPLIST_CMP a.1 b.1 ≤ 0) (pairs_of L).
Proof.
  induction 1 as [|e L Hs IH Hall]; simpl; constructor; [done|].
  apply Forall_fmap. eapply Forall_impl; [exact Hall|]. done.
Qed.

(** * Runs in which every allocation succeeds *)

Hypothesis malloc_total : ∀ m n, is_Some (SKIPLIST_MALLOC m n).

Lemma top_used_add H L1 L2 e :
  top_used H (L1 ++ L2) → (1 ≤ e_h e)%nat →
  top_used (Nat.max H (e_h e)) (L1 ++ e :: L2).
Proof.
  intros Htop He.
  assert (∃ e', e' ∈ L1 ++ e :: L2 ∧ e_h e' = Nat.max H (e_h e)) as Hex.
  { destruct (decide (e_h e ≤ H)%nat) as [Hle|Hgt].
    - destruct (L1 ++ L2) as [|x L] eqn:HL.
      + exists e. split; [set_solver|]. simpl in Htop. lia.
      + destruct Htop as (e' & He' & Hh'). exists e'. split; [|lia].
        rewrite <- HL in He'. set_solver.
    - exists e. split; [set_solver|lia]. }
  unfold top_used. destruct (L1 ++ e :: L2) eqn:HL; [|done].
  by destruct L1.
Qed.

Lemma top_used_tall H L :
  top_used H L → L ≠ [] → (1 ≤ H)%nat → last_tall (H - 1) L ≠ None.
Proof.
  intros Htop HL HH Hnone. destruct L as [|x L]; [done|].
  destruct Htop as (e & He & Hh). apply last_tall_None in Hnone.
  pose proof (proj1 (Forall_forall _ _) Hnone e He) as Hle. simpl in Hle. lia.
Qed.

(** [skiplist_add] when the allocator does not fail: the new node goes
    in front of the first node that is not before its key, with the
    height the generator hands out. *)
Lemma skiplist_add_ok fuel w hd H L1 L2 key value :
  Inv_at w hd H (L1 ++ L2) →
  Forall (λ e, SKIPLIST_CMP (e_key e) key < 0) L1 →
  Forall (λ e, 0 ≤ SKIPLIST_CMP (e_key e) key) L2 →
  (length L1 + H ≤ fuel)%nat →
  ∃ a hd' w',
    skiplist_add fuel w key value = Some (0, w')
    ∧ rng w' = (SKIPLIST_GEN_HEIGHT (rng w)).2
    ∧ Inv_at w' hd' (Nat.max H (SKIPLIST_GEN_HEIGHT (rng w)).1)
             (L1 ++ mkE a key value (SKIPLIST_GEN_HEIGHT (rng w)).1 :: L2).
Proof.
  intros (Hhd & HRep & Hct & HH) Hlt Hge Hfuel. unfold skiplist_add.
  rewrite (add_or_set_not_found fuel w hd H L1 L2 false key value None) by done.
  destruct (SKIPLIST_GEN_HEIGHT (rng w)) as [h' g'] eqn:Hgen. cbn [fst snd].
  pose proof (gen_height_range _ _ _ Hgen) as Hh'.
  destruct (malloc_total (mem w) h') as [a Ha].
  destruct (decide (h' ≤ H)%nat) as [Hlow|Hhigh].
  - destruct (add_new_node_low w hd H L1 L2 key value (old_if_absent false L2 None)
                h' g' a Hhd HRep Hgen ltac:(lia) Ha) as (m' & Hrun & HRep').
    eexists a, hd, _. rewrite Hrun. cbn [mbind option_bind].
    split; [done|]. split; [done|].
    replace (Nat.max H h') with H by lia.
    split; [done|]. split; [done|]. split; [|done]. cbn [sl count].
    rewrite Hct, count_inc_length. f_equal. rewrite !length_app. cbn [length]. lia.
  - destruct (malloc_total (<[a := mkN h' key value (replicate h' SENTINEL)]> (mem w)) h')
      as [b Hb].
    destruct (add_new_node_grow w hd H L1 L2 key value (old_if_absent false L2 None)
                h' g' a b Hhd HRep Hgen ltac:(lia) Ha Hb) as (m' & Hrun & HRep').
    eexists a, b, _. rewrite Hrun. cbn [mbind option_bind].
    split; [done|]. split; [done|].
    replace (Nat.max H h') with h' by lia.
    split; [done|]. split; [done|]. split; [|lia]. cbn [sl count].
    rewrite Hct, count_inc_length. f_equal. rewrite !length_app. cbn [length]. lia.
Qed.

(** * The claims *)

(** C1. After any sequence of [skiplist_add], [skiplist_set],
    [skiplist_delete], [skiplist_delete_all], [skiplist_pop_first] and
    [skiplist_pop_last] calls on a freshly created skiplist, every call
    returns, and a full [skiplist_iter] shows its visitor the entries in
    non-decreasing key order under the comparator. *)
Theorem C1_iteration_is_sorted (ops : list op) m0 g0 w0 fuel :
  skiplist_new m0 g0 = Some w0 →
  (length ops + SKIPLIST_MAX_HEIGHT < fuel)%nat →
  ∃ w visited,
    run fuel w0 ops = Some w
    ∧ skiplist_iter fuel w [] collect = Some visited
    ∧ StronglySorted (λ a b, SKIPLIST_CMP a.1 b.1 ≤ 0) visited.
Proof.
  intros Hnew Hfuel. destruct (skiplist_new_Inv _ _ _ Hnew) as [HInv _].
  destruct (run_Inv fuel ops w0 [] HInv ltac:(simpl; lia))
    as (w & L & Hrun & (hd & H & Hhd & HRep & Hs & _) & Hlen).
  exists w, (pairs_of L). split; [done|]. split.
  - apply (skiplist_iter_spec fuel w hd H L Hhd HRep). simpl in Hlen. lia.
  - by apply key_sorted_pairs.
Qed.

(** C6. When [add_or_set] has to create a node and the allocation of the
    node, or of the taller head the node calls for, fails, the call
    returns -1 and the skiplist is as before: [count] and [head] are
    unchanged, every block that was in the heap is unchanged, and the
    skiplist is still well-formed with the same nodes. *)
Theorem C6_allocation_failure fuel w L tr key value old h' g' :
  Inv w L →
  (tr = true → Forall (λ e, SKIPLIST_CMP (e_key e) key ≠ 0) L) →
  SKIPLIST_GEN_HEIGHT (rng w) = (h', g') →
  SKIPLIST_MALLOC (mem w) h' = None
  ∨ (∃ a hn, SKIPLIST_MALLOC (mem w) h' = Some a
             ∧ deref (mem w) (head (sl w)) = Some hn
             ∧ (node_h hn < h')%nat
             ∧ SKIPLIST_MALLOC
                 (<[a := mkN h' key value (replicate h' SENTINEL)]> (mem w)) h' = None) →
  (length L + SKIPLIST_MAX_HEIGHT ≤ fuel)%nat →
  ∃ old' w',
    add_or_set fuel w tr key value old = Some (-1, old', w')
    ∧ sl w' = sl w
    ∧ (∀ x n, mem w !! x = Some n → mem w' !! x = Some n)
    ∧ Inv w' L.
Proof.
  intros (hd & H & Hhd & HRep & Hs & Hct & HH) Habsent Hgen Hfail Hfuel.
  destruct (split_at_key key L Hs) as (L1 & L2 & -> & Hlt & Hge).
  rewrite length_app in Hfuel.
  rewrite (add_or_set_not_found fuel w hd H L1 L2 tr key value old); try done.
  - destruct Hfail as [Ha|(a & hn & Ha & Hdh & Htall & Hb)].
    + rewrite (add_new_node_fail_node w (Ptr hd) H _ key value _ h' g' Hgen Ha).
      eexists _, _. split; [done|]. split; [done|]. split; [done|].
      by exists hd, H.
    + destruct (Rep_head_deref _ _ _ _ HRep) as (hnx & Hdh' & Hlenh).
      rewrite Hhd, Hdh' in Hdh. injection Hdh as <-. cbn [node_h] in Htall.
      pose proof (malloc_fresh _ _ _ Ha) as Hfresh.
      rewrite (add_new_node_fail_head w hd H vSENTINEL vSENTINEL _ key value _
                 h' g' a Hhd) by (done || apply HRep).
      eexists _, _. split; [done|]. cbn [sl mem]. split; [done|]. split.
      * intros x n Hx. rewrite lookup_insert_ne; [done|]. intros ->. congruence.
      * exists hd, H. cbn [sl mem]. split; [done|].
        split; [by apply Rep_insert_fresh|done].
  - intros ->. specialize (Habsent eq_refl). apply Forall_app in Habsent as [_ Hab].
    destruct L2 as [|e L2]; [done|]. by apply Forall_cons in Hab as [? _].
  - lia.
Qed.

(** C10. When the first node with key [key] in level-0 order is [e]
    (all nodes before it are smaller, nodes after it may be equal),
    [skiplist_set] returns 0 with the old value of [e] in [*old] and
    changes nothing but the value stored in the block of [e]: no node is
    inserted, the forward pointers of [e] and every other block, [count]
    and [head] are as before. *)
Theorem C10_set_replaces_first_duplicate fuel w L1 e L2 key value old :
  Inv w (L1 ++ e :: L2) →
  Forall (λ x, SKIPLIST_CMP (e_key x) key < 0) L1 →
  SKIPLIST_CMP (e_key e) key = 0 →
  (length (L1 ++ e :: L2) + SKIPLIST_MAX_HEIGHT ≤ fuel)%nat →
  ∃ nx,
    mem w !! e_addr e = Some (mkN (e_h e) (e_key e) (e_val e) nx)
    ∧ skiplist_set fuel w key value old
      = Some (0, out_write old (e_val e),
              mkW (<[e_addr e := mkN (e_h e) (e_key e) value nx]> (mem w))
                  (sl w) (rng w))
    ∧ Inv (mkW (<[e_addr e := mkN (e_h e) (e_key e) value nx]> (mem w)) (sl w) (rng w))
          (L1 ++ mkE (e_addr e) (e_key e) value (e_h e) :: L2).
Proof.
  intros (hd & H & Hhd & HRep & Hs & Hct & HH) Hlt Heq Hfuel.
  rewrite length_app in Hfuel.
  assert (Forall (λ x, 0 ≤ SKIPLIST_CMP (e_key x) key) L2) as Hge.
  { apply key_sorted_app in Hs as (_ & Hs2 & _).
    apply StronglySorted_inv in Hs2 as [_ Hall].
    eapply Forall_impl; [exact Hall|]. simpl. intros x Hx.
    apply (cmp_ge_le_trans (e_key e)); [lia|done]. }
  destruct (set_replace_spec fuel w hd H L1 e L2 key value old Hhd HRep Hlt Heq Hge
              ltac:(lia)) as (nx & Hme & Hrun & HRep').
  exists nx. split; [done|]. split; [done|].
  exists hd, H. cbn [sl mem]. split; [done|]. split; [done|].
  split; [by apply key_sorted_set_val|]. split; [|done].
  rewrite Hct, !length_app. done.
Qed.

(** C5 (amended). When the first node with key [key] is [e],
    [skiplist_get] returns the value of [e], and [skiplist_member]
    returns true exactly when that value is not null: a stored null
    value reads like a missing key. *)
Theorem C5_get_member_first_value fuel w L1 e L2 key :
  Inv w (L1 ++ e :: L2) →
  Forall (λ x, SKIPLIST_CMP (e_key x) key < 0) L1 →
  SKIPLIST_CMP (e_key e) key = 0 →
  (length (L1 ++ e :: L2) + SKIPLIST_MAX_HEIGHT ≤ fuel)%nat →
  skiplist_get fuel w key = Some (e_val e)
  ∧ skiplist_member fuel w key = Some (if decide (e_val e ≠ vNULL) then 1 else 0).
Proof.
  intros (hd & H & Hhd & HRep & Hs & Hct & HH) Hlt Heq Hfuel.
  rewrite length_app in Hfuel.
  assert (Forall (λ x, 0 ≤ SKIPLIST_CMP (e_key x) key) (e :: L2)) as Hge.
  { apply key_sorted_app in Hs as (_ & Hs2 & _).
    apply StronglySorted_inv in Hs2 as [_ Hall]. constructor; [lia|].
    eapply Forall_impl; [exact Hall|]. simpl. intros x Hx.
    apply (cmp_ge_le_trans (e_key e)); [lia|done]. }
  assert (skiplist_get fuel w key = Some (e_val e)) as Hget.
  { rewrite (skiplist_get_spec fuel w hd H L1 (e :: L2) key) by (done || lia).
    by rewrite decide_True. }
  split; [done|]. unfold skiplist_member. by rewrite Hget.
Qed.

Lemma cmp_refl a : SKIPLIST_CMP a a = 0.
Proof. destruct (cmp_flip a a) as [H1 H2]. lia. Qed.

Lemma add_step fuel w hd H L1 L2 key value :
  Inv_at w hd H (L1 ++ L2) →
  top_used H (L1 ++ L2) →
  Forall (λ e, SKIPLIST_CMP (e_key e) key < 0) L1 →
  Forall (λ e, 0 ≤ SKIPLIST_CMP (e_key e) key) L2 →
  (length L1 + SKIPLIST_MAX_HEIGHT ≤ fuel)%nat →
  ∃ a h hd' H' w',
    skiplist_add fuel w key value = Some (0, w')
    ∧ Inv_at w' hd' H' (L1 ++ mkE a key value h :: L2)
    ∧ top_used H' (L1 ++ mkE a key value h :: L2).
Proof.
  intros HInv Htop Hlt Hge Hfuel. pose proof HInv as (_ & _ & _ & HH).
  destruct (skiplist_add_ok fuel w hd H L1 L2 key value HInv Hlt Hge ltac:(lia))
    as (a & hd' & w' & Hrun & _ & HInv').
  destruct (SKIPLIST_GEN_HEIGHT (rng w)) as [h g'] eqn:Hgen. cbn [fst snd] in HInv'.
  pose proof (gen_height_range _ _ _ Hgen) as Hh.
  exists a, h, hd', (Nat.max H h), w'. split; [done|]. split; [done|].
  by apply (top_used_add H L1 L2 (mkE a key value h)); [|simpl; lia].
Qed.

Lemma pop_first_ok w hd H f L key value :
  Inv_at w hd H (f :: L) →
  ∃ w', skiplist_pop_first w key value
        = Some (0, out_write key (e_key f), out_write value (e_val f), w')
        ∧ Inv_at w' hd H L.
Proof.
  intros (Hhd & HRep & Hct & HH).
  destruct (pop_first_spec w hd H f L key value Hhd HRep) as (m' & Hrun & HRep').
  eexists. split; [exact Hrun|]. split; [done|]. split; [done|]. split; [|done].
  cbn [sl count]. rewrite Hct. apply count_dec_length.
Qed.

Lemma iter_at fuel w hd H L :
  Inv_at w hd H L → (length L < fuel)%nat →
  skiplist_iter fuel w [] collect = Some (pairs_of L).
Proof. intros (Hhd & HRep & _) Hfuel. by eapply skiplist_iter_spec. Qed.

(** On a freshly created skiplist whose comparator compares keys as
    integers and whose allocator does not fail, after [skiplist_add] of
    the keys 5, 3, 8, 1 (whatever the values and the heights drawn),
    [skiplist_first] gives key 1, [skiplist_last] gives key 8, four
    [skiplist_pop_first] calls give the keys 1, 3, 5, 8 in that order,
    and then [count] is 0 and the skiplist is empty.  The head of a
    fresh skiplist has one level, so some node reaches its top level
    after every add; that is what [skiplist_last] relies on. *)
Theorem fresh_first_last_pop_first m0 g0 w0 v5 v3 v8 v1 fuel :
  (∀ a b, SKIPLIST_CMP a b < 0 ↔ a < b) →
  skiplist_new m0 g0 = Some w0 →
  (4 + SKIPLIST_MAX_HEIGHT ≤ fuel)%nat →
  ∃ w1 w2 w3 w4 w5 w6 w7 w8,
    skiplist_add fuel w0 5 v5 = Some (0, w1)
    ∧ skiplist_add fuel w1 3 v3 = Some (0, w2)
    ∧ skiplist_add fuel w2 8 v8 = Some (0, w3)
    ∧ skiplist_add fuel w3 1 v1 = Some (0, w4)
    ∧ skiplist_first w4 (Some 0) (Some 0) = Some (0, Some 1, Some v1)
    ∧ skiplist_last fuel w4 (Some 0) (Some 0) = Some (0, Some 8, Some v8)
    ∧ skiplist_pop_first w4 (Some 0) (Some 0) = Some (0, Some 1, Some v1, w5)
    ∧ skiplist_pop_first w5 (Some 0) (Some 0) = Some (0, Some 3, Some v3, w6)
    ∧ skiplist_pop_first w6 (Some 0) (Some 0) = Some (0, Some 5, Some v5, w7)
    ∧ skiplist_pop_first w7 (Some 0) (Some 0) = Some (0, Some 8, Some v8, w8)
    ∧ skiplist_count w8 = 0
    ∧ skiplist_empty w8 = true
    ∧ skiplist_pop_first w8 (Some 0) (Some 0) = Some (-1, Some 0, Some 0, w8)
    ∧ skiplist_iter fuel w8 [] collect = Some [].
Proof.
  intros Hcmp Hnew Hfuel.
  assert (∀ a b, ¬ a < b → 0 ≤ SKIPLIST_CMP a b) as Hge.
  { intros a b Hab. destruct (Hcmp a b) as [Hlt _]. lia. }
  destruct (skiplist_new_Inv_at _ _ _ Hnew) as (hd0 & HInv0 & _).
  destruct (add_step fuel w0 hd0 1 [] [] 5 v5 HInv0)
    as (a5 & h5 & hd1 & H1 & w1 & Hadd1 & HInv1 & Htop1);
    [done|constructor|constructor|simpl; lia|].
  destruct (add_step fuel w1 hd1 H1 [] [mkE a5 5 v5 h5] 3 v3 HInv1 Htop1)
    as (a3 & h3 & hd2 & H2 & w2 & Hadd2 & HInv2 & Htop2);
    [constructor|repeat constructor; simpl; apply Hge; lia|simpl; lia|].
  destruct (add_step fuel w2 hd2 H2 [mkE a3 3 v3 h3; mkE a5 5 v5 h5] [] 8 v8)
    as (a8 & h8 & hd3 & H3 & w3 & Hadd3 & HInv3 & Htop3);
    [done|done|repeat constructor; simpl; apply Hcmp; lia|constructor|simpl; lia|].
  destruct (add_step fuel w3 hd3 H3 []
              [mkE a3 3 v3 h3; mkE a5 5 v5 h5; mkE a8 8 v8 h8] 1 v1 HInv3 Htop3)
    as (a1 & h1 & hd4 & H4 & w4 & Hadd4 & HInv4 & Htop4);
    [constructor|repeat constructor; simpl; apply Hge; lia|simpl; lia|].
  cbn [app] in *.
  set (e1 := mkE a1 1 v1 h1) in *. set (e3 := mkE a3 3 v3 h3) in *.
  set (e5 := mkE a5 5 v5 h5) in *. set (e8 := mkE a8 8 v8 h8) in *.
  destruct (pop_first_ok w4 hd4 H4 e1 [e3; e5; e8] (Some 0) (Some 0) HInv4)
    as (w5 & Hpop5 & HInv5).
  destruct (pop_first_ok w5 hd4 H4 e3 [e5; e8] (Some 0) (Some 0) HInv5)
    as (w6 & Hpop6 & HInv6).
  destruct (pop_first_ok w6 hd4 H4 e5 [e8] (Some 0) (Some 0) HInv6)
    as (w7 & Hpop7 & HInv7).
  destruct (pop_first_ok w7 hd4 H4 e8 [] (Some 0) (Some 0) HInv7)
    as (w8 & Hpop8 & HInv8).
  exists w1, w2, w3, w4, w5, w6, w7, w8.
  pose proof HInv4 as (Hhd4 & HRep4 & Hct4 & HH4).
  pose proof HInv8 as (Hhd8 & HRep8 & Hct8 & HH8).
  assert (skiplist_count w8 = 0) as Hzero.
  { unfold skiplist_count. rewrite Hct8. simpl. by rewrite Zmod_0_l. }
  repeat (split; [done|]).
  split; [by rewrite (skiplist_first_spec w4 hd4 H4 _ _ _ Hhd4 HRep4)|].
  split.
  { apply (skiplist_last_spec fuel w4 hd4 H4 [e1; e3; e5] e8); [done|done| |simpl; lia].
    apply (top_used_tall H4 [e1; e3; e5; e8]); [done|done|apply HRep4]. }
  repeat (split; [done|]).
  split; [unfold skiplist_empty; by rewrite bool_decide_eq_true_2|].
  split; [by apply (pop_first_empty w8 hd4 H4)|].
  apply (iter_at fuel w8 hd4 H4 []); [done|simpl; lia].
Qed.

(** C3 (amended). Nodes with equal keys are kept newest first. On a
    freshly created skiplist whose allocator does not fail, after
    [skiplist_add] of (5, a), (5, b), (5, c) in that order, a full
    iteration shows c, b, a;
    [skiplist_delete] of 5 removes exactly one node, the last one
    inserted, and returns c, leaving b, a in that order and [count] one
    less; [skiplist_delete_all] of 5 instead removes all three, shows its
    visitor c, b, a in that order and takes 3 off [count]. *)
Theorem C3_duplicates_newest_first m0 g0 w0 va vb vc fuel :
  skiplist_new m0 g0 = Some w0 →
  (3 + SKIPLIST_MAX_HEIGHT < fuel)%nat →
  ∃ w1 w2 w3 w4 w5,
    skiplist_add fuel w0 5 va = Some (0, w1)
    ∧ skiplist_add fuel w1 5 vb = Some (0, w2)
    ∧ skiplist_add fuel w2 5 vc = Some (0, w3)
    ∧ skiplist_iter fuel w3 [] collect = Some [(5, vc); (5, vb); (5, va)]
    ∧ skiplist_delete fuel w3 5 = Some (vc, w4)
    ∧ skiplist_iter fuel w4 [] collect = Some [(5, vb); (5, va)]
    ∧ skiplist_count w4 = count_dec (skiplist_count w3)
    ∧ skiplist_delete_all fuel w3 5 [] record_value = Some ([vc; vb; va], w5)
    ∧ skiplist_iter fuel w5 [] collect = Some []
    ∧ skiplist_count w5 = count_dec (count_dec (count_dec (skiplist_count w3)))
    ∧ skiplist_count w5 = 0.
Proof.
  intros Hnew Hfuel.
  pose proof (cmp_refl 5) as H55.
  destruct (skiplist_new_Inv_at _ _ _ Hnew) as (hd0 & HInv0 & _).
  destruct (add_step fuel w0 hd0 1 [] [] 5 va HInv0)
    as (aa & ha & hd1 & H1 & w1 & Hadd1 & HInv1 & Htop1);
    [done|constructor|constructor|simpl; lia|].
  destruct (add_step fuel w1 hd1 H1 [] [mkE aa 5 va ha] 5 vb HInv1 Htop1)
    as (ab & hb & hd2 & H2 & w2 & Hadd2 & HInv2 & Htop2);
    [constructor|repeat constructor; simpl; lia|simpl; lia|].
  destruct (add_step fuel w2 hd2 H2 [] [mkE ab 5 vb hb; mkE aa 5 va ha] 5 vc HInv2 Htop2)
    as (ac & hc & hd3 & H3 & w3 & Hadd3 & HInv3 & Htop3);
    [constructor|repeat constructor; simpl; lia|simpl; lia|].
  cbn [app] in *.
  set (ea := mkE aa 5 va ha) in *. set (eb := mkE ab 5 vb hb) in *.
  set (ec := mkE ac 5 vc hc) in *.
  pose proof HInv3 as (Hhd3 & HRep3 & Hct3 & HH3).
  destruct (delete_one_spec fuel w3 hd3 H3 [] ec [eb; ea] 5 tt Hhd3 HRep3)
    as (m4 & Hdel & HRep4);
    [constructor|done|repeat constructor; simpl; lia|simpl; lia|].
  destruct (delete_all_spec fuel w3 hd3 H3 [] ec [eb; ea] [] 5 [] record_value Hhd3 HRep3)
    as (m5 & Hdall & HRep5);
    [constructor|repeat constructor; simpl; lia|constructor|done|simpl; lia|simpl; lia|].
  eexists w1, w2, w3, _, _. repeat (split; [done|]).
  split; [by apply (iter_at fuel w3 hd3 H3 [ec; eb; ea]); [|simpl; lia]|].
  split; [unfold skiplist_delete; rewrite Hdel; done|].
  split; [by apply (skiplist_iter_spec fuel _ hd3 H3 [eb; ea]); [| |simpl; lia]|].
  split; [done|].
  split; [unfold skiplist_delete_all; rewrite Hdall; done|].
  split; [by apply (skiplist_iter_spec fuel _ hd3 H3 []); [| |simpl; lia]|].
  split; [done|].
  unfold skiplist_count. cbn [sl count length]. rewrite Hct3.
  change (length [ec; eb; ea]) with (3 + 0)%nat.
  rewrite (count_dec_iter 3 0). by rewrite Zmod_0_l.
Qed.

Lemma triples_of_insert L1 L2 e :
  triples_of (L1 ++ e :: L2) ≡ₚ triples_of (L1 ++ L2) ++ [(e_key e, e_val e, e_h e)].
Proof.
  unfold triples_of. rewrite !fmap_app, fmap_cons.
  rewrite <- (assoc_L (++)). apply Permutation_app_head.
  apply Permutation_cons_append.
Qed.

(** A batch of [skiplist_add] calls: the [i]-th pair goes in with the
    [i]-th height the generator hands out. *)
Lemma add_all_ok fuel kvs :
  ∀ w hd H L,
    Inv_at w hd H L → key_sorted L →
    (length L + length kvs + SKIPLIST_MAX_HEIGHT ≤ fuel)%nat →
    ∃ w' hd' H' L',
      add_all fuel w kvs = Some (replicate (length kvs) 0, w')
      ∧ Inv_at w' hd' H' L' ∧ key_sorted L'
      ∧ triples_of L' ≡ₚ
        triples_of L ++ with_heights kvs (draw_heights (rng w) (length kvs)).
Proof.
  induction kvs as [|[key value] kvs IH]; intros w hd H L HInv Hs Hfuel.
  - exists w, hd, H, L. split; [done|]. split; [done|]. split; [done|].
    simpl. by rewrite app_nil_r.
  - destruct (split_at_key key L Hs) as (L1 & L2 & -> & Hlt & Hge).
    pose proof HInv as (_ & _ & _ & HH).
    cbn [length] in Hfuel. rewrite length_app in Hfuel.
    destruct (skiplist_add_ok fuel w hd H L1 L2 key value HInv Hlt Hge ltac:(lia))
      as (a & hd1 & w1 & Hadd & Hrng & HInv1).
    destruct (SKIPLIST_GEN_HEIGHT (rng w)) as [h g'] eqn:Hgen. cbn [fst snd] in *.
    destruct (IH w1 hd1 (Nat.max H h) (L1 ++ mkE a key value h :: L2) HInv1)
      as (w' & hd' & H' & L' & Hrun & HInv' & Hs' & Hperm).
    { by apply key_sorted_insert. }
    { rewrite length_app. cbn [length]. lia. }
    exists w', hd', H', L'. cbn [add_all]. rewrite Hadd. cbn [mbind option_bind].
    rewrite Hrun. cbn [mbind option_bind length replicate].
    split; [done|]. split; [done|]. split; [done|].
    rewrite Hperm, Hrng, triples_of_insert. cbn [draw_heights]. rewrite Hgen.
    cbn [with_heights zip_with fst snd e_key e_val e_h].
    by rewrite <- (assoc_L (++)).
Qed.

(** C9. Two runs that set the same seed with [skiplist_set_seed] and
    then insert the same number of pairs into freshly created skiplists
    (no allocation failing) give the [i]-th inserted pair the same height
    in both runs, whatever the keys and values: the heights are those the
    generator hands out from the seed, in order. *)
Theorem C9_same_seed_same_heights seed kvs1 kvs2 m1 g1 wa m2 g2 wb fuel :
  skiplist_new m1 g1 = Some wa →
  skiplist_new m2 g2 = Some wb →
  length kvs1 = length kvs2 →
  (length kvs1 + SKIPLIST_MAX_HEIGHT ≤ fuel)%nat →
  ∃ wa' wb' La Lb,
    add_all fuel (skiplist_set_seed wa seed) kvs1 = Some (replicate (length kvs1) 0, wa')
    ∧ add_all fuel (skiplist_set_seed wb seed) kvs2 = Some (replicate (length kvs2) 0, wb')
    ∧ Inv wa' La ∧ Inv wb' Lb
    ∧ triples_of La ≡ₚ with_heights kvs1 (draw_heights (srandom seed) (length kvs1))
    ∧ triples_of Lb ≡ₚ with_heights kvs2 (draw_heights (srandom seed) (length kvs1)).
Proof.
  intros Hnewa Hnewb Hlen Hfuel.
  destruct (skiplist_new_Inv_at _ _ _ Hnewa) as (hda & HInva & _).
  destruct (skiplist_new_Inv_at _ _ _ Hnewb) as (hdb & HInvb & _).
  destruct (add_all_ok fuel kvs1 (skiplist_set_seed wa seed) hda 1 [])
    as (wa' & hda' & Ha' & La & Hruna & HInva' & Hsa & Hpa);
    [done|constructor|simpl; lia|].
  destruct (add_all_ok fuel kvs2 (skiplist_set_seed wb seed) hdb 1 [])
    as (wb' & hdb' & Hb' & Lb & Hrunb & HInvb' & Hsb & Hpb);
    [done|constructor|simpl; lia|].
  exists wa', wb', La, Lb. split; [done|]. split; [done|].
  split; [destruct HInva' as (? & ? & ? & ?); by exists hda', Ha'|].
  split; [destruct HInvb' as (? & ? & ? & ?); by exists hdb', Hb'|].
  split; [done|]. rewrite Hlen. done.
Qed.

(** * Further properties of the operations *)

(** ** Lookup *)

Lemma split_absent key L1 L2 :
  Forall (λ e, SKIPLIST_CMP (e_key e) key ≠ 0) (L1 ++ L2) →
  match L2 with
  | [] => True
  | e :: _ => SKIPLIST_CMP (e_key e) key ≠ 0
  end.
Proof.
  intros Hab. apply Forall_app in Hab as [_ Hab].
  destruct L2 as [|e L2]; [done|]. by apply Forall_cons in Hab as [? _].
Qed.

(** In a sorted list split at [key], the key is stored exactly when the
    first node that is not smaller compares equal. *)
Lemma stored_split key L1 L2 :
  Forall (λ e, SKIPLIST_CMP (e_key e) key < 0) L1 →
  Forall (λ e, 0 ≤ SKIPLIST_CMP (e_key e) key) L2 →
  key_sorted (L1 ++ L2) →
  stored key (L1 ++ L2) ↔
  match L2 with
  | [] => False
  | e :: _ => SKIPLIST_CMP (e_key e) key = 0
  end.
Proof.
  intros Hlt Hge Hs. unfold stored. rewrite Exists_app. split.
  - intros [Hex|Hex].
    + apply Exists_exists in Hex as (e & Hin & Heq).
      rewrite Forall_forall in Hlt. specialize (Hlt e Hin). cbn beta in Hlt. lia.
    + destruct L2 as [|e L2]; [by apply Exists_nil in Hex|].
      apply Exists_cons in Hex as [Heq|Hex]; [done|].
      apply Exists_exists in Hex as (x & Hin & Heq).
      apply key_sorted_app in Hs as (_ & Hs2 & _).
      apply StronglySorted_inv in Hs2 as [_ Hall].
      rewrite Forall_forall in Hall. specialize (Hall x Hin). cbn beta in Hall.
      apply Forall_cons in Hge as [Hge _].
      assert (SKIPLIST_CMP (e_key e) key ≤ 0) as Hle.
      { apply (cmp_trans _ (e_key x)); [done|lia]. }
      lia.
  - destruct L2 as [|e L2]; [done|]. intros Heq. right. by apply Exists_cons_hd.
Qed.

(** X1. For a key that is not stored, [skiplist_get] returns null,
    [skiplist_member] returns false and [skiplist_iter_from] returns -1
    without calling the visitor, also when greater keys are stored. *)
Theorem lookup_missing_key {U : Type} fuel w L key (udata : U) cb :
  Inv w L →
  ¬ stored key L →
  (length L + SKIPLIST_MAX_HEIGHT ≤ fuel)%nat →
  skiplist_get fuel w key = Some vNULL
  ∧ skiplist_member fuel w key = Some 0
  ∧ skiplist_iter_from fuel w key udata cb = Some (-1, udata).
Proof.
  intros (hd & H & Hhd & HRep & Hs & Hct & HH) Habs Hfuel.
  destruct (split_at_key key L Hs) as (L1 & L2 & -> & Hlt & Hge).
  rewrite length_app in Hfuel.
  rewrite (stored_split key L1 L2 Hlt Hge Hs) in Habs.
  assert (skiplist_get fuel w key = Some vNULL) as Hget.
  { rewrite (skiplist_get_spec fuel w hd H L1 L2 key) by (done || lia).
    destruct L2 as [|e L2]; [done|]. by rewrite decide_False. }
  split; [done|]. split.
  - unfold skiplist_member. rewrite Hget. cbn [mbind option_bind].
    by rewrite decide_False by (intros Hx; by apply Hx).
  - unfold skiplist_iter_from.
    rewrite (get_first_eq_node_spec fuel w hd H L1 L2 key) by (done || lia).
    cbn [mbind option_bind]. unfold first_eq.
    destruct L2 as [|e L2]; [done|]. by rewrite decide_False.
Qed.

(** X2. [skiplist_member] never reports a key that is not stored, and
    reports every stored key when no stored value is null. *)
Theorem member_exact_without_null fuel w L key :
  Inv w L →
  (length L + SKIPLIST_MAX_HEIGHT ≤ fuel)%nat →
  ∃ b, skiplist_member fuel w key = Some b
       ∧ (b = 0 ∨ b = 1)
       ∧ (b = 1 → stored key L)
       ∧ (Forall (λ e, e_val e ≠ vNULL) L → stored key L → b = 1).
Proof.
  intros (hd & H & Hhd & HRep & Hs & Hct & HH) Hfuel.
  destruct (split_at_key key L Hs) as (L1 & L2 & -> & Hlt & Hge).
  rewrite length_app in Hfuel.
  pose proof (stored_split key L1 L2 Hlt Hge Hs) as Hst.
  unfold skiplist_member.
  rewrite (skiplist_get_spec fuel w hd H L1 L2 key) by (done || lia).
  cbn [mbind option_bind]. eexists. split; [reflexivity|].
  destruct L2 as [|e L2].
  - rewrite decide_False by (intros Hx; by apply Hx).
    split; [by left|]. split; [done|]. intros _ Hin. by apply Hst in Hin.
  - destruct (decide (SKIPLIST_CMP (e_key e) key = 0)) as [Heq|Hne].
    + destruct (decide (e_val e ≠ vNULL)) as [Hv|Hv].
      * split; [by right|]. split; [intros _; by apply Hst|done].
      * split; [by left|]. split; [done|]. intros Hall _.
        apply Forall_app in Hall as [_ Hall]. apply Forall_cons in Hall as [Hnn _].
        done.
    + rewrite decide_False by (intros Hx; by apply Hx).
      split; [by left|]. split; [done|]. intros _ Hin. by apply Hst in Hin.
Qed.

(** ** Insertion *)

(** [add_or_set] when no node is replaced: the call ends, consumes one
    draw, and either fails in an allocation, leaving the nodes as they
    are, or links one new node in front of the nodes that are not
    smaller. *)
Lemma add_or_set_absent fuel w hd H L1 L2 tr key value old :
  head (sl w) = Ptr hd →
  Rep (mem w) hd H (L1 ++ L2) →
  Forall (λ e, SKIPLIST_CMP (e_key e) key < 0) L1 →
  Forall (λ e, 0 ≤ SKIPLIST_CMP (e_key e) key) L2 →
  (tr = true → match L2 with
               | [] => True
               | e :: _ => SKIPLIST_CMP (e_key e) key ≠ 0
               end) →
  (length L1 + H ≤ fuel)%nat →
  ∃ rc w',
    add_or_set fuel w tr key value old = Some (rc, old_if_absent tr L2 old, w')
    ∧ rng w' = (SKIPLIST_GEN_HEIGHT (rng w)).2
    ∧ ((rc = -1 ∧ sl w' = sl w ∧ Rep (mem w') hd H (L1 ++ L2))
       ∨ (rc = 0
          ∧ ∃ a hd',
              head (sl w') = Ptr hd'
              ∧ count (sl w') = count_inc (count (sl w))
              ∧ Rep (mem w') hd' (Nat.max H (SKIPLIST_GEN_HEIGHT (rng w)).1)
                    (L1 ++ mkE a key value (SKIPLIST_GEN_HEIGHT (rng w)).1 :: L2))).
Proof.
  intros Hhd HRep Hlt Hge Hnf Hfuel.
  rewrite (add_or_set_not_found fuel w hd H L1 L2 tr key value old) by done.
  destruct (SKIPLIST_GEN_HEIGHT (rng w)) as [h' g'] eqn:Hgen. cbn [fst snd].
  pose proof (gen_height_range _ _ _ Hgen) as Hh'.
  destruct (SKIPLIST_MALLOC (mem w) h') as [a|] eqn:Ha.
  - destruct (decide (h' ≤ H)%nat) as [Hlow|Hhigh].
    + destruct (add_new_node_low w hd H L1 L2 key value (old_if_absent tr L2 old)
                  h' g' a Hhd HRep Hgen ltac:(lia) Ha) as (m' & Hrun & HRep').
      eexists _, _. split; [exact Hrun|]. split; [done|]. right. split; [done|].
      exists a, hd. cbn [sl mem head count]. split; [done|]. split; [done|].
      by replace (Nat.max H h') with H by lia.
    + destruct (SKIPLIST_MALLOC
                  (<[a := mkN h' key value (replicate h' SENTINEL)]> (mem w)) h')
        as [b|] eqn:Hb.
      * destruct (add_new_node_grow w hd H L1 L2 key value (old_if_absent tr L2 old)
                    h' g' a b Hhd HRep Hgen ltac:(lia) Ha Hb) as (m' & Hrun & HRep').
        eexists _, _. split; [exact Hrun|]. split; [done|]. right. split; [done|].
        exists a, b. cbn [sl mem head count]. split; [done|]. split; [done|].
        by replace (Nat.max H h') with h' by lia.
      * destruct (Rep_head_deref _ _ _ _ HRep) as (hnx & Hdh & Hlenh).
        rewrite (add_new_node_fail_head w hd H vSENTINEL vSENTINEL _ key value _
                   h' g' a Hhd) by (done || lia || apply HRep).
        eexists _, _. split; [done|]. split; [done|]. left. cbn [sl mem].
        split; [done|]. split; [done|].
        apply Rep_insert_fresh; [done|by eapply malloc_fresh].
  - rewrite (add_new_node_fail_node w (Ptr hd) H _ key value _ h' g' Hgen Ha).
    eexists _, _. split; [done|]. split; [done|]. left. by cbn [sl mem].
Qed.

(** X3. [skiplist_add] links the new node after every smaller key and before
    every key that is not smaller, equal keys included; get then returns the
    value just added. The only other outcome is -1 with the skiplist as it
    was. *)
Theorem add_then_get fuel w L key value :
  Inv w L →
  (length L + SKIPLIST_MAX_HEIGHT ≤ fuel)%nat →
  ∃ rc w',
    skiplist_add fuel w key value = Some (rc, w')
    ∧ ((rc = -1 ∧ sl w' = sl w ∧ Inv w' L)
       ∨ (rc = 0
          ∧ ∃ L1 L2 a h,
              L = L1 ++ L2
              ∧ Forall (λ e, SKIPLIST_CMP (e_key e) key < 0) L1
              ∧ Forall (λ e, 0 ≤ SKIPLIST_CMP (e_key e) key) L2
              ∧ Inv w' (L1 ++ mkE a key value h :: L2)
              ∧ skiplist_count w' = count_inc (skiplist_count w)
              ∧ skiplist_get fuel w' key = Some value)).
Proof.
  intros (hd & H & Hhd & HRep & Hs & Hct & HH) Hfuel.
  destruct (split_at_key key L Hs) as (L1 & L2 & -> & Hlt & Hge).
  rewrite length_app in Hfuel.
  destruct (add_or_set_absent fuel w hd H L1 L2 false key value None Hhd HRep Hlt Hge)
    as (rc & w' & Hrun & _ & Hcases); [done|lia|].
  unfold skiplist_add. rewrite Hrun. cbn [mbind option_bind].
  exists rc, w'. split; [done|].
  destruct Hcases as [(-> & Hsl & HRep')|(-> & a & hd' & Hhd' & Hct' & HRep')].
  - left. split; [done|]. split; [done|]. exists hd, H. rewrite Hsl. done.
  - right. split; [done|].
    destruct (SKIPLIST_GEN_HEIGHT (rng w)) as [h g'] eqn:Hgen. cbn [fst snd] in HRep'.
    pose proof (gen_height_range _ _ _ Hgen) as Hh.
    exists L1, L2, a, h. split; [done|]. split; [done|]. split; [done|].
    split; [|split; [done|]].
    + exists hd', (Nat.max H h). split; [done|]. split; [done|].
      split; [by apply key_sorted_insert|]. split; [|lia].
      rewrite Hct', Hct, count_inc_length. f_equal. rewrite !length_app. simpl. lia.
    + rewrite (skiplist_get_spec fuel w' hd' (Nat.max H h) L1 (mkE a key value h :: L2) key);
        try done.
      * cbn [e_key e_val]. by rewrite decide_True by apply cmp_refl.
      * apply Forall_cons. split; [|done]. cbn [e_key]. by rewrite cmp_refl.
      * lia.
Qed.

(** X4. [skiplist_set], whether it replaces or inserts: after a successful
    call get returns the value just set; a stored key keeps the number of
    nodes and count, a new key adds one node. *)
Theorem set_then_get fuel w L key value old :
  Inv w L →
  (length L + SKIPLIST_MAX_HEIGHT ≤ fuel)%nat →
  ∃ rc old' w' L',
    skiplist_set fuel w key value old = Some (rc, old', w')
    ∧ Inv w' L'
    ∧ ((rc = -1 ∧ ¬ stored key L ∧ sl w' = sl w ∧ L' = L)
       ∨ (rc = 0
          ∧ skiplist_get fuel w' key = Some value
          ∧ (stored key L →
             length L' = length L ∧ skiplist_count w' = skiplist_count w)
          ∧ (¬ stored key L →
             length L' = S (length L)
             ∧ skiplist_count w' = count_inc (skiplist_count w)))).
Proof.
  intros (hd & H & Hhd & HRep & Hs & Hct & HH) Hfuel.
  destruct (split_at_key key L Hs) as (L1 & L2 & -> & Hlt & Hge).
  rewrite length_app in Hfuel.
  pose proof (stored_split key L1 L2 Hlt Hge Hs) as Hst.
  unfold skiplist_set.
  assert ((∃ e L2', L2 = e :: L2' ∧ SKIPLIST_CMP (e_key e) key = 0)
          ∨ match L2 with
            | [] => True
            | e :: _ => SKIPLIST_CMP (e_key e) key ≠ 0
            end) as [(e & L2' & -> & Heq)|Hnf].
  { destruct L2 as [|e L2']; [by right|].
    destruct (decide (SKIPLIST_CMP (e_key e) key = 0)); [left|by right].
    by exists e, L2'. }
  - pose proof Hge as Hge0. apply Forall_cons in Hge as [_ Hge].
    destruct (set_replace_spec fuel w hd H L1 e L2' key value old Hhd HRep Hlt Heq Hge
                ltac:(lia)) as (nx & _ & Hrun & HRep').
    eexists _, _, _, _. split; [exact Hrun|]. split.
    { exists hd, H. cbn [sl mem]. split; [done|]. split; [done|].
      split; [by apply key_sorted_set_val|]. split; [|done].
      rewrite Hct, !length_app. done. }
    right. split; [done|]. split; [|split].
    + rewrite (skiplist_get_spec fuel _ hd H L1
                 (mkE (e_addr e) (e_key e) value (e_h e) :: L2') key); try done.
      * cbn [e_key e_val]. by rewrite decide_True.
      * apply Forall_cons. split; [cbn [e_key]; lia|done].
      * lia.
    + intros _. by rewrite !length_app.
    + intros Hns. exfalso. apply Hns. by apply Hst.
  - destruct (add_or_set_absent fuel w hd H L1 L2 true key value old Hhd HRep Hlt Hge)
      as (rc & w' & Hrun & _ & Hcases); [done|lia|].
    rewrite Hrun.
    assert (¬ stored key (L1 ++ L2)) as Hns.
    { rewrite Hst. destruct L2; [tauto|done]. }
    destruct Hcases as [(-> & Hsl & HRep')|(-> & a & hd' & Hhd' & Hct' & HRep')].
    + eexists _, _, w', (L1 ++ L2). split; [done|]. split.
      { exists hd, H. rewrite Hsl. done. }
      left. done.
    + destruct (SKIPLIST_GEN_HEIGHT (rng w)) as [h g'] eqn:Hgen. cbn [fst snd] in HRep'.
      pose proof (gen_height_range _ _ _ Hgen) as Hh.
      eexists _, _, w', (L1 ++ mkE a key value h :: L2). split; [done|]. split.
      { exists hd', (Nat.max H h). split; [done|]. split; [done|].
        split; [by apply key_sorted_insert|]. split; [|lia].
        rewrite Hct', Hct, count_inc_length. f_equal. rewrite !length_app. simpl. lia. }
      right. split; [done|]. split; [|split].
      * rewrite (skiplist_get_spec fuel w' hd' (Nat.max H h) L1
                   (mkE a key value h :: L2) key); try done.
        -- cbn [e_key e_val]. by rewrite decide_True by apply cmp_refl.
        -- apply Forall_cons. split; [|done]. cbn [e_key]. by rewrite cmp_refl.
        -- lia.
      * intros Hin. by destruct Hns.
      * intros _. split; [|done]. rewrite !length_app. simpl. lia.
Qed.

(** ** Deletion *)

(** In a sorted list, what follows a node that is not smaller than
    [key] is not smaller either. *)
Lemma sorted_tail_ge key d L2 :
  key_sorted (d :: L2) →
  0 ≤ SKIPLIST_CMP (e_key d) key →
  Forall (λ e, 0 ≤ SKIPLIST_CMP (e_key e) key) L2.
Proof.
  intros Hs Hd. apply StronglySorted_inv in Hs as [_ Hall].
  eapply Forall_impl; [exact Hall|]. cbn beta. intros x Hx.
  by apply (cmp_ge_le_trans (e_key d)).
Qed.

(** X5. [skiplist_delete] and [skiplist_delete_all] of a key that is not
    stored: nothing is returned, the callback is not called and the skiplist
    is untouched. *)
Theorem delete_missing_key {U : Type} fuel w L key (udata : U) cb :
  Inv w L →
  ¬ stored key L →
  (length L + SKIPLIST_MAX_HEIGHT ≤ fuel)%nat →
  skiplist_delete fuel w key = Some (vNULL, w)
  ∧ skiplist_delete_all fuel w key udata cb = Some (udata, w).
Proof.
  intros (hd & H & Hhd & HRep & Hs & Hct & HH) Habs Hfuel.
  destruct (split_at_key key L Hs) as (L1 & L2 & -> & Hlt & Hge).
  rewrite length_app in Hfuel.
  rewrite (stored_split key L1 L2 Hlt Hge Hs) in Habs.
  assert (match L2 with
          | [] => True
          | e :: _ => SKIPLIST_CMP (e_key e) key ≠ 0
          end) as Hnf by (by destruct L2).
  unfold skiplist_delete, skiplist_delete_all.
  rewrite !(delete_not_found fuel w hd H L1 L2 key) by (done || lia).
  done.
Qed.

(** X7. [skiplist_delete_all] of a stored key unlinks the whole run of nodes
    with that key and nothing else. The callback is called once per node, in
    level-0 order, with the key the caller passed and the value of the node;
    afterwards the key is not a member. *)
Theorem delete_all_removes_run {U : Type} fuel w L1 d R L3 key (udata : U)
    (cb : Z → Z → U → U) :
  Inv w (L1 ++ (d :: R) ++ L3) →
  Forall (λ e, SKIPLIST_CMP (e_key e) key < 0) L1 →
  Forall (λ e, SKIPLIST_CMP (e_key e) key = 0) (d :: R) →
  Forall (λ e, SKIPLIST_CMP (e_key e) key ≠ 0) L3 →
  (length (L1 ++ (d :: R) ++ L3) + SKIPLIST_MAX_HEIGHT < fuel)%nat →
  ∃ w',
    skiplist_delete_all fuel w key udata cb
    = Some (foldl (λ u e, cb key (e_val e) u) udata (d :: R), w')
    ∧ Inv w' (L1 ++ L3)
    ∧ skiplist_count w' = Nat.iter (length (d :: R)) count_dec (skiplist_count w)
    ∧ skiplist_iter fuel w' [] collect = Some (pairs_of (L1 ++ L3))
    ∧ skiplist_member fuel w' key = Some 0.
Proof.
  intros (hd & H & Hhd & HRep & Hs & Hct & HH) Hlt HR Hne Hfuel.
  rewrite !length_app in Hfuel. cbn [length] in Hfuel.
  assert (Forall (λ e, 0 ≤ SKIPLIST_CMP (e_key e) key) L3) as Hge.
  { apply key_sorted_app in Hs as (_ & Hs2 & _).
    apply key_sorted_app in Hs2 as (_ & _ & Hall).
    apply Forall_cons in Hall as [Hall _]. apply Forall_cons in HR as [Hd _].
    eapply Forall_impl; [exact Hall|]. cbn beta. intros x Hx.
    apply (cmp_ge_le_trans (e_key d)); [lia|done]. }
  assert (match L3 with
          | [] => True
          | e :: _ => SKIPLIST_CMP (e_key e) key ≠ 0
          end) as H3.
  { destruct L3 as [|e L3]; [done|]. by apply Forall_cons in Hne as [? _]. }
  destruct (delete_all_spec fuel w hd H L1 d R L3 key udata cb Hhd HRep Hlt HR Hge H3)
    as (m' & Hrun & HRep'); [lia|lia|].
  unfold skiplist_delete_all. rewrite Hrun. cbn [mbind option_bind].
  eexists. split; [done|]. split; [|split; [done|split]].
  - exists hd, H. cbn [sl mem head count]. split; [done|]. split; [done|].
    split; [by eapply key_sorted_remove|]. split; [|done].
    rewrite Hct. rewrite <- (count_dec_iter (S (length R)) (length (L1 ++ L3))).
    do 2 f_equal. rewrite !length_app. cbn [length]. lia.
  - apply (skiplist_iter_spec fuel _ hd H); [done|done|].
    rewrite length_app. lia.
  - unfold skiplist_member.
    rewrite (skiplist_get_spec fuel _ hd H L1 L3 key); try done; [|lia].
    cbn [mbind option_bind].
    destruct L3 as [|e L3].
    + by rewrite decide_False by (intros Hx; by apply Hx).
    + rewrite (decide_False (P := SKIPLIST_CMP (e_key e) key = 0)) by done.
      by rewrite decide_False by (intros Hx; by apply Hx).
Qed.

(** ** Boundary operations *)

(** The forward pointer of the head at level [j]. *)
Lemma Rep_head_next m hd H L j :
  Rep m hd H L → (j < H)%nat → get_next m (Ptr hd) j = Some (succ_at j L).
Proof.
  intros HRep Hj. destruct (rep_chain _ _ _ _ HRep) as (_ & Hlinks & _).
  rewrite app_nil_r in Hlinks. by apply Hlinks.
Qed.

Lemma last_top_empty fuel w hd H L key value :
  head (sl w) = Ptr hd →
  Rep (mem w) hd H L →
  Forall (λ e, (e_h e < H)%nat) L →
  skiplist_last fuel w key value = Some (-1, key, value).
Proof.
  intros Hhd HRep Hshort. unfold skiplist_last. rewrite Hhd.
  destruct (Rep_head_deref _ _ _ _ HRep) as (nx & -> & Hlen).
  cbn [mbind option_bind node_h].
  pose proof (rep_H _ _ _ _ HRep) as HH.
  rewrite (Rep_head_next _ _ _ _ (H - 1) HRep) by lia.
  cbn [mbind option_bind].
  rewrite succ_at_None; [done|].
  apply last_tall_None. eapply Forall_impl; [exact Hshort|]. cbn beta. lia.
Qed.

Lemma sorted_last_greatest L1 l :
  key_sorted (L1 ++ [l]) →
  Forall (λ e, SKIPLIST_CMP (e_key e) (e_key l) ≤ 0) L1.
Proof.
  intros Hs. apply key_sorted_app in Hs as (_ & _ & Hall).
  eapply Forall_impl; [exact Hall|]. cbn beta. intros x Hx.
  by apply Forall_cons in Hx as [? _].
Qed.

(** X8. When a sequence of add, set, delete, delete_all, pop_first and
    pop_last calls on a fresh skiplist ([skiplist_clear] is not among
    them) has left nothing to iterate, [count] is 0, the skiplist is
    empty, and every boundary operation returns -1 and leaves the
    out-parameters and the skiplist alone, however tall the head has
    grown. *)
Theorem boundary_ops_on_empty (ops : list op) m0 g0 w0 w fuel key value :
  skiplist_new m0 g0 = Some w0 →
  run fuel w0 ops = Some w →
  skiplist_iter fuel w [] collect = Some [] →
  (length ops + SKIPLIST_MAX_HEIGHT < fuel)%nat →
  skiplist_first w key value = Some (-1, key, value)
  ∧ skiplist_last fuel w key value = Some (-1, key, value)
  ∧ skiplist_pop_first w key value = Some (-1, key, value, w)
  ∧ skiplist_pop_last fuel w key value = Some (-1, key, value, w)
  ∧ skiplist_count w = 0
  ∧ skiplist_empty w = true.
Proof.
  intros Hnew Hrun Hiter Hfuel. destruct (skiplist_new_Inv _ _ _ Hnew) as [HInv0 _].
  destruct (run_Inv fuel ops w0 [] HInv0 ltac:(simpl; lia))
    as (w' & L & Hrun' & (hd & H & Hhd & HRep & Hs & Hct & HH) & Hlen).
  rewrite Hrun in Hrun'. injection Hrun' as <-. cbn [length] in Hlen.
  rewrite (skiplist_iter_spec fuel w hd H L Hhd HRep) in Hiter by lia.
  injection Hiter as Hnil. apply fmap_nil_inv in Hnil. subst L.
  assert (count (sl w) = 0) as Hc by (rewrite Hct; by apply Z.mod_0_l; lia).
  split; [by rewrite (skiplist_first_spec w hd H [] key value)|].
  split; [by apply (last_top_empty fuel w hd H [])|].
  split; [by apply (pop_first_empty w hd H)|].
  split; [by apply (pop_last_count_zero fuel w hd H [])|].
  split; [done|]. unfold skiplist_empty, skiplist_count. by rewrite bool_decide_eq_true_2.
Qed.

(** X9. [skiplist_first] and [skiplist_pop_first] give the pair of the first
    node in level-0 order, whose key no stored key is below; pop_first
    unlinks that node and nothing else. *)
Theorem pop_first_takes_least fuel w f L key value :
  Inv w (f :: L) →
  (length L < fuel)%nat →
  ∃ w',
    skiplist_first w key value
    = Some (0, out_write key (e_key f), out_write value (e_val f))
    ∧ skiplist_pop_first w key value
      = Some (0, out_write key (e_key f), out_write value (e_val f), w')
    ∧ Inv w' L
    ∧ skiplist_count w' = count_dec (skiplist_count w)
    ∧ skiplist_iter fuel w' [] collect = Some (pairs_of L)
    ∧ Forall (λ e, SKIPLIST_CMP (e_key f) (e_key e) ≤ 0) L.
Proof.
  intros (hd & H & Hhd & HRep & Hs & Hct & HH) Hfuel.
  destruct (pop_first_spec w hd H f L key value Hhd HRep) as (m' & Hrun & HRep').
  eexists. split; [by rewrite (skiplist_first_spec w hd H (f :: L) key value)|].
  split; [exact Hrun|].
  apply StronglySorted_inv in Hs as [Hs Hall].
  split; [|split; [done|split; [|done]]].
  - exists hd, H. cbn [sl mem head count]. split; [done|]. split; [done|].
    split; [done|]. split; [|done]. rewrite Hct. apply count_dec_length.
  - by apply (skiplist_iter_spec fuel _ hd H).
Qed.

(** X10. [skiplist_pop_last], on a skiplist with fewer nodes than
    [skiplist_count_t] can count, gives the pair of the last node in level-0
    order, whose key no stored key is above, and unlinks that node and
    nothing else. *)
Theorem pop_last_takes_greatest fuel w L1 l key value :
  Inv w (L1 ++ [l]) →
  Z.of_nat (length (L1 ++ [l])) < count_modulus →
  (length (L1 ++ [l]) + SKIPLIST_MAX_HEIGHT ≤ fuel)%nat →
  ∃ w',
    skiplist_pop_last fuel w key value
    = Some (0, out_write key (e_key l), out_write value (e_val l), w')
    ∧ Inv w' L1
    ∧ skiplist_count w' = count_dec (skiplist_count w)
    ∧ skiplist_iter fuel w' [] collect = Some (pairs_of L1)
    ∧ Forall (λ e, SKIPLIST_CMP (e_key e) (e_key l) ≤ 0) L1.
Proof.
  intros (hd & H & Hhd & HRep & Hs & Hct & HH) Hsmall Hfuel.
  rewrite length_app in Hfuel, Hsmall, Hct. cbn [length] in Hfuel, Hsmall, Hct.
  assert (count (sl w) ≠ 0) as Hnz.
  { rewrite Hct, Z.mod_small by lia. lia. }
  destruct (pop_last_spec fuel w hd H L1 l key value Hhd HRep Hnz)
    as (m' & Hrun & HRep'); [lia|].
  eexists. split; [exact Hrun|]. split; [|split; [done|split]].
  - exists hd, H. cbn [sl mem head count]. split; [done|]. split; [done|].
    split; [by apply key_sorted_app in Hs as (? & _)|]. split; [|done].
    rewrite Hct. replace (length L1 + 1)%nat with (S (length L1)) by lia.
    apply count_dec_length.
  - apply (skiplist_iter_spec fuel _ hd H); [done|done|lia].
  - by apply sorted_last_greatest.
Qed.

(** X11. [skiplist_last] gives the pair of the last node in level-0 order
    when some node is as tall as the head. *)
Theorem last_when_top_level_used fuel w hd H L1 l key value :
  Inv_at w hd H (L1 ++ [l]) →
  Exists (λ e, e_h e = H) (L1 ++ [l]) →
  (length L1 + H ≤ fuel)%nat →
  skiplist_last fuel w key value
  = Some (0, out_write key (e_key l), out_write value (e_val l)).
Proof.
  intros (Hhd & HRep & Hct & HH) Htop Hfuel.
  apply (skiplist_last_spec fuel w hd H L1 l); try done.
  intros Hnone. apply last_tall_None in Hnone.
  apply Exists_exists in Htop as (e & Hin & He).
  rewrite Forall_forall in Hnone. specialize (Hnone e Hin). cbn beta in Hnone.
  pose proof (rep_H _ _ _ _ HRep). lia.
Qed.

(** X12. [skiplist_last] looks for a node at the top level of the head only:
    when every node is shorter than the head it reports emptiness, however
    many nodes there are, while first still finds the first node. *)
Theorem last_misses_below_top_level fuel w hd H f L key value :
  Inv_at w hd H (f :: L) →
  Forall (λ e, (e_h e < H)%nat) (f :: L) →
  skiplist_last fuel w key value = Some (-1, key, value)
  ∧ skiplist_first w key value
    = Some (0, out_write key (e_key f), out_write value (e_val f)).
Proof.
  intros (Hhd & HRep & Hct & HH) Hshort.
  split; [by apply (last_top_empty fuel w hd H (f :: L))|].
  by rewrite (skiplist_first_spec w hd H (f :: L) key value).
Qed.

(** ** Iteration *)

Lemma walk_and_apply_visit {U : Type} m (cb : Z → Z → U → Z * U) :
  ∀ L fuel udata,
    chain_to m L [] →
    Forall (λ e, (1 ≤ e_h e)%nat) L →
    (length L < fuel)%nat →
    walk_and_apply fuel m (succ_at 0 L) udata cb = Some (visit cb (pairs_of L) udata).
Proof.
  induction L as [|e L IH]; intros fuel udata Hc Hh Hfuel;
    (destruct fuel as [|fuel]; [simpl in Hfuel; lia|]); [done|].
  destruct Hc as (Hn & Hl & Hc). apply Forall_cons in Hh as [He Hh].
  cbn [succ_at]. rewrite decide_True by lia. cbn [walk_and_apply IS_SENTINEL].
  destruct (node_at_deref _ _ Hn) as (nx & Hd & _). rewrite Hd.
  cbn [mbind option_bind node_k node_v node_next pairs_of fmap list_fmap visit].
  destruct (cb (e_key e) (e_val e) udata) as [r u'] eqn:Hr.
  destruct (decide (r ≠ 0)); [done|].
  pose proof (Hl 0%nat ltac:(lia)) as Hnext. unfold get_next in Hnext.
  rewrite Hd in Hnext. cbn [mbind option_bind node_next] in Hnext.
  rewrite Hnext, app_nil_r. cbn [mbind option_bind].
  apply IH; [done|done|simpl in Hfuel; lia].
Qed.

Lemma Rep_chain_suffix m hd H L1 L2 :
  Rep m hd H (L1 ++ L2) →
  chain_to m L2 [] ∧ Forall (λ e, (1 ≤ e_h e)%nat) L2.
Proof.
  intros HRep. split.
  - destruct (rep_chain _ _ _ _ HRep) as (_ & _ & Hc).
    by apply chain_to_app in Hc as [_ ?].
  - pose proof (rep_heights _ _ _ _ HRep) as Hh. apply Forall_app in Hh as [_ Hh].
    eapply Forall_impl; [exact Hh|]. cbn beta. lia.
Qed.

(** X13. [skiplist_iter] shows the visitor the pairs in level-0 order and
    stops after the first call that returns non-zero. *)
Theorem iter_visits_until_stopped {U : Type} fuel w L (udata : U) cb :
  Inv w L →
  (length L < fuel)%nat →
  skiplist_iter fuel w udata cb = Some (visit cb (pairs_of L) udata).
Proof.
  intros (hd & H & Hhd & HRep & Hs & Hct & HH) Hfuel. unfold skiplist_iter.
  pose proof (rep_H _ _ _ _ HRep).
  rewrite Hhd, (Rep_head_next _ _ _ _ 0%nat HRep) by lia. cbn [mbind option_bind].
  destruct (Rep_chain_suffix _ _ _ [] L HRep) as [Hc Hh].
  by apply walk_and_apply_visit.
Qed.

(** X14. [skiplist_iter_from] of a stored key starts at the first node with
    that key and goes on to the end of the skiplist, past the equal keys,
    unless the visitor stops it. *)
Theorem iter_from_first_equal {U : Type} fuel w L1 e L2 key (udata : U) cb :
  Inv w (L1 ++ e :: L2) →
  Forall (λ x, SKIPLIST_CMP (e_key x) key < 0) L1 →
  SKIPLIST_CMP (e_key e) key = 0 →
  (length (L1 ++ e :: L2) + SKIPLIST_MAX_HEIGHT ≤ fuel)%nat →
  skiplist_iter_from fuel w key udata cb
  = Some (0, visit cb (pairs_of (e :: L2)) udata).
Proof.
  intros (hd & H & Hhd & HRep & Hs & Hct & HH) Hlt He Hfuel.
  rewrite length_app in Hfuel. cbn [length] in Hfuel.
  assert (Forall (λ x, 0 ≤ SKIPLIST_CMP (e_key x) key) (e :: L2)) as Hge.
  { apply key_sorted_app in Hs as (_ & Hs2 & _). apply Forall_cons. split; [lia|].
    apply (sorted_tail_ge key e); [done|lia]. }
  unfold skiplist_iter_from.
  rewrite (get_first_eq_node_spec fuel w hd H L1 (e :: L2) key) by (done || lia).
  cbn [mbind option_bind first_eq]. rewrite decide_True by done.
  destruct (Rep_chain_suffix _ _ _ L1 (e :: L2) HRep) as [Hc Hh].
  pose proof (walk_and_apply_visit (mem w) cb (e :: L2) fuel udata Hc Hh) as Hwalk.
  cbn [succ_at] in Hwalk. apply Forall_cons in Hh as [Hhe _].
  rewrite decide_True in Hwalk by lia.
  rewrite Hwalk by (cbn [length]; lia). done.
Qed.

(** ** Runs of add alone *)

Lemma pairs_of_insert L1 L2 e :
  pairs_of (L1 ++ e :: L2) ≡ₚ pairs_of (L1 ++ L2) ++ [(e_key e, e_val e)].
Proof.
  unfold pairs_of. rewrite !fmap_app, fmap_cons.
  rewrite <- Permutation_middle, <- Permutation_cons_append. done.
Qed.

Lemma add_all_top fuel kvs :
  ∀ w hd H L,
    Inv_at w hd H L → key_sorted L → top_used H L →
    (length L + length kvs + SKIPLIST_MAX_HEIGHT ≤ fuel)%nat →
    ∃ w' hd' H' L',
      add_all fuel w kvs = Some (replicate (length kvs) 0, w')
      ∧ Inv_at w' hd' H' L' ∧ key_sorted L' ∧ top_used H' L'
      ∧ pairs_of L' ≡ₚ pairs_of L ++ kvs.
Proof.
  induction kvs as [|[key value] kvs IH]; intros w hd H L HInv Hs Htop Hfuel.
  - exists w, hd, H, L. split; [done|]. split; [done|]. split; [done|].
    split; [done|]. by rewrite app_nil_r.
  - destruct (split_at_key key L Hs) as (L1 & L2 & -> & Hlt & Hge).
    cbn [length] in Hfuel. rewrite length_app in Hfuel.
    destruct (add_step fuel w hd H L1 L2 key value HInv Htop Hlt Hge ltac:(lia))
      as (a & h & hd1 & H1 & w1 & Hadd & HInv1 & Htop1).
    destruct (IH w1 hd1 H1 (L1 ++ mkE a key value h :: L2) HInv1)
      as (w' & hd' & H' & L' & Hrun & HInv' & Hs' & Htop' & Hperm).
    { by apply key_sorted_insert. }
    { done. }
    { rewrite length_app. cbn [length]. lia. }
    exists w', hd', H', L'. cbn [add_all]. rewrite Hadd. cbn [mbind option_bind].
    rewrite Hrun. cbn [mbind option_bind length replicate].
    split; [done|]. split; [done|]. split; [done|]. split; [done|].
    rewrite Hperm, pairs_of_insert. cbn [e_key e_val].
    by rewrite <- (assoc_L (++)).
Qed.

(** X15. Adding pairs to a fresh skiplist (no allocation failing): every add
    returns 0, a full iteration then shows exactly the added pairs, sorted
    by key, count is their number, and first and last give the two ends of
    what the iteration shows. *)
Theorem adds_give_sorted_permutation m0 g0 w0 kvs fuel :
  skiplist_new m0 g0 = Some w0 →
  (length kvs + SKIPLIST_MAX_HEIGHT < fuel)%nat →
  ∃ w' visited,
    add_all fuel w0 kvs = Some (replicate (length kvs) 0, w')
    ∧ skiplist_iter fuel w' [] collect = Some visited
    ∧ visited ≡ₚ kvs
    ∧ StronglySorted (λ a b, SKIPLIST_CMP a.1 b.1 ≤ 0) visited
    ∧ skiplist_count w' = Z.of_nat (length kvs) mod count_modulus
    ∧ (∀ k v, visited !! 0%nat = Some (k, v) →
              skiplist_first w' (Some 0) (Some 0) = Some (0, Some k, Some v))
    ∧ (∀ k v, last visited = Some (k, v) →
              skiplist_last fuel w' (Some 0) (Some 0) = Some (0, Some k, Some v)).
Proof.
  intros Hnew Hfuel.
  destruct (skiplist_new_Inv_at _ _ _ Hnew) as (hd0 & HInv0 & _).
  destruct (add_all_top fuel kvs w0 hd0 1 [] HInv0)
    as (w' & hd' & H' & L' & Hrun & HInv' & Hs' & Htop' & Hperm);
    [constructor|done|simpl; lia|].
  cbn [pairs_of fmap list_fmap app] in Hperm.
  assert (length L' = length kvs) as Hlen.
  { rewrite <- (length_fmap (λ e, (e_key e, e_val e)) L'). by rewrite Hperm. }
  exists w', (pairs_of L'). split; [done|].
  split; [apply (iter_at fuel w' hd' H' L'); [done|lia]|].
  split; [done|]. split; [by apply key_sorted_pairs|].
  pose proof HInv' as (Hhd' & HRep' & Hct' & HH').
  split; [unfold skiplist_count; by rewrite Hct', Hlen|]. split.
  - intros k v Hfirst. rewrite (skiplist_first_spec w' hd' H' L' _ _ Hhd' HRep').
    destruct L' as [|f L']; [done|]. cbn in Hfirst. by injection Hfirst as <- <-.
  - intros k v Hlast. destruct L' as [|l L1 _] using rev_ind; [done|].
    unfold pairs_of in Hlast. rewrite fmap_app in Hlast.
    change ((λ e, (e_key e, e_val e)) <$> [l]) with [(e_key l, e_val l)] in Hlast.
    rewrite last_snoc in Hlast.
    injection Hlast as <- <-.
    apply (skiplist_last_spec fuel w' hd' H' L1 l); try done.
    + apply top_used_tall; [done|by destruct L1|apply HRep'].
    + rewrite length_app in Hlen. cbn [length] in Hlen. lia.
Qed.

(** ** count *)

(** X16. After any sequence of add, set, delete, delete_all, pop_first and
    pop_last calls on a fresh skiplist, count is the number of pairs a full
    iteration shows, as far as [skiplist_count_t] can tell; short of an
    overflow, empty is true exactly when the iteration shows nothing. *)
Theorem count_matches_iteration (ops : list op) m0 g0 w0 fuel :
  skiplist_new m0 g0 = Some w0 →
  (length ops + SKIPLIST_MAX_HEIGHT < fuel)%nat →
  ∃ w visited,
    run fuel w0 ops = Some w
    ∧ skiplist_iter fuel w [] collect = Some visited
    ∧ skiplist_count w = Z.of_nat (length visited) mod count_modulus
    ∧ (Z.of_nat (length ops) < count_modulus →
       skiplist_count w = Z.of_nat (length visited)
       ∧ (skiplist_empty w = true ↔ visited = [])).
Proof.
  intros Hnew Hfuel. destruct (skiplist_new_Inv _ _ _ Hnew) as [HInv _].
  destruct (run_Inv fuel ops w0 [] HInv ltac:(simpl; lia))
    as (w & L & Hrun & (hd & H & Hhd & HRep & Hs & Hct & HH) & Hlen).
  cbn [length] in Hlen.
  exists w, (pairs_of L). split; [done|]. split.
  { apply (skiplist_iter_spec fuel w hd H L Hhd HRep). lia. }
  unfold skiplist_empty, skiplist_count, pairs_of. rewrite length_fmap.
  split; [done|]. intros Hsmall. rewrite Hct, Z.mod_small by lia.
  split; [done|]. rewrite bool_decide_eq_true. destruct L; cbn; split; (done || lia).
Qed.

(** ** Clearing and disposal *)

(** The heap after the blocks of the nodes [L] are released. *)
Lemma release_lookup (L : list entry) (m : gmap nat skiplist_node) (x : nat) :
  foldl (λ m e, delete (e_addr e) m) m L !! x
  = if decide (x ∈ map e_addr L) then None else m !! x.
Proof.
  revert m. induction L as [|e L IH]; intros m; cbn [foldl map].
  - rewrite decide_False; [done|]. apply not_elem_of_nil.
  - rewrite IH. destruct (decide (x ∈ map e_addr L)) as [Hin|Hnin].
    + rewrite decide_True; [done|]. by apply elem_of_cons; right.
    + destruct (decide (x = e_addr e)) as [->|Hne].
      * rewrite lookup_delete_eq. rewrite decide_True; [done|]. by apply elem_of_cons; left.
      * rewrite lookup_delete_ne by done. rewrite decide_False; [done|].
        intros [?|?]%elem_of_cons; done.
Qed.

Lemma counted_length (n : nat) :
  Nat.iter n count_inc 0 = Z.of_nat n mod count_modulus.
Proof.
  induction n as [|n IH]; [by rewrite Z.mod_0_l by lia|].
  rewrite Nat.iter_succ, IH. apply count_inc_length.
Qed.

Lemma clear_loop_spec {U : Type} (cb : option (Z → Z → U → U)) :
  ∀ L fuel m udata ct,
    chain_to m L [] →
    Forall (λ e, (1 ≤ e_h e)%nat) L →
    NoDup (map e_addr L) →
    (length L < fuel)%nat →
    skiplist_clear_loop fuel cb (succ_at 0 L) (m, udata, ct)
    = Some (foldl (λ m e, delete (e_addr e) m) m L,
            foldl (λ u e, match cb with
                          | Some f => f (e_key e) (e_val e) u
                          | None => u
                          end) udata L,
            Nat.iter (length L) count_inc ct).
Proof.
  induction L as [|e L IH]; intros fuel m udata ct Hc Hh Hnd Hfuel;
    (destruct fuel as [|fuel]; [simpl in Hfuel; lia|]); [done|].
  destruct Hc as (Hn & Hl & Hc). apply Forall_cons in Hh as [He Hh].
  apply NoDup_cons in Hnd as [Hnotin Hnd].
  cbn [succ_at]. rewrite decide_True by lia. cbn [skiplist_clear_loop IS_SENTINEL].
  destruct (node_at_deref _ _ Hn) as (nx & Hd & _). rewrite Hd.
  cbn [mbind option_bind node_k node_v node_next].
  pose proof (Hl 0%nat ltac:(lia)) as Hnext. unfold get_next in Hnext.
  rewrite Hd in Hnext. cbn [mbind option_bind node_next] in Hnext.
  rewrite Hnext, app_nil_r. cbn [mbind option_bind].
  rewrite (N_free_spec m (e_addr e) _ _ _ _ Hn). cbn [mbind option_bind].
  rewrite (IH fuel (delete (e_addr e) m)); try done.
  - cbn [foldl length]. by rewrite Nat.iter_succ_r.
  - by apply chain_to_delete.
  - simpl in Hfuel. lia.
Qed.

(** What [skiplist_clear] does to a well-formed skiplist, whatever its
    [count]. *)
Lemma clear_spec {U : Type} fuel w hd H L (udata : U) cb :
  head (sl w) = Ptr hd →
  Rep (mem w) hd H L →
  (length L < fuel)%nat →
  ∃ m',
    skiplist_clear fuel w udata cb
    = Some (Z.of_nat (length L) mod count_modulus,
            foldl (λ u e, match cb with
                          | Some f => f (e_key e) (e_val e) u
                          | None => u
                          end) udata L,
            mkW m' (sl w) (rng w))
    ∧ Rep m' hd H []
    ∧ (∀ x, x ∈ map e_addr L → m' !! x = None)
    ∧ (∀ x, x ∉ hd :: map e_addr L → m' !! x = mem w !! x).
Proof.
  intros Hhd HRep Hfuel. unfold skiplist_clear.
  pose proof (rep_H _ _ _ _ HRep) as HH.
  pose proof (rep_nodup _ _ _ _ HRep) as Hnd. apply NoDup_cons in Hnd as [Hhdnotin Hnd].
  rewrite Hhd, (Rep_head_next _ _ _ _ 0%nat HRep) by lia. cbn [mbind option_bind].
  destruct (Rep_chain_suffix _ _ _ [] L HRep) as [Hc Hh].
  rewrite (clear_loop_spec cb L fuel (mem w) udata 0) by done.
  cbn [mbind option_bind]. rewrite counted_length.
  set (m1 := foldl (λ m e, delete (e_addr e) m) (mem w) L).
  assert (m1 !! hd = mem w !! hd) as Hhd1.
  { unfold m1. rewrite release_lookup. by rewrite decide_False. }
  destruct (Rep_head_deref _ _ _ _ HRep) as (hnx & Hdh & Hlenh).
  cbn [deref] in Hdh |- *. rewrite Hhd1, Hdh. cbn [mbind option_bind node_h].
  assert (hdr m1 hd = Some (H, vSENTINEL, vSENTINEL, H)) as Hhdr1.
  { unfold hdr. rewrite Hhd1, Hdh. cbn. by rewrite Hlenh. }
  destruct (DO_set_next H (λ _, hd) (λ _, SENTINEL)
              (λ i m, set_next m (Ptr hd) i SENTINEL) m1)
    as (m2 & Hdo & Hhdr2 & Hnext2).
  { intros i Hi. by exists H, vSENTINEL, vSENTINEL, H. }
  { done. }
  rewrite Hdo. cbn [mbind option_bind]. exists m2. split; [done|].
  assert (∀ x, x ≠ hd → m2 !! x = m1 !! x) as Hframe.
  { intros x Hx. pose proof (Hhdr2 x) as Hh2.
    destruct (m2 !! x) as [n2|] eqn:E2, (m1 !! x) as [n1|] eqn:E1;
      unfold hdr in Hh2; rewrite ?E1, ?E2 in Hh2; cbn in Hh2; try done.
    f_equal. destruct n1 as [h1 k1 v1 nx1], n2 as [h2 k2 v2 nx2].
    cbn in Hh2. injection Hh2 as -> -> -> Hlen.
    f_equal. apply list_eq. intros j.
    pose proof (Hnext2 x j) as Hj. unfold get_next in Hj. cbn [deref] in Hj.
    rewrite E1, E2 in Hj. cbn [mbind option_bind node_next] in Hj.
    rewrite decide_False in Hj by (intros [_ ?]; done). done. }
  split; [|split].
  - split.
    + cbn [chain_to]. split; [|split; [|done]].
      * unfold node_at. cbn [e_addr e_h e_key e_val head_entry]. by rewrite Hhdr2.
      * intros j Hj. cbn [e_addr e_h head_entry] in *. rewrite Hnext2.
        by rewrite decide_True.
    + cbn [map]. apply NoDup_singleton.
    + constructor.
    + done.
  - intros x Hx. rewrite Hframe by (intros ->; done).
    unfold m1. rewrite release_lookup. by rewrite decide_True.
  - intros x Hx. apply not_elem_of_cons in Hx as [Hxhd Hx].
    rewrite Hframe by done. unfold m1. rewrite release_lookup. by rewrite decide_False.
Qed.

(** X17. [skiplist_clear] calls the callback once per node in level-0 order,
    releases the block of every node, keeps the head and leaves every other
    block alone; it returns the number of nodes. Afterwards the skiplist
    shows no pair and finds no key, and [sl], hence count, is as before the
    call. *)
Theorem clear_releases_every_node {U : Type} fuel w hd H L (udata : U) cb key :
  Inv_at w hd H L →
  (length L + SKIPLIST_MAX_HEIGHT < fuel)%nat →
  ∃ w',
    skiplist_clear fuel w udata cb
    = Some (Z.of_nat (length L) mod count_modulus,
            foldl (λ u e, match cb with
                          | Some f => f (e_key e) (e_val e) u
                          | None => u
                          end) udata L,
            w')
    ∧ sl w' = sl w
    ∧ (∀ x, x ∈ map e_addr L → mem w' !! x = None)
    ∧ (∀ x, x ∉ hd :: map e_addr L → mem w' !! x = mem w !! x)
    ∧ skiplist_iter fuel w' [] collect = Some []
    ∧ skiplist_first w' (Some 0) (Some 0) = Some (-1, Some 0, Some 0)
    ∧ skiplist_get fuel w' key = Some vNULL.
Proof.
  intros (Hhd & HRep & Hct & HH) Hfuel.
  destruct (clear_spec fuel w hd H L udata cb Hhd HRep ltac:(lia))
    as (m' & Hrun & HRep' & Hgone & Hframe).
  eexists. split; [exact Hrun|]. cbn [sl mem].
  split; [done|]. split; [done|]. split; [done|].
  split; [apply (skiplist_iter_spec fuel _ hd H []); [done|done|simpl; lia]|].
  split; [by rewrite (skiplist_first_spec (mkW m' (sl w) (rng w)) hd H [] _ _ Hhd HRep')|].
  rewrite (skiplist_get_spec fuel _ hd H [] [] key); try done. simpl. lia.
Qed.

(** X18. [skiplist_free] releases the block of every node and of the head,
    and no other block; the callback and the result are those of clear. *)
Theorem free_releases_every_block {U : Type} fuel w hd H L (udata : U) cb :
  Inv_at w hd H L →
  (length L < fuel)%nat →
  ∃ m',
    skiplist_free fuel w udata cb
    = Some (Z.of_nat (length L) mod count_modulus,
            foldl (λ u e, match cb with
                          | Some f => f (e_key e) (e_val e) u
                          | None => u
                          end) udata L,
            m')
    ∧ (∀ x, x ∈ hd :: map e_addr L → m' !! x = None)
    ∧ (∀ x, x ∉ hd :: map e_addr L → m' !! x = mem w !! x).
Proof.
  intros (Hhd & HRep & Hct & HH) Hfuel.
  destruct (clear_spec fuel w hd H L udata cb Hhd HRep Hfuel)
    as (m' & Hrun & HRep' & Hgone & Hframe).
  unfold skiplist_free. rewrite Hrun. cbn [mbind option_bind sl mem]. rewrite Hhd.
  destruct (rep_chain _ _ _ _ HRep') as (Hn & _).
  rewrite (N_free_spec m' hd _ _ _ _ Hn). cbn [mbind option_bind].
  eexists. split; [done|]. split.
  - intros x [->|Hx]%elem_of_cons; [by rewrite lookup_delete_eq|].
    destruct (decide (x = hd)) as [->|Hne]; [by rewrite lookup_delete_eq|].
    rewrite lookup_delete_ne by done. by apply Hgone.
  - intros x Hx. pose proof Hx as Hx'. apply not_elem_of_cons in Hx' as [Hxhd _].
    rewrite lookup_delete_ne by done. by apply Hframe.
Qed.

(** ** A failed allocation of the head *)

(** X19. When the new node is allocated and the allocation of the taller
    head then fails, add_or_set returns -1 without releasing the new node:
    its block stays in the heap, filled in, and is none of the blocks of the
    skiplist. *)
Theorem head_allocation_failure_keeps_node fuel w hd H L tr key value old h' g' a :
  Inv_at w hd H L →
  key_sorted L →
  (tr = true → ¬ stored key L) →
  SKIPLIST_GEN_HEIGHT (rng w) = (h', g') →
  (H < h')%nat →
  SKIPLIST_MALLOC (mem w) h' = Some a →
  SKIPLIST_MALLOC (<[a := mkN h' key value (replicate h' SENTINEL)]> (mem w)) h' = None →
  (length L + SKIPLIST_MAX_HEIGHT ≤ fuel)%nat →
  ∃ old',
    add_or_set fuel w tr key value old
    = Some (-1, old',
            mkW (<[a := mkN h' key value (replicate h' SENTINEL)]> (mem w)) (sl w) g')
    ∧ mem w !! a = None
    ∧ (a ∉ hd :: map e_addr L)
    ∧ Inv_at (mkW (<[a := mkN h' key value (replicate h' SENTINEL)]> (mem w)) (sl w) g')
        hd H L.
Proof.
  intros (Hhd & HRep & Hct & HH) Hs Habs Hgen Htall Ha Hb Hfuel.
  destruct (split_at_key key L Hs) as (L1 & L2 & -> & Hlt & Hge).
  rewrite length_app in Hfuel.
  pose proof (malloc_fresh _ _ _ Ha) as Hfresh.
  rewrite (add_or_set_not_found fuel w hd H L1 L2 tr key value old); try done.
  - rewrite (add_new_node_fail_head w hd H vSENTINEL vSENTINEL _ key value _
               h' g' a Hhd) by (done || apply HRep).
    eexists. split; [done|]. split; [done|].
    split; [by apply (Rep_fresh _ _ _ _ _ HRep)|].
    split; [done|]. cbn [sl mem]. split; [by apply Rep_insert_fresh|done].
  - intros ->. specialize (Habs eq_refl).
    rewrite (stored_split key L1 L2 Hlt Hge Hs) in Habs. by destruct L2.
  - lia.
Qed.

(** * The blocks of the heap *)

Lemma frame_refl S m : frame S m m.
Proof. by split. Qed.

Lemma frame_trans S m1 m2 m3 : frame S m1 m2 → frame S m2 m3 → frame S m1 m3.
Proof.
  intros [Ha Hb] [Hc Hd]. split.
  - intros x Hx. by rewrite Hc, Ha.
  - intros x. by rewrite Hd, Hb.
Qed.

Lemma set_next_frame S m a i q m' :
  set_next m (Ptr a) i q = Some m' → a ∈ S → frame S m m'.
Proof.
  cbn [set_next]. intros Hset Ha.
  destruct (m !! a) as [n|] eqn:Hn; [|done]. cbn [mbind option_bind] in Hset.
  case_decide; [|done]. injection Hset as <-. split.
  - intros x Hx. rewrite lookup_insert_ne; [done|]. by intros ->.
  - intros x. destruct (decide (x = a)) as [->|Hne].
    + rewrite lookup_insert_eq, Hn. done.
    + by rewrite lookup_insert_ne.
Qed.

Lemma set_next_Ptr m p i q m' : set_next m p i q = Some m' → ∃ a, p = Ptr a.
Proof. destruct p; try done. by eexists. Qed.

(** What holds before a loop that ends, and is kept by every round that
    ends, holds after it. *)
Lemma FOR_Some_inv {St : Type} (P : St → Prop) (n from : nat)
    (body : nat → St → option St) (s s' : St) :
  FOR n from body s = Some s' →
  (∀ i s1 s2, (from ≤ i < from + n)%nat → body i s1 = Some s2 → P s1 → P s2) →
  P s → P s'.
Proof.
  revert from s. induction n as [|n IH]; intros from s Hrun Hstep Hs;
    cbn [FOR] in Hrun.
  - by injection Hrun as <-.
  - destruct (body from s) as [s1|] eqn:Hb; [|done]. cbn [mbind option_bind] in Hrun.
    eapply IH; [exact Hrun| |].
    + intros i s2 s3 Hi. apply Hstep. lia.
    + eapply (Hstep from); [lia|exact Hb|done].
Qed.

Lemma prevs_of_elem hd H L1 i p :
  prevs_of hd H L1 !! i = Some p → ∃ x, p = Ptr x ∧ x ∈ blocks hd L1.
Proof.
  unfold prevs_of. rewrite list_lookup_fmap. intros Hp.
  destruct (seq 0 H !! i) as [j|]; [|done]. cbn in Hp. injection Hp as <-.
  eexists. split; [done|]. unfold blocks.
  destruct (last_tall j L1) as [x|] eqn:Hx; cbn [default].
  - right. by eapply last_tall_Some_addr.
  - by left.
Qed.

(** The splice of a new node at [a] after [prevs]. *)
Lemma splice_frame S a (prevs : list ptr) n m m' :
  DO n (λ i m, p ← prevs !! i;
               q ← get_next m p i;
               m' ← set_next m (Ptr a) i q;
               set_next m' p i (Ptr a)) m = Some m' →
  a ∈ S →
  (∀ i p, prevs !! i = Some p → ∃ x, p = Ptr x ∧ x ∈ S) →
  frame S m m'.
Proof.
  intros Hrun Ha Hprevs.
  apply (FOR_Some_inv (frame S m) _ _ _ _ _ Hrun); [|apply frame_refl].
  intros i s1 s2 _ Hb Hs1.
  destruct (prevs !! i) as [p|] eqn:Hp; [|done]. cbn [mbind option_bind] in Hb.
  destruct (Hprevs i p Hp) as (x & -> & Hx).
  destruct (get_next s1 (Ptr x) i) as [q|]; [|done]. cbn [mbind option_bind] in Hb.
  destruct (set_next s1 (Ptr a) i q) as [s1'|] eqn:Hs; [|done].
  cbn [mbind option_bind] in Hb.
  eapply frame_trans; [exact Hs1|].
  eapply frame_trans; by eapply set_next_frame.
Qed.

(** A loop of [set_next] on one block. *)
Lemma set_next_loop_frame S a (Q : nat → gmap nat skiplist_node → option ptr)
    n from m m' :
  FOR n from (λ i m, q ← Q i m; set_next m (Ptr a) i q) m = Some m' →
  a ∈ S →
  frame S m m'.
Proof.
  intros Hrun Ha.
  apply (FOR_Some_inv (frame S m) _ _ _ _ _ Hrun); [|apply frame_refl].
  intros i s1 s2 _ Hb Hs1.
  destruct (Q i s1) as [q|]; [|done]. cbn [mbind option_bind] in Hb.
  eapply frame_trans; [exact Hs1|]. by eapply set_next_frame.
Qed.

Lemma N_free_Some m p m' : N_free m p = Some m' → ∃ a, p = Ptr a ∧ m' = delete a m.
Proof.
  destruct p as [| |a]; try done. cbn [N_free]. intros Hf.
  destruct (m !! a); [|done]. injection Hf as <-. by eexists.
Qed.

Lemma owns_moves m0 m m' S S' : owns m0 m S → moves m m' S S' → owns m0 m' S'.
Proof.
  intros [Hnone Hsame] (Hkeep & Hgone & Hnew). split.
  - intros x Hx'. destruct (decide (x ∈ S)) as [Hx|Hx]; [by apply Hnone|].
    rewrite <- Hsame by done. by apply Hnew.
  - intros x Hx'. destruct (decide (x ∈ S)) as [Hx|Hx].
    + rewrite Hgone by done. symmetry. by apply Hnone.
    + rewrite Hkeep by done. by apply Hsame.
Qed.

(** A loop that rewrites one forward pointer of [prevs[i]] per round. *)
Lemma unlink_frame S (prevs : list ptr) (Q : nat → gmap nat skiplist_node → option ptr)
    n m m' :
  DO n (λ i m, p ← prevs !! i; q ← Q i m; set_next m p i q) m = Some m' →
  (∀ i p, (i < n)%nat → prevs !! i = Some p → ∃ x, p = Ptr x ∧ x ∈ S) →
  frame S m m'.
Proof.
  intros Hrun Hprevs.
  apply (FOR_Some_inv (frame S m) _ _ _ _ _ Hrun); [|apply frame_refl].
  intros i s1 s2 Hi Hb Hs1.
  destruct (prevs !! i) as [p|] eqn:Hp; [|done]. cbn [mbind option_bind] in Hb.
  destruct (Hprevs i p ltac:(lia) Hp) as (x & -> & Hx).
  destruct (Q i s1) as [q|]; [|done]. cbn [mbind option_bind] in Hb.
  eapply frame_trans; [exact Hs1|]. by eapply set_next_frame.
Qed.

Lemma hdr_None_iff m x : hdr m x = None ↔ m !! x = None.
Proof. unfold hdr. by destruct (m !! x). Qed.

(** Two blocks with the same header and the same forward pointers. *)
Lemma block_ext m m' x :
  hdr m' x = hdr m x →
  (∀ j, get_next m' (Ptr x) j = get_next m (Ptr x) j) →
  m' !! x = m !! x.
Proof.
  intros Hh Hg. unfold hdr in Hh. unfold get_next in Hg. cbn [deref] in Hg.
  destruct (m' !! x) as [[h2 k2 v2 nx2]|], (m !! x) as [[h1 k1 v1 nx1]|];
    cbn in Hh; try done.
  injection Hh as -> -> -> _. f_equal. f_equal. apply list_eq. intros j.
  apply (Hg j).
Qed.

Lemma blocks_insert hd L1 L2 e x :
  x ∈ blocks hd (L1 ++ e :: L2) ↔ x = e_addr e ∨ x ∈ blocks hd (L1 ++ L2).
Proof. clear malloc_total. unfold blocks. rewrite !map_app. cbn [map]. set_solver. Qed.

Lemma blocks_prefix hd L1 L2 x : x ∈ blocks hd L1 → x ∈ blocks hd (L1 ++ L2).
Proof. clear malloc_total. unfold blocks. rewrite map_app. set_solver. Qed.

(** A new node no taller than the head takes one free block and
    changes blocks of the skiplist only. *)
Lemma add_low_moves w hd H L1 L2 key value old' h' g' a w' :
  SKIPLIST_GEN_HEIGHT (rng w) = (h', g') →
  (h' ≤ H)%nat →
  SKIPLIST_MALLOC (mem w) h' = Some a →
  add_or_set_new_node w (Ptr hd) H (prevs_of hd H L1) key value old'
  = Some (0, old', w') →
  moves (mem w) (mem w') (blocks hd (L1 ++ L2))
        (blocks hd (L1 ++ mkE a key value h' :: L2)).
Proof.
  intros Hgen Hh' Ha Hrun.
  pose proof (malloc_fresh _ _ _ Ha) as Hfresh.
  unfold add_or_set_new_node in Hrun.
  rewrite Hgen, (N_alloc_Some _ _ _ _ _ Ha) in Hrun.
  rewrite decide_False in Hrun by lia. cbn [mbind option_bind] in Hrun.
  destruct (deref _ (Ptr a)) as [nd|]; [|done]. cbn [mbind option_bind] in Hrun.
  match type of Hrun with
  | context [DO ?n ?body ?m] => destruct (DO n body m) as [m3|] eqn:Hdo; [|done]
  end.
  cbn [mbind option_bind] in Hrun. injection Hrun as <-. cbn [mem].
  assert (frame (a :: blocks hd L1)
                (<[a := mkN h' key value (replicate h' SENTINEL)]> (mem w)) m3)
    as [Hout _].
  { eapply splice_frame; [exact Hdo|by left|].
    intros i p Hp. destruct (prevs_of_elem _ _ _ _ _ Hp) as (x & -> & Hx).
    exists x. split; [done|by right]. }
  split; [|split].
  - intros x Hx Hx'. rewrite blocks_insert in Hx'. cbn [e_addr] in Hx'.
    rewrite Hout.
    + rewrite lookup_insert_ne; [done|]. intros ->. tauto.
    + intros [->|Hin]%elem_of_cons; [tauto|]. apply Hx. by apply blocks_prefix.
  - intros x Hx Hx'. exfalso. apply Hx'. apply blocks_insert. by right.
  - intros x Hx Hx'. apply blocks_insert in Hx' as [->|Hx']; [done|]. by destruct Hx.
Qed.

Lemma grow_head_Some m s a h' k v b rc s' m' :
  hdr m a = Some (h', k, v, h') →
  SKIPLIST_MALLOC m h' = Some b →
  grow_head m s (Ptr a) = Some (rc, s', m') →
  ∀ hd, head s = Ptr hd →
    b ≠ hd → m' !! hd = None ∧ ∀ x, x ≠ hd → x ≠ b → m' !! x = m !! x.
Proof.
  intros Ha Hb Hrun hd Hhd Hbhd. unfold grow_head in Hrun. rewrite Hhd in Hrun.
  destruct (deref m (Ptr hd)) as [oh|]; [|done]. cbn [mbind option_bind] in Hrun.
  destruct (hdr_Some _ _ _ _ _ _ Ha) as (anx & Hma & _).
  cbn [deref] in Hrun. rewrite Hma in Hrun. cbn [mbind option_bind node_h] in Hrun.
  rewrite (N_alloc_Some _ _ _ _ _ Hb) in Hrun.
  match type of Hrun with
  | context [DO ?n ?body ?m] => destruct (DO n body m) as [m2|] eqn:Hdo; [|done]
  end.
  cbn [mbind option_bind] in Hrun.
  destruct (deref m2 (Ptr b)) as [nh|]; [|done]. cbn [mbind option_bind] in Hrun.
  match type of Hrun with
  | context [FOR ?n ?from ?body ?m] =>
      destruct (FOR n from body m) as [m3|] eqn:Hfor; [|done]
  end.
  cbn [mbind option_bind] in Hrun.
  destruct (N_free m3 (Ptr hd)) as [m4|] eqn:Hfree; [|done].
  cbn [mbind option_bind] in Hrun. injection Hrun as <- <- <-.
  apply N_free_Some in Hfree as (x & [= <-] & ->).
  assert (frame [b] (<[b := mkN h' vSENTINEL vSENTINEL (replicate h' SENTINEL)]> m) m2)
    as [Hout2 _].
  { apply (set_next_loop_frame [b] b (λ i m, get_next m (Ptr hd) i) _ _ _ _ Hdo).
    by left. }
  assert (frame [b] m2 m3) as [Hout3 _].
  { apply (set_next_loop_frame [b] b (λ i m, Some (Ptr a)) _ _ _ _ Hfor). by left. }
  split; [by rewrite lookup_delete_eq|].
  intros x Hxhd Hxb. rewrite lookup_delete_ne by done.
  rewrite Hout3, Hout2 by (by intros ?%list_elem_of_singleton).
  by rewrite lookup_insert_ne.
Qed.

(** A new node taller than the head takes two free blocks, releases
    the old head and changes blocks of the skiplist only. *)
Lemma add_grow_moves w hd H L1 L2 key value old' h' g' a b w' :
  head (sl w) = Ptr hd →
  Rep (mem w) hd H (L1 ++ L2) →
  SKIPLIST_GEN_HEIGHT (rng w) = (h', g') →
  (H < h')%nat →
  SKIPLIST_MALLOC (mem w) h' = Some a →
  SKIPLIST_MALLOC (<[a := mkN h' key value (replicate h' SENTINEL)]> (mem w)) h'
  = Some b →
  add_or_set_new_node w (Ptr hd) H (prevs_of hd H L1) key value old'
  = Some (0, old', w') →
  moves (mem w) (mem w') (blocks hd (L1 ++ L2))
        (blocks b (L1 ++ mkE a key value h' :: L2)).
Proof.
  intros Hhd HRep Hgen Hh' Ha Hb Hrun.
  pose proof (malloc_fresh _ _ _ Ha) as Hfresh.
  pose proof (malloc_fresh _ _ _ Hb) as Hbfresh.
  assert (b ≠ a) as Hba by (intros ->; by rewrite lookup_insert_eq in Hbfresh).
  rewrite lookup_insert_ne in Hbfresh by done.
  pose proof (Rep_fresh _ _ _ _ _ HRep Hfresh) as Hafresh.
  pose proof (Rep_fresh _ _ _ _ _ HRep Hbfresh) as Hbnot.
  assert (b ≠ hd) as Hbhd by (intros ->; apply Hbnot; by left).
  assert (hd ∉ map e_addr L1) as Hhdnot.
  { pose proof (rep_nodup _ _ _ _ HRep) as Hnd. apply NoDup_cons in Hnd as [Hnot _].
    rewrite map_app in Hnot. set_solver. }
  set (m0 := <[a := mkN h' key value (replicate h' SENTINEL)]> (mem w)) in *.
  assert (hdr m0 a = Some (h', key, value, h')) as Ha0.
  { unfold m0. rewrite hdr_insert, decide_True by done. cbn.
    by rewrite length_replicate. }
  unfold add_or_set_new_node in Hrun.
  rewrite Hgen, (N_alloc_Some _ _ _ _ _ Ha) in Hrun. fold m0 in Hrun.
  rewrite decide_True in Hrun by lia.
  destruct (grow_head m0 (sl w) (Ptr a)) as [[[rc s2] mg]|] eqn:Hgrow; [|done].
  cbn [mbind option_bind] in Hrun.
  destruct (Rep_head_deref _ _ _ _ HRep) as (hnx & Hdh & Hlenh).
  assert (hdr m0 hd = Some (H, vSENTINEL, vSENTINEL, H)) as Hhd0.
  { unfold m0. rewrite hdr_insert, decide_False by (intros ->; apply Hafresh; by left).
    apply (rep_chain _ _ _ _ HRep). }
  destruct (grow_head_spec m0 (sl w) hd H vSENTINEL vSENTINEL a h' key value b
              Hhd Hhd0 Ha0 ltac:(lia) Hb) as (mg' & Hgrow' & _).
  rewrite Hgrow' in Hgrow. injection Hgrow as <- <- <-.
  destruct (grow_head_Some m0 (sl w) a h' key value b _ _ _ Ha0 Hb Hgrow' hd Hhd Hbhd)
    as [Hgone Hkeep].
  rewrite decide_False in Hrun by lia.
  cbn [head] in Hrun.
  rewrite (repoint_prevs hd b H L1 Hhdnot) in Hrun. cbn [mbind option_bind] in Hrun.
  destruct (deref mg' (Ptr a)) as [nd|]; [|done]. cbn [mbind option_bind] in Hrun.
  match type of Hrun with
  | context [DO ?n ?body ?m] => destruct (DO n body m) as [m3|] eqn:Hdo; [|done]
  end.
  cbn [mbind option_bind] in Hrun. injection Hrun as <-. cbn [mem].
  assert (frame (a :: blocks b L1) mg' m3) as [Hout Hdom].
  { eapply splice_frame; [exact Hdo|by left|].
    intros i p Hp. destruct (prevs_of_elem _ _ _ _ _ Hp) as (x & -> & Hx).
    exists x. split; [done|by right]. }
  split; [|split].
  - intros x Hx Hx'. rewrite blocks_insert in Hx'. cbn [e_addr] in Hx'.
    assert (x ≠ hd) as Hxhd by (intros ->; apply Hx; by left).
    assert (x ≠ b) as Hxb by (intros ->; apply Hx'; right; by left).
    rewrite Hout.
    + rewrite Hkeep by done. unfold m0. rewrite lookup_insert_ne; [done|].
      intros ->. tauto.
    + intros [->|Hin]%elem_of_cons; [tauto|]. apply Hx'. right.
      by apply blocks_prefix.
  - intros x Hx Hx'. rewrite blocks_insert in Hx'. cbn [e_addr] in Hx'.
    assert (x = hd) as ->.
    { apply elem_of_cons in Hx as [?|Hx]; [done|]. exfalso. apply Hx'. right.
      by right. }
    by apply Hdom.
  - intros x Hx Hx'. apply blocks_insert in Hx' as [->|Hx']; [done|].
    apply elem_of_cons in Hx' as [->|Hx']; [done|]. exfalso. apply Hx. by right.
Qed.

Lemma blocks_app_cons hd L1 R L2 x :
  x ∈ blocks hd (L1 ++ R ++ L2) ↔ x ∈ map e_addr R ∨ x ∈ blocks hd (L1 ++ L2).
Proof. clear malloc_total. unfold blocks. rewrite !map_app. set_solver. Qed.

Lemma pop_first_moves w hd H f L key value rc k' v' w' :
  head (sl w) = Ptr hd →
  Rep (mem w) hd H (f :: L) →
  skiplist_pop_first w key value = Some (rc, k', v', w') →
  moves (mem w) (mem w') (blocks hd (f :: L)) (blocks hd L).
Proof.
  intros Hhd HRep Hrun. unfold skiplist_pop_first in Hrun.
  rewrite Hhd, (Rep_first _ _ _ _ HRep) in Hrun. cbn [mbind option_bind] in Hrun.
  pose proof HRep as [(_ & _ & Hnf & _) _ _ _].
  destruct (node_at_deref _ _ Hnf) as (fnx & Hdf & _). rewrite Hdf in Hrun.
  cbn [mbind option_bind node_h node_k node_v IS_SENTINEL] in Hrun.
  match type of Hrun with
  | context [DO ?n ?body ?m] => destruct (DO n body m) as [m1|] eqn:Hdo; [|done]
  end.
  cbn [mbind option_bind] in Hrun.
  destruct (N_free m1 (Ptr (e_addr f))) as [m2|] eqn:Hfree; [|done].
  cbn [mbind option_bind] in Hrun. injection Hrun as <- <- <- <-. cbn [mem].
  apply N_free_Some in Hfree as (x & [= <-] & ->).
  assert (frame [hd] (mem w) m1) as [Hout _].
  { apply (set_next_loop_frame [hd] hd (λ i m, get_next m (Ptr (e_addr f)) i)
             _ _ _ _ Hdo). by left. }
  unfold blocks. cbn [map]. split; [|split].
  - intros x Hx _. rewrite lookup_delete_ne by set_solver. apply Hout. set_solver.
  - intros x Hx Hx'. assert (x = e_addr f) as -> by set_solver.
    by rewrite lookup_delete_eq.
  - intros x Hx Hx'. set_solver.
Qed.

Lemma delete_one_moves {U : Type} fuel w hd H L1 d L2 key (udata : U) res u' w' :
  head (sl w) = Ptr hd →
  Rep (mem w) hd H (L1 ++ d :: L2) →
  Forall (λ e, SKIPLIST_CMP (e_key e) key < 0) L1 →
  SKIPLIST_CMP (e_key d) key = 0 →
  Forall (λ e, 0 ≤ SKIPLIST_CMP (e_key e) key) L2 →
  (length L1 + H ≤ fuel)%nat →
  delete_one_or_all fuel w key udata None = Some (res, u', w') →
  moves (mem w) (mem w') (blocks hd (L1 ++ d :: L2)) (blocks hd (L1 ++ L2)).
Proof.
  clear malloc_total. intros Hhd HRep Hlt Heq Hge Hfuel Hrun.
  assert (Forall (λ e, 0 ≤ SKIPLIST_CMP (e_key e) key) (d :: L2)) as Hge'
    by (constructor; [lia|done]).
  destruct (Rep_head_deref _ _ _ _ HRep) as (hnx & Hdh & Hlenh).
  pose proof (init_prevs_spec _ _ _ _ _ key fuel HRep Hlt Hge' Hfuel) as Hprevs.
  pose proof HRep as [Hc _ Hh HH].
  change (head_entry hd H :: L1 ++ d :: L2)
    with ((head_entry hd H :: L1) ++ [d] ++ L2) in Hc.
  apply chain_to_app in Hc as [Hc1 Hc2]. rewrite app_nil_r in Hc1.
  destruct Hc2 as (Hnd_d & _ & _).
  apply Forall_app in Hh as [_ Hh2]. apply Forall_cons in Hh2 as [Hhd_d _].
  unfold delete_one_or_all in Hrun. rewrite Hhd, Hdh in Hrun.
  cbn [mbind option_bind node_h] in Hrun.
  rewrite Hprevs in Hrun. cbn [mbind option_bind] in Hrun.
  rewrite prevs_of_lookup in Hrun by lia. cbn [mbind option_bind] in Hrun.
  rewrite (get_next_prev (mem w) (head_entry hd H :: L1) ([d] ++ L2) 0
             (default hd (last_tall 0 L1)) Hc1) in Hrun by (apply last_tall_head; lia).
  cbn [mbind option_bind app succ_at] in Hrun. rewrite decide_True in Hrun by lia.
  destruct (node_at_deref _ _ Hnd_d) as (dnx & Hdd & Hlend).
  cbn [IS_SENTINEL] in Hrun. rewrite Hdd in Hrun.
  cbn [mbind option_bind node_k node_h] in Hrun.
  rewrite bool_decide_eq_true_2 in Hrun by done. cbn [negb] in Hrun.
  match type of Hrun with
  | context [DO ?n ?body ?m] => destruct (DO n body m) as [m1|] eqn:Hdo; [|done]
  end.
  cbn [mbind option_bind] in Hrun.
  destruct (deref m1 (Ptr (e_addr d))) as [dn'|]; [|done].
  cbn [mbind option_bind] in Hrun.
  destruct (N_free m1 (Ptr (e_addr d))) as [m2|] eqn:Hfree; [|done].
  cbn [mbind option_bind] in Hrun. injection Hrun as <- <- <-. cbn [mem].
  apply N_free_Some in Hfree as (x & [= <-] & ->).
  assert (frame (blocks hd L1) (mem w) m1) as [Hout _].
  { apply (unlink_frame (blocks hd L1) (prevs_of hd H L1)
             (λ i m, get_next m (Ptr (e_addr d)) i) _ _ _ Hdo).
    intros i p _ Hp. by apply (prevs_of_elem hd H L1 i). }
  split; [|split].
  - intros x Hx Hx'. rewrite lookup_delete_ne.
    + apply Hout. intros Hin. apply Hx'. by apply blocks_prefix.
    + intros <-. apply Hx. apply blocks_insert. by left.
  - intros x Hx Hx'. apply blocks_insert in Hx as [->|Hx]; [|done].
    by rewrite lookup_delete_eq.
  - intros x Hx Hx'. exfalso. apply Hx. apply blocks_insert. by right.
Qed.

Lemma pop_last_moves fuel w hd H L1 l key value rc k' v' w' :
  head (sl w) = Ptr hd →
  Rep (mem w) hd H (L1 ++ [l]) →
  count (sl w) ≠ 0 →
  (length L1 + H ≤ fuel)%nat →
  skiplist_pop_last fuel w key value = Some (rc, k', v', w') →
  moves (mem w) (mem w') (blocks hd (L1 ++ [l])) (blocks hd L1).
Proof.
  intros Hhd HRep Hct Hfuel Hrun.
  destruct (Rep_head_deref _ _ _ _ HRep) as (hnx & Hdh & Hlenh).
  pose proof HRep as [Hc _ Hh HH].
  change (head_entry hd H :: L1 ++ [l]) with ((head_entry hd H :: L1) ++ [l]) in Hc.
  apply chain_to_app in Hc as [Hc1 Hc2]. rewrite app_nil_r in Hc1.
  destruct Hc2 as (Hnl & Hll & _). simpl in Hll.
  apply Forall_app in Hh as [Hh1 Hh2]. apply Forall_cons in Hh2 as [Hhl _].
  unfold skiplist_pop_last in Hrun. rewrite Hhd, Hdh in Hrun.
  cbn [mbind option_bind node_h] in Hrun.
  rewrite decide_False in Hrun by done.
  destruct (pop_last_loop_spec (mem w) l Hll ltac:(lia) fuel (head_entry hd H) L1
              (H - 1) (replicate H NULL)) as (prevs' & Hloop & Hlen' & Hlow & _).
  { done. }
  { simpl. lia. }
  { rewrite length_replicate. lia. }
  { lia. }
  cbn [e_addr head_entry] in Hloop, Hlow. rewrite Hloop in Hrun.
  cbn [mbind option_bind] in Hrun.
  rewrite (get_next_prev (mem w) (head_entry hd H :: L1) [l] 0
             (default hd (last_tall 0 L1)) Hc1) in Hrun by (apply last_tall_head; lia).
  cbn [mbind option_bind succ_at] in Hrun. rewrite decide_True in Hrun by lia.
  destruct (node_at_deref _ _ Hnl) as (lnx & Hdl & _). rewrite Hdl in Hrun.
  cbn [mbind option_bind node_h] in Hrun.
  match type of Hrun with
  | context [DO ?n ?body ?m] => destruct (DO n body m) as [m1|] eqn:Hdo; [|done]
  end.
  cbn [mbind option_bind] in Hrun.
  destruct (deref m1 (Ptr (e_addr l))) as [ln'|]; [|done].
  cbn [mbind option_bind] in Hrun.
  destruct (N_free m1 (Ptr (e_addr l))) as [m2|] eqn:Hfree; [|done].
  cbn [mbind option_bind] in Hrun. injection Hrun as <- <- <- <-. cbn [mem].
  apply N_free_Some in Hfree as (x & [= <-] & ->).
  assert (frame (blocks hd L1) (mem w) m1) as [Hout _].
  { apply (unlink_frame (blocks hd L1) prevs' (λ _ _, Some SENTINEL) _ _ _ Hdo).
    intros i p Hi Hp. rewrite Hlow in Hp by lia. injection Hp as <-.
    eexists. split; [done|]. unfold blocks.
    destruct (last_tall i L1) as [x|] eqn:Hx; cbn [default]; [|by left].
    right. by eapply last_tall_Some_addr. }
  split; [|split].
  - intros x Hx Hx'. rewrite lookup_delete_ne.
    + by apply Hout.
    + intros <-. apply Hx. unfold blocks. rewrite map_app. set_solver.
  - intros x Hx Hx'. assert (x = e_addr l) as ->.
    { unfold blocks in *. rewrite map_app in Hx. set_solver. }
    by rewrite lookup_delete_eq.
  - intros x Hx Hx'. exfalso. apply Hx. by apply blocks_prefix.
Qed.

Lemma delete_all_moves {U : Type} fuel w hd H L1 d R L3 key (udata : U)
    (cb : Z → Z → U → U) res u' w' :
  head (sl w) = Ptr hd →
  Rep (mem w) hd H (L1 ++ (d :: R) ++ L3) →
  Forall (λ e, SKIPLIST_CMP (e_key e) key < 0) L1 →
  Forall (λ e, SKIPLIST_CMP (e_key e) key = 0) (d :: R) →
  Forall (λ e, 0 ≤ SKIPLIST_CMP (e_key e) key) L3 →
  match L3 with
  | [] => True
  | e :: _ => SKIPLIST_CMP (e_key e) key ≠ 0
  end →
  (length L1 + H ≤ fuel)%nat →
  (length R < fuel)%nat →
  delete_one_or_all fuel w key udata (Some cb) = Some (res, u', w') →
  moves (mem w) (mem w') (blocks hd (L1 ++ (d :: R) ++ L3)) (blocks hd (L1 ++ L3)).
Proof.
  intros Hhd HRep Hlt Heq Hge Hstop Hfuel HfuelR Hrun.
  assert (Forall (λ e, 0 ≤ SKIPLIST_CMP (e_key e) key) ((d :: R) ++ L3)) as Hge'.
  { apply Forall_app. split; [|done]. eapply Forall_impl; [exact Heq|].
    simpl. intros. lia. }
  destruct (Rep_head_deref _ _ _ _ HRep) as (hnx & Hdh & Hlenh).
  pose proof (init_prevs_spec _ _ _ _ _ key fuel HRep Hlt Hge' Hfuel) as Hprevs.
  destruct (Rep_split_addrs _ _ _ L1 (d :: R) L3 HRep) as (Hnd1 & Hnd & Hfresh).
  pose proof HRep as [Hc Hnd0 Hh HH].
  change (head_entry hd H :: L1 ++ (d :: R) ++ L3)
    with ((head_entry hd H :: L1) ++ (d :: R) ++ L3) in Hc.
  apply chain_to_app in Hc as [Hc1 Hc2]. rewrite app_nil_r in Hc1.
  apply chain_to_app in Hc2 as [HcR Hc3]. rewrite app_nil_r in HcR.
  pose proof HcR as (Hnd_d & _).
  apply Forall_app in Hh as [Hh1 Hh2]. apply Forall_app in Hh2 as [HhR Hh3].
  pose proof HhR as HhR'. apply Forall_cons in HhR' as [Hhd_d _].
  pose proof Heq as Heq'. apply Forall_cons in Heq' as [Hkd _].
  unfold delete_one_or_all in Hrun. rewrite Hhd, Hdh in Hrun.
  cbn [mbind option_bind node_h] in Hrun.
  rewrite Hprevs in Hrun. cbn [mbind option_bind] in Hrun.
  rewrite prevs_of_lookup in Hrun by lia. cbn [mbind option_bind] in Hrun.
  rewrite (get_next_prev (mem w) (head_entry hd H :: L1) ((d :: R) ++ L3) 0
             (default hd (last_tall 0 L1)) Hc1) in Hrun by (apply last_tall_head; lia).
  cbn [mbind option_bind app succ_at] in Hrun. rewrite decide_True in Hrun by lia.
  destruct (node_at_deref _ _ Hnd_d) as (dnx & Hdd & Hlend).
  cbn [IS_SENTINEL] in Hrun. rewrite Hdd in Hrun.
  cbn [mbind option_bind node_k node_h] in Hrun.
  rewrite bool_decide_eq_true_2 in Hrun by done. cbn [negb] in Hrun.
  destruct (delete_all_loop_spec key cb L3 Hstop
              ltac:(eapply Forall_impl; [exact Hh3|]; simpl; intros; lia)
              R fuel d (mem w) (count (sl w)) udata 0%nat (replicate H SENTINEL))
    as (m1 & nexts' & Hloop & Hlen' & Hnx' & Hh1m & Hg1m).
  { done. }
  { done. }
  { rewrite !map_app in Hnd0. apply NoDup_cons in Hnd0 as [_ Hnd0].
    apply NoDup_app in Hnd0 as (_ & _ & Hnd0).
    change (NoDup (map e_addr ((d :: R) ++ L3))). by rewrite map_app. }
  { rewrite length_replicate. apply Forall_forall. intros e He.
    split; [by apply (proj1 (Forall_forall _ _) Heq)|].
    by apply (proj1 (Forall_forall _ _) HhR). }
  { done. }
  rewrite Hloop in Hrun. cbn [mbind option_bind] in Hrun.
  match type of Hrun with
  | context [DO ?n ?body ?m] => destruct (DO n body m) as [m2|] eqn:Hdo; [|done]
  end.
  cbn [mbind option_bind] in Hrun. injection Hrun as <- <- <-. cbn [mem].
  assert (frame (blocks hd L1) m1 m2) as [Hout Hdom].
  { apply (unlink_frame (blocks hd L1) (prevs_of hd H L1) (λ i _, nexts' !! i)
             _ _ _ Hdo).
    intros i p _ Hp. by apply (prevs_of_elem hd H L1 i). }
  split; [|split].
  - intros x Hx Hx'. rewrite blocks_app_cons in Hx.
    rewrite Hout by (intros Hin; apply Hx'; by apply blocks_prefix).
    apply block_ext.
    + rewrite Hh1m. rewrite decide_False; [done|]. tauto.
    + intros j. rewrite Hg1m. rewrite decide_False; [done|]. tauto.
  - intros x Hx Hx'. apply blocks_app_cons in Hx as [Hx|Hx]; [|done].
    apply Hdom. apply hdr_None_iff. rewrite Hh1m. by rewrite decide_True.
  - intros x Hx Hx'. exfalso. apply Hx. apply blocks_app_cons. by right.
Qed.

(** ** Every call keeps to the blocks of the skiplist *)

(** When no allocation fails, [add_or_set] of a key that is not replaced
    links one new node, and the heap outside the skiplist stays as it
    is. *)
Lemma add_or_set_absent_owns fuel w hd H L1 L2 tr key value old m0 :
  Inv_at w hd H (L1 ++ L2) →
  key_sorted (L1 ++ L2) →
  owns m0 (mem w) (blocks hd (L1 ++ L2)) →
  Forall (λ e, SKIPLIST_CMP (e_key e) key < 0) L1 →
  Forall (λ e, 0 ≤ SKIPLIST_CMP (e_key e) key) L2 →
  (tr = true → match L2 with
               | [] => True
               | e :: _ => SKIPLIST_CMP (e_key e) key ≠ 0
               end) →
  (length L1 + H ≤ fuel)%nat →
  ∃ old' w' hd' H' a h,
    add_or_set fuel w tr key value old = Some (0, old', w')
    ∧ Inv_at w' hd' H' (L1 ++ mkE a key value h :: L2)
    ∧ key_sorted (L1 ++ mkE a key value h :: L2)
    ∧ owns m0 (mem w') (blocks hd' (L1 ++ mkE a key value h :: L2)).
Proof.
  intros (Hhd & HRep & Hct & HH) Hs Hown Hlt Hge Hnf Hfuel.
  rewrite (add_or_set_not_found fuel w hd H L1 L2 tr key value old) by done.
  destruct (SKIPLIST_GEN_HEIGHT (rng w)) as [h' g'] eqn:Hgen.
  pose proof (gen_height_range _ _ _ Hgen) as Hh'.
  destruct (malloc_total (mem w) h') as [a Ha].
  destruct (decide (h' ≤ H)%nat) as [Hlow|Hhigh].
  - destruct (add_new_node_low w hd H L1 L2 key value (old_if_absent tr L2 old)
                h' g' a Hhd HRep Hgen ltac:(lia) Ha) as (m' & Hrun & HRep').
    pose proof (add_low_moves w hd H L1 L2 key value _ h' g' a _ Hgen Hlow Ha Hrun)
      as Hmoves.
    eexists _, _, hd, H, a, h'. split; [exact Hrun|]. split; [|split].
    + cbn [sl mem head count]. split; [done|]. split; [done|]. split; [|done].
      rewrite Hct, count_inc_length, !length_app. cbn [length].
      by rewrite Nat.add_succ_r.
    + by apply key_sorted_insert.
    + by apply (owns_moves m0 _ _ _ _ Hown).
  - destruct (malloc_total (<[a := mkN h' key value (replicate h' SENTINEL)]> (mem w)) h')
      as [b Hb].
    destruct (add_new_node_grow w hd H L1 L2 key value (old_if_absent tr L2 old)
                h' g' a b Hhd HRep Hgen ltac:(lia) Ha Hb) as (m' & Hrun & HRep').
    pose proof (add_grow_moves w hd H L1 L2 key value _ h' g' a b _ Hhd HRep Hgen
                  ltac:(lia) Ha Hb Hrun) as Hmoves.
    eexists _, _, b, h', a, h'. split; [exact Hrun|]. split; [|split].
    + cbn [sl mem head count]. split; [done|]. split; [done|]. split; [|lia].
      rewrite Hct, count_inc_length, !length_app. cbn [length].
      by rewrite Nat.add_succ_r.
    + by apply key_sorted_insert.
    + by apply (owns_moves m0 _ _ _ _ Hown).
Qed.

Lemma owns_same_blocks m0 m m' S S' :
  owns m0 m S →
  (∀ x, x ∈ S' ↔ x ∈ S) →
  (∀ x, x ∉ S → m' !! x = m !! x) →
  owns m0 m' S'.
Proof.
  intros [Hnone Hsame] Heq Hkeep. split.
  - intros x Hx. apply Hnone. by apply Heq.
  - intros x Hx. rewrite Heq in Hx. rewrite Hkeep by done. by apply Hsame.
Qed.

Lemma add_or_set_owns fuel w hd H L tr key value old m0 :
  Inv_at w hd H L → key_sorted L → owns m0 (mem w) (blocks hd L) →
  (length L + SKIPLIST_MAX_HEIGHT ≤ fuel)%nat →
  ∃ old' w' hd' H' L',
    add_or_set fuel w tr key value old = Some (0, old', w')
    ∧ Inv_at w' hd' H' L' ∧ key_sorted L' ∧ owns m0 (mem w') (blocks hd' L')
    ∧ (length L' ≤ S (length L))%nat.
Proof.
  intros HInv Hs Hown Hfuel. pose proof HInv as (Hhd & HRep & Hct & HH).
  destruct (split_at_key key L Hs) as (L1 & L2 & -> & Hlt & Hge).
  rewrite length_app in Hfuel.
  assert ((∃ e L2', tr = true ∧ L2 = e :: L2' ∧ SKIPLIST_CMP (e_key e) key = 0)
          ∨ (tr = true → match L2 with
                         | [] => True
                         | e :: _ => SKIPLIST_CMP (e_key e) key ≠ 0
                         end)) as [(e & L2' & -> & -> & Heq)|Hnf].
  { destruct tr; [|by right]. destruct L2 as [|e L2']; [by right|].
    destruct (decide (SKIPLIST_CMP (e_key e) key = 0)); [left|by right].
    by exists e, L2'. }
  - apply Forall_cons in Hge as [_ Hge].
    destruct (set_replace_spec fuel w hd H L1 e L2' key value old Hhd HRep Hlt Heq Hge
                ltac:(lia)) as (nx & Hme & Hrun & HRep').
    eexists _, _, hd, H, _. split; [exact Hrun|]. cbn [sl mem].
    split; [|split; [|split]].
    + split; [done|]. split; [done|]. split; [|done]. cbn [sl].
      rewrite Hct, !length_app. done.
    + by apply key_sorted_set_val.
    + apply (owns_same_blocks m0 (mem w) _ (blocks hd (L1 ++ e :: L2'))); [done| |].
      * intros x. by rewrite !blocks_insert.
      * intros x Hx. rewrite lookup_insert_ne; [done|]. intros <-. apply Hx.
        apply blocks_insert. by left.
    + rewrite !length_app. simpl. lia.
  - destruct (add_or_set_absent_owns fuel w hd H L1 L2 tr key value old m0)
      as (old' & w' & hd' & H' & a & h & Hrun & HInv' & Hs' & Hown'); try done; [lia|].
    eexists _, _, hd', H', _. split; [exact Hrun|]. split; [done|]. split; [done|].
    split; [done|]. rewrite !length_app. simpl. lia.
Qed.

Lemma delete_owns {U : Type} fuel w hd H L key (udata : U) cb m0 :
  Inv_at w hd H L → key_sorted L → owns m0 (mem w) (blocks hd L) →
  (length L + SKIPLIST_MAX_HEIGHT < fuel)%nat →
  ∃ res udata' w' L',
    delete_one_or_all fuel w key udata cb = Some (res, udata', w')
    ∧ Inv_at w' hd H L' ∧ key_sorted L' ∧ owns m0 (mem w') (blocks hd L')
    ∧ (length L' ≤ length L)%nat.
Proof.
  intros HInv Hs Hown Hfuel. pose proof HInv as (Hhd & HRep & Hct & HH).
  destruct (split_at_key key L Hs) as (L1 & L2 & -> & Hlt & Hge).
  destruct (split_run key L2) as (R & L3 & -> & HR & H3).
  rewrite !length_app in Hfuel.
  destruct R as [|d R].
  - rewrite (delete_not_found fuel w hd H L1 L3 key udata cb) by (done || lia).
    by eexists _, _, _, (L1 ++ L3).
  - destruct cb as [f|].
    + apply Forall_app in Hge as [_ Hge3].
      destruct (delete_all_spec fuel w hd H L1 d R L3 key udata f Hhd HRep Hlt HR Hge3 H3)
        as (m' & Hrun & HRep'); [lia|simpl in Hfuel; lia|].
      pose proof (delete_all_moves fuel w hd H L1 d R L3 key udata f _ _ _
                    Hhd HRep Hlt HR Hge3 H3 ltac:(lia) ltac:(simpl in Hfuel; lia) Hrun)
        as Hmoves.
      eexists _, _, _, (L1 ++ L3). split; [exact Hrun|]. cbn [sl mem head count].
      split; [|split; [|split]].
      * split; [done|]. split; [done|]. split; [|done]. cbn [sl count].
        rewrite Hct. rewrite <- (count_dec_iter (S (length R)) (length (L1 ++ L3))).
        do 2 f_equal. rewrite !length_app. cbn [length]. lia.
      * by eapply key_sorted_remove.
      * by apply (owns_moves m0 _ _ _ _ Hown).
      * rewrite !length_app. simpl. lia.
    + apply Forall_cons in HR as [Hd HR]. cbn [app] in *.
      assert (Forall (λ e, 0 ≤ SKIPLIST_CMP (e_key e) key) (R ++ L3)) as Hge3
        by (by apply Forall_cons in Hge as [_ ?]).
      destruct (delete_one_spec fuel w hd H L1 d (R ++ L3) key udata Hhd HRep Hlt Hd Hge3)
        as (m' & Hrun & HRep'); [lia|].
      pose proof (delete_one_moves fuel w hd H L1 d (R ++ L3) key udata _ _ _
                    Hhd HRep Hlt Hd Hge3 ltac:(lia) Hrun) as Hmoves.
      eexists _, _, _, (L1 ++ R ++ L3). split; [exact Hrun|]. cbn [sl mem head count].
      split; [|split; [|split]].
      * split; [done|]. split; [done|]. split; [|done]. cbn [sl count].
        rewrite Hct. rewrite <- (count_dec_length (length (L1 ++ R ++ L3))).
        do 2 f_equal. rewrite !length_app. cbn [length]. rewrite !length_app. lia.
      * by apply (key_sorted_remove L1 [d]).
      * by apply (owns_moves m0 _ _ _ _ Hown).
      * rewrite !length_app. cbn [length]. rewrite !length_app. lia.
Qed.

Lemma pop_first_owns w hd H L key value m0 :
  Inv_at w hd H L → key_sorted L → owns m0 (mem w) (blocks hd L) →
  ∃ rc key' value' w' L',
    skiplist_pop_first w key value = Some (rc, key', value', w')
    ∧ Inv_at w' hd H L' ∧ key_sorted L' ∧ owns m0 (mem w') (blocks hd L')
    ∧ (length L' ≤ length L)%nat.
Proof.
  intros HInv Hs Hown. pose proof HInv as (Hhd & HRep & Hct & HH).
  destruct L as [|f L].
  - rewrite (pop_first_empty w hd H key value Hhd HRep). by eexists _, _, _, _, [].
  - destruct (pop_first_spec w hd H f L key value Hhd HRep) as (m' & Hrun & HRep').
    pose proof (pop_first_moves w hd H f L key value _ _ _ _ Hhd HRep Hrun) as Hmoves.
    eexists _, _, _, _, L. split; [exact Hrun|]. cbn [sl mem head count].
    split; [|split; [|split]].
    + split; [done|]. split; [done|]. split; [|done]. cbn [sl count].
      rewrite Hct. apply count_dec_length.
    + by apply StronglySorted_inv in Hs as [? _].
    + by apply (owns_moves m0 _ _ _ _ Hown).
    + simpl. lia.
Qed.

Lemma pop_last_owns fuel w hd H L key value m0 :
  Inv_at w hd H L → key_sorted L → owns m0 (mem w) (blocks hd L) →
  (length L + SKIPLIST_MAX_HEIGHT < fuel)%nat →
  ∃ rc key' value' w' L',
    skiplist_pop_last fuel w key value = Some (rc, key', value', w')
    ∧ Inv_at w' hd H L' ∧ key_sorted L' ∧ owns m0 (mem w') (blocks hd L')
    ∧ (length L' ≤ length L)%nat.
Proof.
  intros HInv Hs Hown Hfuel. pose proof HInv as (Hhd & HRep & Hct & HH).
  destruct (decide (count (sl w) = 0)) as [Hz|Hnz].
  - rewrite (pop_last_count_zero fuel w hd H L key value Hhd HRep Hz).
    by eexists _, _, _, _, L.
  - destruct L as [|l L _] using rev_ind.
    { exfalso. apply Hnz. rewrite Hct. simpl. by apply Zmod_0_l. }
    rewrite length_app in Hfuel.
    destruct (pop_last_spec fuel w hd H L l key value Hhd HRep Hnz ltac:(lia))
      as (m' & Hrun & HRep').
    pose proof (pop_last_moves fuel w hd H L l key value _ _ _ _ Hhd HRep Hnz
                  ltac:(lia) Hrun) as Hmoves.
    eexists _, _, _, _, L. split; [exact Hrun|]. cbn [sl mem head count].
    split; [|split; [|split]].
    + split; [done|]. split; [done|]. split; [|done]. cbn [sl count].
      rewrite Hct, length_app. simpl. rewrite Nat.add_1_r. apply count_dec_length.
    + by apply key_sorted_app in Hs as [? _].
    + by apply (owns_moves m0 _ _ _ _ Hown).
    + rewrite length_app. lia.
Qed.

Lemma apply_op_owns fuel w hd H L o m0 :
  Inv_at w hd H L → key_sorted L → owns m0 (mem w) (blocks hd L) →
  (length L + SKIPLIST_MAX_HEIGHT < fuel)%nat →
  ∃ w' hd' H' L',
    apply_op fuel w o = Some w'
    ∧ Inv_at w' hd' H' L' ∧ key_sorted L' ∧ owns m0 (mem w') (blocks hd' L')
    ∧ (length L' ≤ S (length L))%nat.
Proof.
  intros HInv Hs Hown Hfuel.
  destruct o as [k v|k v old|k|k udata cb|k v|k v]; cbn [apply_op].
  - destruct (add_or_set_owns fuel w hd H L false k v None m0 HInv Hs Hown ltac:(lia))
      as (old' & w' & hd' & H' & L' & Hrun & HInv' & Hs' & Hown' & Hlen).
    exists w', hd', H', L'. unfold skiplist_add. rewrite Hrun. done.
  - destruct (add_or_set_owns fuel w hd H L true k v old m0 HInv Hs Hown ltac:(lia))
      as (old' & w' & hd' & H' & L' & Hrun & HInv' & Hs' & Hown' & Hlen).
    exists w', hd', H', L'. unfold skiplist_set. rewrite Hrun. done.
  - destruct (delete_owns fuel w hd H L k tt None m0 HInv Hs Hown Hfuel)
      as (res & u' & w' & L' & Hrun & HInv' & Hs' & Hown' & Hlen).
    exists w', hd, H, L'. unfold skiplist_delete. rewrite Hrun.
    split; [done|]. split; [done|]. split; [done|]. split; [done|lia].
  - destruct (delete_owns fuel w hd H L k udata (Some cb) m0 HInv Hs Hown Hfuel)
      as (res & u' & w' & L' & Hrun & HInv' & Hs' & Hown' & Hlen).
    exists w', hd, H, L'. unfold skiplist_delete_all. rewrite Hrun.
    split; [done|]. split; [done|]. split; [done|]. split; [done|lia].
  - destruct (pop_first_owns w hd H L k v m0 HInv Hs Hown)
      as (rc & k' & v' & w' & L' & Hrun & HInv' & Hs' & Hown' & Hlen).
    exists w', hd, H, L'. rewrite Hrun.
    split; [done|]. split; [done|]. split; [done|]. split; [done|lia].
  - destruct (pop_last_owns fuel w hd H L k v m0 HInv Hs Hown Hfuel)
      as (rc & k' & v' & w' & L' & Hrun & HInv' & Hs' & Hown' & Hlen).
    exists w', hd, H, L'. rewrite Hrun.
    split; [done|]. split; [done|]. split; [done|]. split; [done|lia].
Qed.

Lemma run_owns fuel ops m0 :
  ∀ w hd H L,
    Inv_at w hd H L → key_sorted L → owns m0 (mem w) (blocks hd L) →
    (length L + length ops + SKIPLIST_MAX_HEIGHT < fuel)%nat →
    ∃ w' hd' H' L',
      run fuel w ops = Some w'
      ∧ Inv_at w' hd' H' L' ∧ key_sorted L' ∧ owns m0 (mem w') (blocks hd' L')
      ∧ (length L' ≤ length L + length ops)%nat.
Proof.
  induction ops as [|o ops IH]; intros w hd H L HInv Hs Hown Hfuel; cbn [run].
  - exists w, hd, H, L. split; [done|]. split; [done|]. split; [done|].
    split; [done|lia].
  - simpl in Hfuel.
    destruct (apply_op_owns fuel w hd H L o m0 HInv Hs Hown ltac:(lia))
      as (w1 & hd1 & H1 & L1 & -> & HInv1 & Hs1 & Hown1 & Hlen1).
    cbn [mbind option_bind].
    destruct (IH w1 hd1 H1 L1 HInv1 Hs1 Hown1 ltac:(lia))
      as (w' & hd' & H' & L' & Hrun & HInv' & Hs' & Hown' & Hlen').
    exists w', hd', H', L'. split; [done|]. split; [done|]. split; [done|].
    split; [done|]. simpl. lia.
Qed.

Lemma skiplist_new_owns m0 g0 w0 :
  skiplist_new m0 g0 = Some w0 →
  ∃ hd, Inv_at w0 hd 1 [] ∧ owns m0 (mem w0) (blocks hd []).
Proof.
  intros Hnew. destruct (skiplist_new_Inv_at _ _ _ Hnew) as (hd & HInv & _).
  exists hd. split; [done|]. destruct HInv as (Hhd & _).
  unfold skiplist_new, N_alloc in Hnew.
  destruct (SKIPLIST_MALLOC m0 1) as [a|] eqn:Ha; [|done].
  injection Hnew as <-. cbn [sl head mem] in *. injection Hhd as <-.
  pose proof (malloc_fresh _ _ _ Ha) as Hfresh. unfold blocks. cbn [map]. split.
  - by intros x ->%list_elem_of_singleton.
  - intros x Hx. rewrite lookup_insert_ne; [done|]. intros <-. apply Hx. by left.
Qed.

(** X20. When no allocation fails, any sequence of add, set, delete,
    delete_all, pop_first and pop_last calls on a fresh skiplist leaves
    every block the heap held before [skiplist_new] as it was, and holds no
    block besides those and the blocks of the head and the nodes: no removed
    node and no replaced head stays allocated. *)
Theorem run_keeps_to_own_blocks (ops : list op) m0 g0 w0 fuel :
  skiplist_new m0 g0 = Some w0 →
  (length ops + SKIPLIST_MAX_HEIGHT < fuel)%nat →
  ∃ w hd H L,
    run fuel w0 ops = Some w
    ∧ Inv_at w hd H L
    ∧ (∀ x n, m0 !! x = Some n → mem w !! x = Some n ∧ x ∉ blocks hd L)
    ∧ (∀ x, m0 !! x = None → x ∉ blocks hd L → mem w !! x = None).
Proof.
  intros Hnew Hfuel. destruct (skiplist_new_owns _ _ _ Hnew) as (hd0 & HInv0 & Hown0).
  destruct (run_owns fuel ops m0 w0 hd0 1 [] HInv0 ltac:(constructor) Hown0
              ltac:(simpl; lia))
    as (w & hd & H & L & Hrun & HInv & _ & [Hnone Hsame] & _).
  exists w, hd, H, L. split; [done|]. split; [done|]. split.
  - intros x n Hx.
    assert (x ∉ blocks hd L) as Hnot.
    { intros Hin. specialize (Hnone x Hin). congruence. }
    split; [|done]. by rewrite Hsame.
  - intros x Hx Hnot. by rewrite Hsame.
Qed.

(** X21. When no allocation fails, [skiplist_new], any sequence of add, set,
    delete, delete_all, pop_first and pop_last calls, and then
    [skiplist_free] leave the heap exactly as it was before [skiplist_new]. *)
Theorem free_after_run_restores_heap {U : Type} (ops : list op) m0 g0 w0 fuel
    (udata : U) cb :
  skiplist_new m0 g0 = Some w0 →
  (length ops + SKIPLIST_MAX_HEIGHT < fuel)%nat →
  ∃ w ct udata',
    run fuel w0 ops = Some w
    ∧ skiplist_free fuel w udata cb = Some (ct, udata', m0).
Proof.
  intros Hnew Hfuel. destruct (skiplist_new_owns _ _ _ Hnew) as (hd0 & HInv0 & Hown0).
  destruct (run_owns fuel ops m0 w0 hd0 1 [] HInv0 ltac:(constructor) Hown0
              ltac:(simpl; lia))
    as (w & hd & H & L & Hrun & HInv & _ & [Hnone Hsame] & Hlen).
  pose proof HInv as (Hhd & HRep & _).
  destruct (clear_spec fuel w hd H L udata cb Hhd HRep ltac:(simpl in Hlen; lia))
    as (m' & Hclear & HRep' & Hgone & Hframe).
  exists w. unfold skiplist_free. rewrite Hclear. cbn [mbind option_bind sl mem].
  rewrite Hhd. destruct (rep_chain _ _ _ _ HRep') as (Hn & _).
  rewrite (N_free_spec m' hd _ _ _ _ Hn). cbn [mbind option_bind].
  eexists _, _. split; [done|]. do 2 f_equal. apply map_eq. intros x.
  destruct (decide (x = hd)) as [->|Hne].
  - rewrite lookup_delete_eq. symmetry. apply Hnone. by left.
  - rewrite lookup_delete_ne by done.
    destruct (decide (x ∈ map e_addr L)) as [Hin|Hnin].
    + rewrite Hgone by done. symmetry. apply Hnone. by right.
    + rewrite Hframe by (unfold blocks; set_solver). apply Hsame.
      unfold blocks. set_solver.
Qed.

(** ** The block of a deleted node *)

(** X6. [skiplist_delete] of a stored key unlinks the first node with that
    key, and only that node, returns its value and releases its block:
    afterwards the heap holds nothing at the address of the node, the
    other nodes are in place, in order, and no block outside the skiplist
    has changed. *)
Theorem delete_removes_first_equal fuel w hd L1 d L2 key :
  Inv w (L1 ++ d :: L2) →
  head (sl w) = Ptr hd →
  Forall (λ e, SKIPLIST_CMP (e_key e) key < 0) L1 →
  SKIPLIST_CMP (e_key d) key = 0 →
  (length (L1 ++ d :: L2) + SKIPLIST_MAX_HEIGHT ≤ fuel)%nat →
  ∃ w',
    skiplist_delete fuel w key = Some (e_val d, w')
    ∧ Inv w' (L1 ++ L2)
    ∧ head (sl w') = Ptr hd
    ∧ skiplist_count w' = count_dec (skiplist_count w)
    ∧ skiplist_iter fuel w' [] collect = Some (pairs_of (L1 ++ L2))
    ∧ mem w' !! e_addr d = None
    ∧ (∀ x, x ∉ blocks hd (L1 ++ d :: L2) → mem w' !! x = mem w !! x).
Proof.
  clear malloc_total.
  intros (hd0 & H & Hhd & HRep & Hs & Hct & HH) Hhd' Hlt Hd Hfuel.
  rewrite Hhd in Hhd'. injection Hhd' as <-.
  rewrite length_app in Hfuel. cbn [length] in Hfuel.
  assert (Forall (λ e, 0 ≤ SKIPLIST_CMP (e_key e) key) L2) as Hge.
  { apply key_sorted_app in Hs as (_ & Hs2 & _).
    apply (sorted_tail_ge key d); [done|lia]. }
  destruct (delete_one_spec fuel w hd0 H L1 d L2 key tt Hhd HRep Hlt Hd Hge)
    as (m' & Hrun & HRep'); [lia|].
  pose proof (delete_one_moves fuel w hd0 H L1 d L2 key tt _ _ _
                Hhd HRep Hlt Hd Hge ltac:(lia) Hrun) as (Hkeep & Hgone & _).
  destruct (Rep_split_addrs _ _ _ L1 [d] L2 HRep) as (_ & _ & Hfresh).
  unfold skiplist_delete. rewrite Hrun. cbn [mbind option_bind].
  eexists. split; [done|]. cbn [sl mem head count].
  split; [|split; [done|split; [done|split; [|split]]]].
  - exists hd0, H. cbn [sl mem head count]. split; [done|]. split; [done|].
    split; [by apply (key_sorted_remove L1 [d])|]. split; [|done].
    rewrite Hct. rewrite <- (count_dec_length (length (L1 ++ L2))).
    do 2 f_equal. rewrite !length_app. cbn [length]. lia.
  - apply (skiplist_iter_spec fuel _ hd0 H); [done|done|].
    rewrite length_app. lia.
  - apply Hgone.
    + apply blocks_insert. by left.
    + apply (Hfresh d). by left.
  - intros x Hx. apply Hkeep; [done|]. intros Hin. apply Hx.
    apply blocks_insert. by right.
Qed.

End Skiplist.

(** * The code at concrete collaborators

    Integer keys compared by [cmp_int], blocks handed out by
    [bump_malloc], draws replayed from a list, at most 8 levels and a
    32-bit [skiplist_count_t].  The head's key and value, which the code
    sets to the address of the sentinel, are -1 here. *)

(** Following the words of the specification of the height generator:
    the number of consecutive set bits of [r], from bit 0 upwards. *)
Fixpoint low_set_bits (rounds : nat) (r : Z) : nat :=
  match rounds with
  | O => 0%nat
  | S rounds' =>
      if Z.testbit r 0 then S (low_set_bits rounds' (Z.shiftr r 1)) else 0%nat
  end.

(** Following the words of the specification: one plus that number,
    capped at the maximal height. *)
Definition height_by_low_bits (max_height : nat) (r : Z) : nat :=
  Nat.min max_height (1 + low_set_bits 32 r).

Definition demo_seed : Z → list Z := replay_seed (λ seed, [seed; 0; 6; 1; 2; 4; 0; 14]).

(** A fresh skiplist whose generator will replay [g]. *)
Definition demo_fresh (g : list Z) : world (list Z) :=
  mkW (list Z) (<[1%nat := mkN 1 (-1) (-1) [SENTINEL]]> ∅) (mkT 0 (Ptr 1)) g.

Definition demo_new (g : list Z) : option (world (list Z)) :=
  skiplist_new bump_malloc (list Z) (-1) ∅ g.

Definition demo_add (w : world (list Z)) (key value : Z) : option (Z * world (list Z)) :=
  skiplist_add 8 (2^32) cmp_int bump_malloc (list Z) replay_random (-1) 24 w key value.

Definition demo_set (w : world (list Z)) (key value : Z) (old : option Z)
  : option (Z * option Z * world (list Z)) :=
  skiplist_set 8 (2^32) cmp_int bump_malloc (list Z) replay_random (-1) 24 w key value old.

Definition demo_add_all (w : world (list Z)) (kvs : list (Z * Z))
  : option (list Z * world (list Z)) :=
  add_all 8 (2^32) cmp_int bump_malloc (list Z) replay_random (-1) 24 w kvs.

Definition demo_iter (w : world (list Z)) : option (list (Z * Z)) :=
  skiplist_iter (list Z) 24 w [] collect.

Definition demo_Inv : world (list Z) → list entry → Prop :=
  Inv 8 (2^32) cmp_int (list Z) (-1).

(** The skiplist after [skiplist_add] of (5, 10), (5, 20), (7, 30) and
    (3, 40) with the draws 2, 0, 6, 1: heights 2, 1, 3 and 1, the head
    grown twice. *)
Definition demo_world : world (list Z) :=
  mkW (list Z)
    (list_to_map
       [(6%nat, mkN 3 (-1) (-1) [Ptr 7; Ptr 2; Ptr 5]);
        (7%nat, mkN 1 3 40 [Ptr 4]);
        (4%nat, mkN 1 5 20 [Ptr 2]);
        (2%nat, mkN 2 5 10 [Ptr 5; Ptr 5]);
        (5%nat, mkN 3 7 30 [SENTINEL; SENTINEL; SENTINEL])])
    (mkT 4 (Ptr 6)) [].

Definition demo_entries : list entry :=
  [mkE 7 3 40 1; mkE 4 5 20 1; mkE 2 5 10 2; mkE 5 7 30 3].

(** Every kind of mutating call, duplicates included. *)
Definition demo_ops : list op :=
  [OpAdd 5 50; OpAdd 3 30; OpSet 5 51 (Some 0); OpAdd 5 52; OpDelete 3;
   OpAdd 9 90; OpSet 4 40 None; OpDeleteAll 5 [] record_value; OpAdd 2 20;
   OpAdd 7 70; OpPopFirst (Some 0) (Some 0); OpPopLast (Some 0) (Some 0)].

(** Three nodes of key 5, added with the values 10, 20, 30 in that order. *)
Definition three_fives : option (world (list Z)) :=
  w0 ← demo_new [2; 0; 6];
  '(_, w3) ← demo_add_all w0 [(5, 10); (5, 20); (5, 30)];
  Some w3.

(** ** Further concrete inputs *)

Definition demo_Inv_at : world (list Z) → nat → nat → list entry → Prop :=
  Inv_at 8 (2^32) (list Z) (-1).

(** The skiplist after [skiplist_add] of (5, 50) with the draw 6 and of
    (1, 10) with the draw 0, and [skiplist_delete] of 5: the head has
    three levels, the only node one. *)
Definition demo_short : world (list Z) :=
  mkW (list Z)
    (list_to_map
       [(3%nat, mkN 3 (-1) (-1) [Ptr 4; SENTINEL; SENTINEL]);
        (4%nat, mkN 1 1 10 [SENTINEL])])
    (mkT 1 (Ptr 3)) [].

(** A visitor that records what it is shown and stops at key [stop]. *)
Definition collect_until (stop key value : Z) (seen : list (Z * Z)) : Z * list (Z * Z) :=
  (if decide (key = stop) then 1 else 0, seen ++ [(key, value)]).

(** A heap that already holds a block of some other structure. *)
Definition demo_busy : gmap nat skiplist_node := {[ 10%nat := mkN 1 7 7 [SENTINEL] ]}.

Definition demo_fresh_busy (g : list Z) : world (list Z) :=
  mkW (list Z) (<[11%nat := mkN 1 (-1) (-1) [SENTINEL]]> demo_busy) (mkT 0 (Ptr 11)) g.

(** The skiplist after [skiplist_add] of (9, 90) with the draw 6 and
    [skiplist_delete] of 9: no node, a head of three levels. *)
Definition demo_emptied : world (list Z) :=
  mkW (list Z) {[ 3%nat := mkN 3 (-1) (-1) [SENTINEL; SENTINEL; SENTINEL] ]}
    (mkT 0 (Ptr 3)) [].

Ltac solve_links :=
  let j := fresh "j" in
  let Hj := fresh "Hj" in
  intros j Hj; cbn in Hj;
  repeat (destruct j as [|j]; [vm_compute; reflexivity|]); exfalso; lia.

Lemma cmp_int_lt a b : cmp_int a b < 0 ↔ a < b.
Proof. unfold cmp_int. destruct (Z.compare_spec a b); lia. Qed.

Lemma cmp_int_gt a b : 0 < cmp_int a b ↔ b < a.
Proof. unfold cmp_int. destruct (Z.compare_spec a b); lia. Qed.

Lemma cmp_int_le a b : cmp_int a b ≤ 0 ↔ a ≤ b.
Proof. unfold cmp_int. destruct (Z.compare_spec a b); lia. Qed.

Lemma cmp_int_flip a b : cmp_int a b < 0 ↔ 0 < cmp_int b a.
Proof. rewrite cmp_int_lt, cmp_int_gt. done. Qed.

Lemma cmp_int_trans a b c : cmp_int a b ≤ 0 → cmp_int b c ≤ 0 → cmp_int a c ≤ 0.
Proof. rewrite !cmp_int_le. lia. Qed.

Lemma bump_malloc_above (m : gmap nat skiplist_node) (a : nat) :
  is_Some (m !! a) → (a ≤ map_fold (λ a _ acc, Nat.max a acc) 0%nat m)%nat.
Proof.
  revert a.
  apply (map_fold_weak_ind (λ r (m : gmap nat skiplist_node),
                              ∀ a, is_Some (m !! a) → (a ≤ r)%nat)).
  - intros a [x Hx]. by rewrite lookup_empty in Hx.
  - intros i x m' r Hi IH a Ha. destruct (decide (a = i)) as [->|Hne]; [lia|].
    rewrite lookup_insert_ne in Ha by done. specialize (IH a Ha). lia.
Qed.

Lemma bump_malloc_fresh (m : gmap nat skiplist_node) (n a : nat) :
  bump_malloc m n = Some a → m !! a = None.
Proof.
  unfold bump_malloc. intros [= <-]. apply eq_None_not_Some. intros Hin.
  apply bump_malloc_above in Hin. lia.
Qed.

Lemma bump_malloc_total m n : is_Some (bump_malloc m n).
Proof. by eexists. Qed.

Lemma bounded_malloc_fresh limit (m : gmap nat skiplist_node) (n a : nat) :
  bounded_malloc limit m n = Some a → m !! a = None.
Proof. unfold bounded_malloc. case_decide; [apply bump_malloc_fresh|done]. Qed.

Lemma max_height_8 : (1 ≤ 8)%nat.
Proof. lia. Qed.

Lemma count_modulus_32 : 0 < 2 ^ 32.
Proof. done. Qed.

Lemma demo_new_fresh g : demo_new g = Some (demo_fresh g).
Proof. vm_compute. reflexivity. Qed.

Lemma demo_world_reached :
  (w ← demo_new [2; 0; 6; 1]; demo_add_all w [(5, 10); (5, 20); (7, 30); (3, 40)])
  = Some ([0; 0; 0; 0], demo_world).
Proof. vm_compute. reflexivity. Qed.

Lemma demo_world_Inv : demo_Inv demo_world demo_entries.
Proof.
  exists 6%nat, 3%nat. split; [done|]. split; [|split; [|split; [done|lia]]].
  - split.
    + cbn [chain_to demo_entries]. repeat split; try solve_links.
    + cbn. repeat (constructor; [set_solver|]). constructor.
    + repeat (constructor; [cbn; lia|]). constructor.
    + lia.
  - unfold key_sorted, demo_entries.
    repeat (constructor; [by repeat constructor|]). constructor.
Qed.

(** ** C1: a run of every kind of mutating call *)

Lemma C1_sorted_after_demo_ops :
  ∃ w visited,
    run 8 (2^32) cmp_int bump_malloc (list Z) replay_random (-1) 24
      (demo_fresh [2; 0; 6; 1; 2; 4; 0; 14]) demo_ops = Some w
    ∧ demo_iter w = Some visited
    ∧ StronglySorted (λ a b, cmp_int a.1 b.1 ≤ 0) visited.
Proof.
  apply (C1_iteration_is_sorted 8 (2^32) cmp_int bump_malloc (list Z) demo_seed
           replay_random (-1) bump_malloc_fresh cmp_int_flip cmp_int_trans
           max_height_8 count_modulus_32 demo_ops ∅ [2; 0; 6; 1; 2; 4; 0; 14]).
  - apply demo_new_fresh.
  - cbn. lia.
Defined.

(** ** C2: [skiplist_clear] and [count] *)

(** C2 (code at the failing input). On a fresh skiplist, [skiplist_add]
    of (1, 10) and then [skiplist_clear] (no callback): the call reports
    1 node cleared and a full iteration afterwards visits no node, yet
    [skiplist_count] is still 1: [skiplist_clear] never writes [count]. *)
Theorem C2_clear_keeps_count :
  (w0 ← demo_new [];
   '(_, w1) ← demo_add w0 1 10;
   '(ct, _, w2) ← skiplist_clear (2^32) (list Z) (U := list Z) 24 w1 [] None;
   visited ← demo_iter w2;
   Some (ct, skiplist_count (list Z) w1, skiplist_count (list Z) w2, length visited))
  = Some (1, 1, 1, 0%nat).
Proof. vm_compute. reflexivity. Qed.

(** ** C3: nodes with equal keys *)

(** After the adds of (5, 10), (5, 20), (5, 30), [skiplist_delete] of 5
    returns 30 and leaves 20, 10, where the claim has 10 returned and
    20, 30 left; the visitor of [skiplist_delete_all] is shown 30, 20,
    10, where the claim has 10, 20, 30. *)
Lemma C3_oldest_first_fails :
  (w3 ← three_fives; demo_iter w3) = Some [(5, 30); (5, 20); (5, 10)]
  ∧ (w3 ← three_fives;
     '(v, w4) ← skiplist_delete (2^32) cmp_int (list Z) 24 w3 5;
     left ← demo_iter w4;
     Some (v, left)) = Some (30, [(5, 20); (5, 10)])
  ∧ (w3 ← three_fives;
     '(v, w4) ← skiplist_delete (2^32) cmp_int (list Z) 24 w3 5;
     left ← demo_iter w4;
     Some (v, left)) ≠ Some (10, [(5, 20); (5, 30)])
  ∧ (w3 ← three_fives;
     '(seen, _) ← skiplist_delete_all (2^32) cmp_int (list Z) 24 w3 5 [] record_value;
     Some seen) = Some [30; 20; 10]
  ∧ (w3 ← three_fives;
     '(seen, _) ← skiplist_delete_all (2^32) cmp_int (list Z) 24 w3 5 [] record_value;
     Some seen) ≠ Some [10; 20; 30].
Proof. repeat split; try (vm_compute; reflexivity); vm_compute; discriminate. Qed.

Lemma C3_newest_first_demo :
  ∃ w3 w4 w5,
    demo_iter w3 = Some [(5, 30); (5, 20); (5, 10)]
    ∧ skiplist_delete (2^32) cmp_int (list Z) 24 w3 5 = Some (30, w4)
    ∧ demo_iter w4 = Some [(5, 20); (5, 10)]
    ∧ skiplist_delete_all (2^32) cmp_int (list Z) 24 w3 5 [] record_value
      = Some ([30; 20; 10], w5)
    ∧ skiplist_count (list Z) w5 = 0.
Proof.
  destruct (C3_duplicates_newest_first 8 (2^32) cmp_int bump_malloc (list Z) demo_seed
              replay_random (-1) bump_malloc_fresh cmp_int_flip cmp_int_trans
              max_height_8 count_modulus_32 bump_malloc_total
              ∅ [2; 0; 6] (demo_fresh [2; 0; 6]) 10 20 30 24
              (demo_new_fresh [2; 0; 6]) ltac:(cbn; lia))
    as (w1 & w2 & w3 & w4 & w5 & _ & _ & _ & Hit3 & Hdel & Hit4 & _ & Hall & _ & _ & Hct).
  exists w3, w4, w5. repeat split; assumption.
Defined.

(** ** C4: [skiplist_set] and the previous value *)

(** C4 (code at the failing inputs). [skiplist_set] of key 7 with the
    out-parameter [old] holding 42 before the call.  On an empty
    skiplist, and on one whose only key is 3, the pair is inserted and
    [old] still holds 42; on one whose only key is 9 the pair is inserted
    and [old] holds [vNULL].  The write of [vNULL] is under the test that
    the successor is not the sentinel. *)
Theorem C4_old_untouched_at_end :
  (w0 ← demo_new [];
   '(rc, old', w1) ← demo_set w0 7 70 (Some 42);
   visited ← demo_iter w1;
   Some (rc, old', visited)) = Some (0, Some 42, [(7, 70)])
  ∧ (w0 ← demo_new [];
     '(_, w1) ← demo_add w0 3 30;
     '(rc, old', w2) ← demo_set w1 7 70 (Some 42);
     visited ← demo_iter w2;
     Some (rc, old', visited)) = Some (0, Some 42, [(3, 30); (7, 70)])
  ∧ (w0 ← demo_new [];
     '(_, w1) ← demo_add w0 9 90;
     '(rc, old', w2) ← demo_set w1 7 70 (Some 42);
     visited ← demo_iter w2;
     Some (rc, old', visited)) = Some (0, Some vNULL, [(7, 70); (9, 90)]).
Proof. repeat split; vm_compute; reflexivity. Qed.

(** ** C5: lookup *)

(** A node that stores [vNULL] under key 5: [skiplist_member] of 5 is
    false and [skiplist_get] of 5 is [vNULL], exactly as for key 6,
    which is not stored. *)
Lemma C5_null_value_reads_as_absent :
  (w0 ← demo_new [];
   '(_, w1) ← demo_add w0 5 vNULL;
   visited ← demo_iter w1;
   m5 ← skiplist_member cmp_int (list Z) 24 w1 5;
   g5 ← skiplist_get cmp_int (list Z) 24 w1 5;
   m6 ← skiplist_member cmp_int (list Z) 24 w1 6;
   g6 ← skiplist_get cmp_int (list Z) 24 w1 6;
   Some (visited, m5, g5, m6, g6)) = Some ([(5, vNULL)], 0, vNULL, 0, vNULL).
Proof. vm_compute. reflexivity. Qed.

Lemma C5_get_member_demo :
  skiplist_get cmp_int (list Z) 24 demo_world 5 = Some 20
  ∧ skiplist_member cmp_int (list Z) 24 demo_world 5 = Some 1.
Proof.
  apply (C5_get_member_first_value 8 (2^32) cmp_int bump_malloc (list Z) demo_seed
           replay_random (-1) bump_malloc_fresh cmp_int_flip cmp_int_trans max_height_8
           24 demo_world [mkE 7 3 40 1] (mkE 4 5 20 1) [mkE 2 5 10 2; mkE 5 7 30 3] 5).
  - apply demo_world_Inv.
  - by repeat constructor.
  - reflexivity.
  - cbn. lia.
Defined.

(** ** C6: an allocator that is out of memory *)

Lemma C6_out_of_memory_demo :
  ∃ old' w',
    add_or_set 8 (2^32) cmp_int (bounded_malloc 5) (list Z) replay_random (-1) 24
      demo_world true 6 60 (Some 42) = Some (-1, old', w')
    ∧ sl (list Z) w' = sl (list Z) demo_world
    ∧ (∀ x n, mem (list Z) demo_world !! x = Some n → mem (list Z) w' !! x = Some n)
    ∧ demo_Inv w' demo_entries.
Proof.
  apply (C6_allocation_failure 8 (2^32) cmp_int (bounded_malloc 5) (list Z) demo_seed
           replay_random (-1) (bounded_malloc_fresh 5) cmp_int_flip cmp_int_trans
           max_height_8 24 demo_world demo_entries true 6 60 (Some 42) 1%nat []).
  - apply demo_world_Inv.
  - intros _. repeat constructor; vm_compute; discriminate.
  - reflexivity.
  - left. vm_compute. reflexivity.
  - cbn. lia.
Defined.

(** ** C7: the height computed from a draw *)

(** C7 (code at the failing inputs). The loop tests [2 << bit], so bit 0
    of the draw is never looked at: the draw 1 gives height 1 and the
    draw 2 gives height 2, where one plus the number of consecutive set
    low-order bits is 2 and 1.  The height is within 1 and the maximal
    height all the same. *)
Theorem C7_height_skips_bit_zero :
  height_of_draw 8 1 = 1%nat ∧ height_by_low_bits 8 1 = 2%nat
  ∧ height_of_draw 8 2 = 2%nat ∧ height_by_low_bits 8 2 = 1%nat
  ∧ SKIPLIST_GEN_HEIGHT 8 (list Z) replay_random [1; 2] = (1%nat, [2])
  ∧ SKIPLIST_GEN_HEIGHT 8 (list Z) replay_random [2] = (2%nat, [])
  ∧ ∀ r, (1 ≤ height_of_draw 8 r ≤ 8)%nat.
Proof.
  repeat split; try reflexivity;
    destruct (height_of_draw_range 8 max_height_8 r); lia.
Qed.

(** ** C8: [skiplist_last] on an emptied skiplist *)

(** C8 (code at the failing input). [skiplist_add] of (9, 90) with a
    draw that gives three levels and [skiplist_delete] of 9 leave an
    empty skiplist ([count] 0, nothing to iterate) whose head has three
    levels.  After [skiplist_add] of the keys 5, 3, 8, 1, each with one
    level, the iteration shows 1, 3, 5, 8 and [skiplist_first] gives key
    1, but [skiplist_last] returns -1 and writes nothing: it looks at
    the top level of the head only, where no node is linked. *)
Theorem C8_last_misses_after_taller_node :
  (w0 ← demo_new [6; 0; 0; 0; 0];
   '(_, w1) ← demo_add w0 9 90;
   '(_, w2) ← skiplist_delete (2^32) cmp_int (list Z) 24 w1 9;
   emptied ← demo_iter w2;
   '(rcs, w6) ← demo_add_all w2 [(5, 50); (3, 30); (8, 80); (1, 10)];
   visited ← demo_iter w6;
   first ← skiplist_first (list Z) w6 (Some 0) (Some 0);
   last ← skiplist_last (list Z) 24 w6 (Some 0) (Some 0);
   Some (skiplist_count (list Z) w2, skiplist_empty (list Z) w2, emptied,
         rcs, visited, first, last))
  = Some (0, true, [], [0; 0; 0; 0], [(1, 10); (3, 30); (5, 50); (8, 80)],
          (0, Some 1, Some 10), (-1, Some 0, Some 0)).
Proof. vm_compute. reflexivity. Qed.

(** ** C9, C10 and the fresh skiplist at concrete inputs *)

Lemma fresh_first_last_demo :
  ∃ w4 w8,
    demo_add_all (demo_fresh [2; 0; 6; 1]) [(5, 50); (3, 30); (8, 80); (1, 10)]
    = Some ([0; 0; 0; 0], w4)
    ∧ skiplist_first (list Z) w4 (Some 0) (Some 0) = Some (0, Some 1, Some 10)
    ∧ skiplist_last (list Z) 24 w4 (Some 0) (Some 0) = Some (0, Some 8, Some 80)
    ∧ skiplist_count (list Z) w8 = 0
    ∧ demo_iter w8 = Some [].
Proof.
  destruct (fresh_first_last_pop_first 8 (2^32) cmp_int bump_malloc (list Z) demo_seed
              replay_random (-1) bump_malloc_fresh cmp_int_flip cmp_int_trans
              max_height_8 count_modulus_32 bump_malloc_total
              ∅ [2; 0; 6; 1] (demo_fresh [2; 0; 6; 1]) 50 30 80 10 24
              cmp_int_lt (demo_new_fresh [2; 0; 6; 1]) ltac:(cbn; lia))
    as (w1 & w2 & w3 & w4 & w5 & w6 & w7 & w8 & Ha1 & Ha2 & Ha3 & Ha4 & Hfirst & Hlast
        & _ & _ & _ & _ & Hct & _ & _ & Hit).
  exists w4, w8. split; [|by repeat split].
  unfold demo_add_all. cbn [add_all]. rewrite Ha1. cbn [mbind option_bind].
  rewrite Ha2. cbn [mbind option_bind]. rewrite Ha3. cbn [mbind option_bind].
  rewrite Ha4. reflexivity.
Defined.

Lemma C9_same_heights_demo :
  ∃ wa' wb' La Lb,
    demo_add_all (skiplist_set_seed (list Z) demo_seed (demo_fresh []) 2)
      [(5, 10); (3, 20); (8, 30)] = Some ([0; 0; 0], wa')
    ∧ demo_add_all (skiplist_set_seed (list Z) demo_seed (demo_fresh [7; 7]) 2)
        [(1, 1); (1, 2); (1, 3)] = Some ([0; 0; 0], wb')
    ∧ demo_Inv wa' La ∧ demo_Inv wb' Lb
    ∧ triples_of La ≡ₚ with_heights [(5, 10); (3, 20); (8, 30)] [2; 1; 3]%nat
    ∧ triples_of Lb ≡ₚ with_heights [(1, 1); (1, 2); (1, 3)] [2; 1; 3]%nat.
Proof.
  apply (C9_same_seed_same_heights 8 (2^32) cmp_int bump_malloc (list Z) demo_seed
           replay_random (-1) bump_malloc_fresh cmp_int_flip cmp_int_trans
           max_height_8 count_modulus_32 bump_malloc_total
           2 [(5, 10); (3, 20); (8, 30)] [(1, 1); (1, 2); (1, 3)]
           ∅ [] (demo_fresh []) ∅ [7; 7] (demo_fresh [7; 7]) 24).
  - apply demo_new_fresh.
  - apply demo_new_fresh.
  - reflexivity.
  - cbn. lia.
Defined.

Lemma C10_set_first_duplicate_demo :
  ∃ nx,
    mem (list Z) demo_world !! 4%nat = Some (mkN 1 5 20 nx)
    ∧ demo_set demo_world 5 99 (Some 0)
      = Some (0, Some 20,
              mkW (list Z) (<[4%nat := mkN 1 5 99 nx]> (mem (list Z) demo_world))
                (sl (list Z) demo_world) (rng (list Z) demo_world))
    ∧ demo_Inv
        (mkW (list Z) (<[4%nat := mkN 1 5 99 nx]> (mem (list Z) demo_world))
           (sl (list Z) demo_world) (rng (list Z) demo_world))
        [mkE 7 3 40 1; mkE 4 5 99 1; mkE 2 5 10 2; mkE 5 7 30 3].
Proof.
  apply (C10_set_replaces_first_duplicate 8 (2^32) cmp_int bump_malloc (list Z) demo_seed
           replay_random (-1) bump_malloc_fresh cmp_int_flip cmp_int_trans max_height_8
           24 demo_world [mkE 7 3 40 1] (mkE 4 5 20 1) [mkE 2 5 10 2; mkE 5 7 30 3]
           5 99 (Some 0)).
  - apply demo_world_Inv.
  - by repeat constructor.
  - reflexivity.
  - cbn. lia.
Defined.


(** * The height generator, bit by bit *)

(** The mask [2 << bit] against a draw of [random], which is between 0
    and 2^31 - 1: the test of the loop reads bit [bit + 1] of the draw. *)
Lemma land_pow2 r k :
  0 ≤ k → Z.land r (2 ^ k) = if Z.testbit r k then 2 ^ k else 0.
Proof.
  intros Hk. apply Z.bits_inj'. intros n Hn.
  rewrite Z.land_spec, Z.pow2_bits_eqb by done.
  destruct (Z.eqb_spec k n) as [->|Hne].
  - destruct (Z.testbit r n); [|by rewrite Z.bits_0].
    by rewrite Z.pow2_bits_eqb, Z.eqb_refl by done.
  - rewrite andb_false_r. destruct (Z.testbit r k); [|by rewrite Z.bits_0].
    rewrite Z.pow2_bits_eqb by done. symmetry. by apply Z.eqb_neq.
Qed.

Lemma testbit_above r k : 0 ≤ r < 2 ^ 31 → 31 ≤ k → Z.testbit r k = false.
Proof.
  intros Hr Hk. destruct (decide (r = 0)) as [->|Hnz]; [apply Z.bits_0|].
  apply Z.bits_above_log2; [lia|].
  assert (Z.log2 r < 31); [|lia]. apply Z.log2_lt_pow2; lia.
Qed.

Lemma loop_test_reads_next_bit r bit :
  0 ≤ r < 2 ^ 31 → 0 ≤ bit →
  Z.eqb (Z.land r (int_of_Z (Z.shiftl 2 bit))) 0 = negb (Z.testbit r (bit + 1)).
Proof.
  intros Hr Hbit. rewrite Z.shiftl_mul_pow2 by done.
  replace (2 * 2 ^ bit) with (2 ^ (bit + 1)) by (rewrite Z.pow_add_r by lia; lia).
  destruct (decide (bit + 1 ≤ 30)) as [Hlow|Hhigh].
  - assert (0 < 2 ^ (bit + 1) ≤ 2 ^ 30) as Hp.
    { split; [apply Z.pow_pos_nonneg; lia|apply Z.pow_le_mono_r; lia]. }
    unfold int_of_Z. rewrite Z.mod_small by lia.
    replace (2 ^ (bit + 1) + 2 ^ 31 - 2 ^ 31) with (2 ^ (bit + 1)) by lia.
    rewrite land_pow2 by lia.
    destruct (Z.testbit r (bit + 1)); [|done]. cbn [negb]. apply Z.eqb_neq. lia.
  - rewrite (testbit_above r (bit + 1)) by lia. cbn [negb]. apply Z.eqb_eq.
    apply Z.bits_inj'. intros n Hn. rewrite Z.land_spec, Z.bits_0.
    destruct (decide (n < 31)) as [Hn31|Hn31]; [|by rewrite testbit_above by lia].
    apply andb_false_intro2. unfold int_of_Z.
    destruct (decide (bit + 1 = 31)) as [->|Hne].
    + change ((2 ^ 31 + 2 ^ 31) mod 2 ^ 32 - 2 ^ 31) with (-1 * 2 ^ 31).
      apply Z.mul_pow2_bits_low. lia.
    + replace (2 ^ (bit + 1)) with (2 ^ (bit + 1 - 32) * 2 ^ 32)
        by (rewrite <- Z.pow_add_r by lia; f_equal; lia).
      rewrite Z.add_comm, Z.mod_add by lia.
      change (2 ^ 31 mod 2 ^ 32 - 2 ^ 31) with 0. apply Z.bits_0.
Qed.

Lemma height_loop_low_set_bits r :
  0 ≤ r < 2 ^ 31 →
  ∀ rounds bit h,
    0 ≤ bit →
    height_loop rounds r bit h = (h + low_set_bits rounds (Z.shiftr r (bit + 1)))%nat.
Proof.
  intros Hr. induction rounds as [|rounds IH]; intros bit h Hbit;
    cbn [height_loop low_set_bits]; [lia|].
  rewrite loop_test_reads_next_bit by done.
  rewrite Z.shiftr_spec by lia. cbn [Z.add].
  replace (0 + (bit + 1)) with (bit + 1) by lia.
  destruct (Z.testbit r (bit + 1)); cbn [negb]; [|lia].
  rewrite IH by lia. rewrite Z.shiftr_shiftr by lia.
  lia.
Qed.

(** X22. For a draw that [random] can return, the height is one plus the
    number of consecutive set bits of the draw from bit 1 upwards (bit 0 is
    not looked at), capped at the maximal height. *)
Theorem height_counts_bits_above_bit_zero max_height r :
  0 ≤ r < 2 ^ 31 →
  height_of_draw max_height r
  = Nat.min max_height (1 + low_set_bits 32 (Z.shiftr r 1)).
Proof.
  intros Hr. unfold height_of_draw.
  rewrite (height_loop_low_set_bits r Hr 32 0 1) by lia.
  change (0 + 1) with 1. case_decide; lia.
Qed.


(** * Further properties at concrete inputs *)

Ltac solve_not_stored :=
  let Hex := fresh "Hex" in
  unfold stored; intros Hex;
  repeat (apply Exists_cons in Hex as [Hex|Hex]; [vm_compute in Hex; discriminate|]);
  by apply Exists_nil in Hex.

Lemma demo_world_Inv_at : demo_Inv_at demo_world 6 3 demo_entries.
Proof.
  split; [done|]. split; [|split; [done|lia]].
  split.
  - cbn [chain_to demo_entries]. repeat split; try solve_links.
  - cbn. repeat (constructor; [set_solver|]). constructor.
  - repeat (constructor; [cbn; lia|]). constructor.
  - lia.
Qed.

Lemma demo_fresh_Inv g : demo_Inv (demo_fresh g) [].
Proof.
  apply (skiplist_new_Inv 8 (2^32) cmp_int bump_malloc (list Z) (-1) bump_malloc_fresh
           cmp_int_flip cmp_int_trans max_height_8 count_modulus_32 ∅ g).
  apply demo_new_fresh.
Qed.

Lemma demo_fresh_Inv_at g : demo_Inv_at (demo_fresh g) 1 1 [].
Proof.
  split; [done|]. split; [|split; [done|lia]].
  split.
  - cbn [chain_to]. repeat split; try solve_links.
  - cbn. repeat (constructor; [set_solver|]). constructor.
  - constructor.
  - lia.
Qed.

Lemma demo_short_reached :
  (w0 ← demo_new [6; 0];
   '(_, w1) ← demo_add w0 5 50;
   '(_, w2) ← demo_add w1 1 10;
   '(_, w3) ← skiplist_delete (2^32) cmp_int (list Z) 24 w2 5;
   Some w3) = Some demo_short.
Proof. vm_compute. reflexivity. Qed.

Lemma demo_short_Inv_at : demo_Inv_at demo_short 3 3 [mkE 4 1 10 1].
Proof.
  split; [done|]. split; [|split; [done|lia]].
  split.
  - cbn [chain_to]. repeat split; try solve_links.
  - cbn. repeat (constructor; [set_solver|]). constructor.
  - repeat (constructor; [cbn; lia|]). constructor.
  - lia.
Qed.

Lemma lookup_missing_key_demo :
  skiplist_get cmp_int (list Z) 24 demo_world 6 = Some vNULL
  ∧ skiplist_member cmp_int (list Z) 24 demo_world 6 = Some 0
  ∧ skiplist_iter_from cmp_int (list Z) 24 demo_world 6 [] collect = Some (-1, []).
Proof.
  apply (lookup_missing_key 8 (2^32) cmp_int bump_malloc (list Z) demo_seed
           replay_random (-1) bump_malloc_fresh cmp_int_flip cmp_int_trans max_height_8
           24 demo_world demo_entries 6 [] collect).
  - apply demo_world_Inv.
  - solve_not_stored.
  - cbn. lia.
Defined.

Lemma member_exact_demo :
  ∃ b, skiplist_member cmp_int (list Z) 24 demo_world 5 = Some b
       ∧ (b = 0 ∨ b = 1)
       ∧ (b = 1 → stored cmp_int 5 demo_entries)
       ∧ (Forall (λ e, e_val e ≠ vNULL) demo_entries → stored cmp_int 5 demo_entries
          → b = 1).
Proof.
  apply (member_exact_without_null 8 (2^32) cmp_int bump_malloc (list Z) demo_seed
           replay_random (-1) bump_malloc_fresh cmp_int_flip cmp_int_trans max_height_8
           24 demo_world demo_entries 5).
  - apply demo_world_Inv.
  - cbn. lia.
Defined.

Lemma add_then_get_demo :
  ∃ rc w',
    demo_add demo_world 5 77 = Some (rc, w')
    ∧ ((rc = -1 ∧ sl (list Z) w' = sl (list Z) demo_world ∧ demo_Inv w' demo_entries)
       ∨ (rc = 0
          ∧ ∃ L1 L2 a h,
              demo_entries = L1 ++ L2
              ∧ Forall (λ e, cmp_int (e_key e) 5 < 0) L1
              ∧ Forall (λ e, 0 ≤ cmp_int (e_key e) 5) L2
              ∧ demo_Inv w' (L1 ++ mkE a 5 77 h :: L2)
              ∧ skiplist_count (list Z) w'
                = count_inc (2^32) (skiplist_count (list Z) demo_world)
              ∧ skiplist_get cmp_int (list Z) 24 w' 5 = Some 77)).
Proof.
  apply (add_then_get 8 (2^32) cmp_int bump_malloc (list Z) demo_seed
           replay_random (-1) bump_malloc_fresh cmp_int_flip cmp_int_trans max_height_8
           24 demo_world demo_entries 5 77).
  - apply demo_world_Inv.
  - cbn. lia.
Defined.

Lemma set_then_get_demo :
  ∃ rc old' w' L',
    demo_set demo_world 6 66 (Some 0) = Some (rc, old', w')
    ∧ demo_Inv w' L'
    ∧ ((rc = -1 ∧ ¬ stored cmp_int 6 demo_entries
        ∧ sl (list Z) w' = sl (list Z) demo_world ∧ L' = demo_entries)
       ∨ (rc = 0
          ∧ skiplist_get cmp_int (list Z) 24 w' 6 = Some 66
          ∧ (stored cmp_int 6 demo_entries →
             length L' = length demo_entries
             ∧ skiplist_count (list Z) w' = skiplist_count (list Z) demo_world)
          ∧ (¬ stored cmp_int 6 demo_entries →
             length L' = S (length demo_entries)
             ∧ skiplist_count (list Z) w'
               = count_inc (2^32) (skiplist_count (list Z) demo_world)))).
Proof.
  apply (set_then_get 8 (2^32) cmp_int bump_malloc (list Z) demo_seed
           replay_random (-1) bump_malloc_fresh cmp_int_flip cmp_int_trans max_height_8
           24 demo_world demo_entries 6 66 (Some 0)).
  - apply demo_world_Inv.
  - cbn. lia.
Defined.

Lemma delete_missing_key_demo :
  skiplist_delete (2^32) cmp_int (list Z) 24 demo_world 6 = Some (vNULL, demo_world)
  ∧ skiplist_delete_all (2^32) cmp_int (list Z) 24 demo_world 6 [] record_value
    = Some ([], demo_world).
Proof.
  apply (delete_missing_key 8 (2^32) cmp_int bump_malloc (list Z) demo_seed
           replay_random (-1) cmp_int_flip cmp_int_trans max_height_8
           24 demo_world demo_entries 6 [] record_value).
  - apply demo_world_Inv.
  - solve_not_stored.
  - cbn. lia.
Defined.

Lemma delete_first_equal_demo :
  ∃ w',
    skiplist_delete (2^32) cmp_int (list Z) 24 demo_world 5 = Some (20, w')
    ∧ demo_Inv w' [mkE 7 3 40 1; mkE 2 5 10 2; mkE 5 7 30 3]
    ∧ head (sl (list Z) w') = Ptr 6
    ∧ skiplist_count (list Z) w' = count_dec (2^32) (skiplist_count (list Z) demo_world)
    ∧ demo_iter w' = Some [(3, 40); (5, 10); (7, 30)]
    ∧ mem (list Z) w' !! 4%nat = None
    ∧ (∀ x, x ∉ blocks 6 demo_entries →
            mem (list Z) w' !! x = mem (list Z) demo_world !! x).
Proof.
  apply (delete_removes_first_equal 8 (2^32) cmp_int bump_malloc (list Z) demo_seed
           replay_random (-1) bump_malloc_fresh cmp_int_flip cmp_int_trans max_height_8
           count_modulus_32 24 demo_world 6 [mkE 7 3 40 1] (mkE 4 5 20 1) [mkE 2 5 10 2; mkE 5 7 30 3] 5).
  - apply demo_world_Inv.
  - reflexivity.
  - by repeat constructor.
  - reflexivity.
  - cbn. lia.
Defined.

Lemma delete_all_run_demo :
  ∃ w',
    skiplist_delete_all (2^32) cmp_int (list Z) 24 demo_world 5 [] record_value
    = Some ([20; 10], w')
    ∧ demo_Inv w' [mkE 7 3 40 1; mkE 5 7 30 3]
    ∧ skiplist_count (list Z) w'
      = count_dec (2^32) (count_dec (2^32) (skiplist_count (list Z) demo_world))
    ∧ demo_iter w' = Some [(3, 40); (7, 30)]
    ∧ skiplist_member cmp_int (list Z) 24 w' 5 = Some 0.
Proof.
  apply (delete_all_removes_run 8 (2^32) cmp_int bump_malloc (list Z) demo_seed
           replay_random (-1) bump_malloc_fresh cmp_int_flip cmp_int_trans max_height_8
           24 demo_world [mkE 7 3 40 1] (mkE 4 5 20 1) [mkE 2 5 10 2] [mkE 5 7 30 3]
           5 [] record_value).
  - apply demo_world_Inv.
  - by repeat constructor.
  - by repeat constructor.
  - repeat constructor. vm_compute. discriminate.
  - cbn. lia.
Defined.

Lemma boundary_ops_on_empty_demo :
  skiplist_first (list Z) demo_emptied (Some 0) None = Some (-1, Some 0, None)
  ∧ skiplist_last (list Z) 24 demo_emptied (Some 0) None = Some (-1, Some 0, None)
  ∧ skiplist_pop_first (2^32) (list Z) demo_emptied (Some 0) None
    = Some (-1, Some 0, None, demo_emptied)
  ∧ skiplist_pop_last (2^32) (list Z) 24 demo_emptied (Some 0) None
    = Some (-1, Some 0, None, demo_emptied)
  ∧ skiplist_count (list Z) demo_emptied = 0
  ∧ skiplist_empty (list Z) demo_emptied = true.
Proof.
  apply (boundary_ops_on_empty 8 (2^32) cmp_int bump_malloc (list Z) demo_seed
           replay_random (-1) bump_malloc_fresh cmp_int_flip cmp_int_trans
           max_height_8 count_modulus_32
           [OpAdd 9 90; OpDelete 9] ∅ [6] (demo_fresh [6]) demo_emptied 24
           (Some 0) None).
  - apply demo_new_fresh.
  - vm_compute. reflexivity.
  - vm_compute. reflexivity.
  - cbn. lia.
Defined.

Lemma pop_first_least_demo :
  ∃ w',
    skiplist_first (list Z) demo_world (Some 0) (Some 0) = Some (0, Some 3, Some 40)
    ∧ skiplist_pop_first (2^32) (list Z) demo_world (Some 0) (Some 0)
      = Some (0, Some 3, Some 40, w')
    ∧ demo_Inv w' [mkE 4 5 20 1; mkE 2 5 10 2; mkE 5 7 30 3]
    ∧ skiplist_count (list Z) w' = count_dec (2^32) (skiplist_count (list Z) demo_world)
    ∧ demo_iter w' = Some [(5, 20); (5, 10); (7, 30)]
    ∧ Forall (λ e, cmp_int 3 (e_key e) ≤ 0)
        [mkE 4 5 20 1; mkE 2 5 10 2; mkE 5 7 30 3].
Proof.
  apply (pop_first_takes_least 8 (2^32) cmp_int bump_malloc (list Z) demo_seed
           replay_random (-1) bump_malloc_fresh max_height_8
           24 demo_world (mkE 7 3 40 1) [mkE 4 5 20 1; mkE 2 5 10 2; mkE 5 7 30 3]
           (Some 0) (Some 0)).
  - apply demo_world_Inv.
  - cbn. lia.
Defined.

Lemma pop_last_greatest_demo :
  ∃ w',
    skiplist_pop_last (2^32) (list Z) 24 demo_world (Some 0) (Some 0)
    = Some (0, Some 7, Some 30, w')
    ∧ demo_Inv w' [mkE 7 3 40 1; mkE 4 5 20 1; mkE 2 5 10 2]
    ∧ skiplist_count (list Z) w' = count_dec (2^32) (skiplist_count (list Z) demo_world)
    ∧ demo_iter w' = Some [(3, 40); (5, 20); (5, 10)]
    ∧ Forall (λ e, cmp_int (e_key e) 7 ≤ 0)
        [mkE 7 3 40 1; mkE 4 5 20 1; mkE 2 5 10 2].
Proof.
  apply (pop_last_takes_greatest 8 (2^32) cmp_int bump_malloc (list Z) demo_seed
           replay_random (-1) bump_malloc_fresh max_height_8
           24 demo_world [mkE 7 3 40 1; mkE 4 5 20 1; mkE 2 5 10 2] (mkE 5 7 30 3)
           (Some 0) (Some 0)).
  - apply demo_world_Inv.
  - done.
  - cbn. lia.
Defined.

Lemma last_top_level_used_demo :
  skiplist_last (list Z) 24 demo_world (Some 0) (Some 0) = Some (0, Some 7, Some 30).
Proof.
  apply (last_when_top_level_used 8 (2^32) cmp_int bump_malloc (list Z) demo_seed
           replay_random (-1) bump_malloc_fresh max_height_8
           24 demo_world 6 3 [mkE 7 3 40 1; mkE 4 5 20 1; mkE 2 5 10 2] (mkE 5 7 30 3)
           (Some 0) (Some 0)).
  - apply demo_world_Inv_at.
  - do 3 apply Exists_cons_tl. by apply Exists_cons_hd.
  - cbn. lia.
Defined.

Lemma last_misses_demo :
  skiplist_last (list Z) 24 demo_short (Some 0) (Some 0) = Some (-1, Some 0, Some 0)
  ∧ skiplist_first (list Z) demo_short (Some 0) (Some 0) = Some (0, Some 1, Some 10).
Proof.
  apply (last_misses_below_top_level 8 (2^32) (list Z) (-1) max_height_8
           24 demo_short 3 3 (mkE 4 1 10 1) [] (Some 0) (Some 0)).
  - apply demo_short_Inv_at.
  - repeat constructor.
Defined.

Lemma iter_until_stopped_demo :
  skiplist_iter (list Z) 24 demo_world [] (collect_until 5) = Some [(3, 40); (5, 20)].
Proof.
  apply (iter_visits_until_stopped 8 (2^32) cmp_int bump_malloc (list Z) demo_seed
           replay_random (-1) max_height_8
           24 demo_world demo_entries [] (collect_until 5)).
  - apply demo_world_Inv.
  - cbn. lia.
Defined.

Lemma iter_from_first_equal_demo :
  skiplist_iter_from cmp_int (list Z) 24 demo_world 5 [] collect
  = Some (0, [(5, 20); (5, 10); (7, 30)]).
Proof.
  apply (iter_from_first_equal 8 (2^32) cmp_int bump_malloc (list Z) demo_seed
           replay_random (-1) cmp_int_flip cmp_int_trans max_height_8
           24 demo_world [mkE 7 3 40 1] (mkE 4 5 20 1) [mkE 2 5 10 2; mkE 5 7 30 3]
           5 [] collect).
  - apply demo_world_Inv.
  - by repeat constructor.
  - reflexivity.
  - cbn. lia.
Defined.

Lemma adds_sorted_permutation_demo :
  ∃ w' visited,
    demo_add_all (demo_fresh [2; 0; 6; 1]) [(5, 50); (3, 30); (8, 80); (3, 31)]
    = Some ([0; 0; 0; 0], w')
    ∧ demo_iter w' = Some visited
    ∧ visited ≡ₚ [(5, 50); (3, 30); (8, 80); (3, 31)]
    ∧ StronglySorted (λ a b, cmp_int a.1 b.1 ≤ 0) visited
    ∧ skiplist_count (list Z) w' = 4 mod 2^32
    ∧ (∀ k v, visited !! 0%nat = Some (k, v) →
              skiplist_first (list Z) w' (Some 0) (Some 0) = Some (0, Some k, Some v))
    ∧ (∀ k v, last visited = Some (k, v) →
              skiplist_last (list Z) 24 w' (Some 0) (Some 0) = Some (0, Some k, Some v)).
Proof.
  apply (adds_give_sorted_permutation 8 (2^32) cmp_int bump_malloc (list Z) demo_seed
           replay_random (-1) bump_malloc_fresh cmp_int_flip cmp_int_trans max_height_8
           count_modulus_32 bump_malloc_total
           ∅ [2; 0; 6; 1] (demo_fresh [2; 0; 6; 1])
           [(5, 50); (3, 30); (8, 80); (3, 31)] 24).
  - apply demo_new_fresh.
  - cbn. lia.
Defined.

Lemma count_matches_iteration_demo :
  ∃ w visited,
    run 8 (2^32) cmp_int bump_malloc (list Z) replay_random (-1) 24
      (demo_fresh [2; 0; 6; 1; 2; 4; 0; 14]) demo_ops = Some w
    ∧ demo_iter w = Some visited
    ∧ skiplist_count (list Z) w = Z.of_nat (length visited) mod 2^32
    ∧ (Z.of_nat (length demo_ops) < 2^32 →
       skiplist_count (list Z) w = Z.of_nat (length visited)
       ∧ (skiplist_empty (list Z) w = true ↔ visited = [])).
Proof.
  apply (count_matches_iteration 8 (2^32) cmp_int bump_malloc (list Z) demo_seed
           replay_random (-1) bump_malloc_fresh cmp_int_flip cmp_int_trans
           max_height_8 count_modulus_32 demo_ops ∅ [2; 0; 6; 1; 2; 4; 0; 14]).
  - apply demo_new_fresh.
  - cbn. lia.
Defined.

Lemma clear_releases_demo :
  ∃ w',
    skiplist_clear (2^32) (list Z) 24 demo_world [] (Some record_value)
    = Some (4, [40; 20; 10; 30], w')
    ∧ sl (list Z) w' = sl (list Z) demo_world
    ∧ (∀ x, x ∈ [7; 4; 2; 5]%nat → mem (list Z) w' !! x = None)
    ∧ (∀ x, x ∉ [6; 7; 4; 2; 5]%nat → mem (list Z) w' !! x = mem (list Z) demo_world !! x)
    ∧ demo_iter w' = Some []
    ∧ skiplist_first (list Z) w' (Some 0) (Some 0) = Some (-1, Some 0, Some 0)
    ∧ skiplist_get cmp_int (list Z) 24 w' 5 = Some vNULL.
Proof.
  apply (clear_releases_every_node 8 (2^32) cmp_int bump_malloc (list Z) demo_seed
           replay_random (-1) bump_malloc_fresh max_height_8 count_modulus_32
           24 demo_world 6 3 demo_entries [] (Some record_value) 5).
  - apply demo_world_Inv_at.
  - cbn. lia.
Defined.

Lemma free_releases_demo :
  ∃ m',
    skiplist_free (2^32) (list Z) 24 demo_world [] (Some record_value)
    = Some (4, [40; 20; 10; 30], m')
    ∧ (∀ x, x ∈ [6; 7; 4; 2; 5]%nat → m' !! x = None)
    ∧ (∀ x, x ∉ [6; 7; 4; 2; 5]%nat → m' !! x = mem (list Z) demo_world !! x).
Proof.
  apply (free_releases_every_block 8 (2^32) cmp_int bump_malloc (list Z) demo_seed
           replay_random (-1) max_height_8 count_modulus_32
           24 demo_world 6 3 demo_entries [] (Some record_value)).
  - apply demo_world_Inv_at.
  - cbn. lia.
Defined.

Lemma head_allocation_failure_demo :
  ∃ old',
    add_or_set 8 (2^32) cmp_int (bounded_malloc 2) (list Z) replay_random (-1) 24
      (demo_fresh [6]) false 5 50 None
    = Some (-1, old',
            mkW (list Z)
              (<[2%nat := mkN 3 5 50 [SENTINEL; SENTINEL; SENTINEL]]>
                 (mem (list Z) (demo_fresh [6])))
              (sl (list Z) (demo_fresh [6])) [])
    ∧ mem (list Z) (demo_fresh [6]) !! 2%nat = None
    ∧ (2%nat ∉ [1%nat])
    ∧ demo_Inv_at
        (mkW (list Z)
           (<[2%nat := mkN 3 5 50 [SENTINEL; SENTINEL; SENTINEL]]>
              (mem (list Z) (demo_fresh [6])))
           (sl (list Z) (demo_fresh [6])) [])
        1 1 [].
Proof.
  apply (head_allocation_failure_keeps_node 8 (2^32) cmp_int (bounded_malloc 2) (list Z)
           demo_seed replay_random (-1) (bounded_malloc_fresh 2) cmp_int_flip
           cmp_int_trans max_height_8
           24 (demo_fresh [6]) 1 1 [] false 5 50 None 3 [] 2).
  - apply demo_fresh_Inv_at.
  - constructor.
  - done.
  - reflexivity.
  - lia.
  - vm_compute. reflexivity.
  - vm_compute. reflexivity.
  - cbn. lia.
Defined.

Lemma height_of_draw_6 :
  height_of_draw 8 6 = Nat.min 8 (1 + low_set_bits 32 (Z.shiftr 6 1)).
Proof. apply height_counts_bits_above_bit_zero. lia. Defined.


Lemma demo_new_busy g :
  skiplist_new bump_malloc (list Z) (-1) demo_busy g = Some (demo_fresh_busy g).
Proof. vm_compute. reflexivity. Qed.

Lemma run_keeps_to_own_blocks_demo :
  ∃ w hd H L,
    run 8 (2^32) cmp_int bump_malloc (list Z) replay_random (-1) 24
      (demo_fresh_busy [2; 0; 6; 1; 2; 4; 0; 14]) demo_ops = Some w
    ∧ demo_Inv_at w hd H L
    ∧ (∀ x n, demo_busy !! x = Some n → mem (list Z) w !! x = Some n ∧ x ∉ blocks hd L)
    ∧ (∀ x, demo_busy !! x = None → x ∉ blocks hd L → mem (list Z) w !! x = None).
Proof.
  apply (run_keeps_to_own_blocks 8 (2^32) cmp_int bump_malloc (list Z) demo_seed
           replay_random (-1) bump_malloc_fresh cmp_int_flip cmp_int_trans
           max_height_8 count_modulus_32 bump_malloc_total
           demo_ops demo_busy [2; 0; 6; 1; 2; 4; 0; 14]).
  - apply demo_new_busy.
  - cbn. lia.
Defined.

Lemma free_after_run_demo :
  ∃ w ct seen,
    run 8 (2^32) cmp_int bump_malloc (list Z) replay_random (-1) 24
      (demo_fresh_busy [2; 0; 6; 1; 2; 4; 0; 14]) demo_ops = Some w
    ∧ skiplist_free (2^32) (list Z) 24 w [] (Some record_value)
      = Some (ct, seen, demo_busy).
Proof.
  apply (free_after_run_restores_heap 8 (2^32) cmp_int bump_malloc (list Z) demo_seed
           replay_random (-1) bump_malloc_fresh cmp_int_flip cmp_int_trans
           max_height_8 count_modulus_32 bump_malloc_total
           demo_ops demo_busy [2; 0; 6; 1; 2; 4; 0; 14]).
  - apply demo_new_busy.
  - cbn. lia.
Defined.
